(** * A shallow embedding of the track store of music-tracks-api

    The development follows [src/utils/db.ts]: a directory of JSON
    documents, one per track, queried by full scans and updated by
    read-modify-write.  Asynchronous functions are rendered in a state
    and exception monad over an explicit model of the storage area. *)

From Stdlib Require Import ZArith Lia Ascii.
From stdpp Require Import base option list sorting gmap strings pretty fin_maps.

Local Open Scope string_scope.
Local Open Scope Z_scope.

(** ** Strings *)

Module Str.

(** [s.startsWith(p)] *)
Fixpoint startsWith (s p : string) : bool :=
  match p, s with
  | EmptyString, _ => true
  | String _ _, EmptyString => false
  | String c p', String d s' => if Ascii.eqb c d then startsWith s' p' else false
  end.

(** [s.includes(sub)]: [sub] occurs at some offset of [s]. *)
Fixpoint includes (s sub : string) : bool :=
  startsWith s sub ||
  match s with
  | EmptyString => false
  | String _ s' => includes s' sub
  end.

(** [s.endsWith(suf)]: some tail of [s] is [suf]. *)
Fixpoint endsWith (s suf : string) : bool :=
  String.eqb s suf ||
  match s with
  | EmptyString => false
  | String _ s' => endsWith s' suf
  end.

(** JavaScript truthiness of a possibly absent string: [undefined] and
    the empty string are falsy. *)
Definition truthy (o : option string) : bool :=
  match o with
  | Some s => negb (String.eqb s "")
  | None => false
  end.

(** [o || ''] *)
Definition orEmpty (o : option string) : string :=
  match o with
  | Some s => s
  | None => ""
  end.

End Str.

(** ** The host runtime

    Built-ins whose result depends on the JavaScript engine and its
    locale data are kept abstract; [asciiRuntime] below is one instance,
    used to evaluate the model on concrete inputs. *)

Record JsRuntime := {
  toLowerCase : string → string;          (* String.prototype.toLowerCase *)
  localeCompare : string → string → Z;    (* a.localeCompare(b) *)
  Date_getTime : string → option Z;       (* new Date(s).getTime(); None is NaN *)
  toISOString : Z → string;               (* new Date(ms).toISOString() *)
  path_extname : string → string          (* path.extname *)
}.

(** ** Data model (src/types) *)

Record Track := {
  id : string;
  title : string;
  artist : string;
  album : option string;
  genres : list string;
  slug : string;
  coverImage : option string;
  audioFile : option string;
  createdAt : string;
  updatedAt : string
}.

(** [Omit<Track, 'id' | 'createdAt' | 'updatedAt'>] *)
Record TrackDraft := {
  d_title : string;
  d_artist : string;
  d_album : option string;
  d_genres : list string;
  d_slug : string;
  d_coverImage : option string;
  d_audioFile : option string
}.

(** [Partial<Track>].  [None] is an absent key.  For the optional fields
    of [Track] a present key may carry [undefined] ([Some None]), which
    is how [deleteAudioFile] clears the asset reference.  A present key
    carrying [undefined] for a required field would persist a document
    that is no [Track]; such updates are outside this model. *)
Record TrackUpdates := {
  u_id : option string;
  u_title : option string;
  u_artist : option string;
  u_album : option (option string);
  u_genres : option (list string);
  u_slug : option string;
  u_coverImage : option (option string);
  u_audioFile : option (option string);
  u_createdAt : option string;
  u_updatedAt : option string
}.

Inductive SortField := ByTitle | ByArtist | ByAlbum | ByCreatedAt.
Inductive SortOrder := Asc | Desc.

(** [QueryParams].  [page] and [limit] are whole numbers here; the
    fractional values that the type [number] admits, and that [slice]
    truncates, are outside the model. *)
Record QueryParams := {
  page : option Z;
  limit : option Z;
  sort : option SortField;
  order : option SortOrder;
  search : option string;
  genre : option string;
  q_artist : option string
}.

Definition noParams : QueryParams :=
  {| page := None; limit := None; sort := None; order := None;
     search := None; genre := None; q_artist := None |}.

Record GetTracksResult := {
  tracks : list Track;
  total : nat
}.

Record BatchDeleteResponse := {
  success : list string;
  failed : list string
}.

(** ** Storage

    A record file holds either a document written by [JSON.stringify]
    from a [Track], or text that [JSON.parse] rejects.  The same for the
    genre catalogue. *)

Inductive TrackFile :=
| Doc (t : Track)
| Corrupt (raw : string).

Inductive GenresFile :=
| GenreList (names : list string)
| CorruptGenres (raw : string).

(** The storage area and the environment the code observes.  [faults]
    is consulted once per file-system call, in call order: [true] makes
    that call fail with an I/O error; an exhausted list means no further
    failures.  [clock] is the next reading of the system clock and
    [lapse] the amounts by which it moves between readings. *)
Record World := {
  tracksDir : gmap string TrackFile;
  uploadsDir : gmap string (list Byte.byte);
  genresFile : option GenresFile;
  clock : Z;
  lapse : list Z;
  faults : list bool
}.

Definition set_tracksDir (m : gmap string TrackFile) (w : World) : World :=
  {| tracksDir := m; uploadsDir := uploadsDir w; genresFile := genresFile w;
     clock := clock w; lapse := lapse w; faults := faults w |}.

Definition set_uploadsDir (m : gmap string (list Byte.byte)) (w : World) : World :=
  {| tracksDir := tracksDir w; uploadsDir := m; genresFile := genresFile w;
     clock := clock w; lapse := lapse w; faults := faults w |}.

Definition set_faults (fs : list bool) (w : World) : World :=
  {| tracksDir := tracksDir w; uploadsDir := uploadsDir w; genresFile := genresFile w;
     clock := clock w; lapse := lapse w; faults := fs |}.

Definition set_clock (c : Z) (l : list Z) (w : World) : World :=
  {| tracksDir := tracksDir w; uploadsDir := uploadsDir w; genresFile := genresFile w;
     clock := c; lapse := l; faults := faults w |}.

(** ** Computations that may throw *)

Inductive Error :=
| ENOENT (path : string)
| EIO (path : string)
| SyntaxError.

Inductive Outcome (A : Type) :=
| Return (a : A)
| Throw (e : Error).
Arguments Return {A} a.
Arguments Throw {A} e.

Definition IO (A : Type) : Type := World → Outcome A * World.

Definition ret {A} (a : A) : IO A := λ w, (Return a, w).
Definition throw {A} (e : Error) : IO A := λ w, (Throw e, w).

Definition bind {A B} (c : IO A) (k : A → IO B) : IO B :=
  λ w, match c w with
       | (Return a, w') => k a w'
       | (Throw e, w') => (Throw e, w')
       end.

(** [try { c } catch (error) { h }] *)
Definition try_catch {A} (c : IO A) (h : Error → IO A) : IO A :=
  λ w, match c w with
       | (Return a, w') => (Return a, w')
       | (Throw e, w') => h e w'
       end.

Notation "x <- c ;; k" := (bind c (λ x, k))
  (at level 100, c at next level, right associativity).
Notation "c ;;; k" := (bind c (λ _, k))
  (at level 100, right associativity).

(** ** File-system and clock primitives *)

(** The world after one more storage call has been answered. *)
Definition advance (w : World) : World := set_faults (tail (faults w)) w.

(** Does the [k]-th upcoming storage call fail? *)
Definition fails (k : nat) (w : World) : bool := nth k (faults w) false.

(** No upcoming storage call fails. *)
Definition calm (w : World) : bool := forallb negb (faults w).

Definition fs_fault : IO bool := λ w, (Return (fails 0 w), advance w).

(** [fs.readdir(TRACKS_DIR)]; the enumeration order is that of the map. *)
Definition readdir_tracks : IO (list string) :=
  bad <- fs_fault ;;
  if bad : bool then throw (EIO "") else λ w, (Return (map_to_list (tracksDir w)).*1, w).

(** [fs.readFile(path.join(TRACKS_DIR, name), 'utf-8')] *)
Definition readFile_track (name : string) : IO TrackFile :=
  bad <- fs_fault ;;
  if bad : bool then throw (EIO name) else
  λ w, match tracksDir w !! name with
       | Some c => (Return c, w)
       | None => (Throw (ENOENT name), w)
       end.

(** [fs.writeFile(path.join(TRACKS_DIR, name), data)] *)
Definition writeFile_track (name : string) (data : TrackFile) : IO unit :=
  bad <- fs_fault ;;
  if bad : bool then throw (EIO name) else
  λ w, (Return (), set_tracksDir (<[name := data]> (tracksDir w)) w).

(** [fs.unlink(path.join(TRACKS_DIR, name))] *)
Definition unlink_track (name : string) : IO unit :=
  bad <- fs_fault ;;
  if bad : bool then throw (EIO name) else
  λ w, match tracksDir w !! name with
       | Some _ => (Return (), set_tracksDir (delete name (tracksDir w)) w)
       | None => (Throw (ENOENT name), w)
       end.

(** [fs.writeFile(path.join(UPLOADS_DIR, name), buffer)] *)
Definition writeFile_upload (name : string) (buffer : list Byte.byte) : IO unit :=
  bad <- fs_fault ;;
  if bad : bool then throw (EIO name) else
  λ w, (Return (), set_uploadsDir (<[name := buffer]> (uploadsDir w)) w).

(** [fs.unlink(path.join(UPLOADS_DIR, name))], for a [name] that is the
    key as it stands: a name without path separator.  A name with one
    can lead [path.join] out of the uploads directory; statements on
    the removal of an asset say that its name is plain. *)
Definition unlink_upload (name : string) : IO unit :=
  bad <- fs_fault ;;
  if bad : bool then throw (EIO name) else
  λ w, match uploadsDir w !! name with
       | Some _ => (Return (), set_uploadsDir (delete name (uploadsDir w)) w)
       | None => (Throw (ENOENT name), w)
       end.

(** [fs.readFile(GENRES_FILE, 'utf-8')] *)
Definition readFile_genres : IO GenresFile :=
  bad <- fs_fault ;;
  if bad : bool then throw (EIO "genres.json") else
  λ w, match genresFile w with
       | Some c => (Return c, w)
       | None => (Throw (ENOENT "genres.json"), w)
       end.

(** [Date.now()] and [new Date()] *)
Definition Date_now : IO Z :=
  λ w, (Return (clock w),
        match lapse w with
        | [] => w
        | d :: l => set_clock (clock w + d) l w
        end).

(** [JSON.stringify(track, null, 2)] and [JSON.parse(content)] *)
Definition JSON_stringify (t : Track) : TrackFile := Doc t.

Definition JSON_parse (content : TrackFile) : IO Track :=
  match content with
  | Doc t => ret t
  | Corrupt _ => throw SyntaxError
  end.

Definition JSON_parse_genres (content : GenresFile) : IO (list string) :=
  match content with
  | GenreList l => ret l
  | CorruptGenres _ => throw SyntaxError
  end.

(** [`${id}.json`]: the name that the code hands to
    [path.join(TRACKS_DIR, ...)].  A directory is the map of its
    entries and the name is the key as it stands: this is the file the
    code reaches when the id has no path separator ([plainName] below).
    An id with a separator can lead [path.join] to the file of another
    id; statements that depend on where an id leads say that it is
    plain. *)
Definition trackFileName (id : string) : string := id +:+ ".json".

(** ** Array built-ins *)

(** [Array.prototype.slice(start, end)] on integral arguments: negative
    indices count from the end of the array. *)
Definition Array_slice {A} (l : list A) (start end_ : Z) : list A :=
  let len := Z.of_nat (length l) in
  let k := if start <? 0 then Z.max (len + start) 0 else Z.min start len in
  let final := if end_ <? 0 then Z.max (len + end_) 0 else Z.min end_ len in
  take (Z.to_nat (final - k)) (drop (Z.to_nat k) l).

(** [Array.prototype.sort(compare)], a stable sort.  [x] is placed
    before the first element it does not compare greater than.  The
    result is the one every stable sort gives whenever [compare] is a
    consistent comparator. *)
Fixpoint sort_insert {A} (compare : A → A → Z) (x : A) (l : list A) : list A :=
  match l with
  | [] => [x]
  | y :: l' => if compare x y <=? 0 then x :: y :: l' else y :: sort_insert compare x l'
  end.

Fixpoint Array_sort {A} (compare : A → A → Z) (l : list A) : list A :=
  match l with
  | [] => []
  | x :: l' => sort_insert compare x (Array_sort compare l')
  end.

(** ** One instance of the runtime: ASCII text, UTC timestamps *)

Module Ascii_rt.

Definition lower_char (c : ascii) : ascii :=
  let n := nat_of_ascii c in
  if ((65 <=? n) && (n <=? 90))%nat then ascii_of_nat (n + 32) else c.

Fixpoint lower (s : string) : string :=
  match s with
  | EmptyString => EmptyString
  | String c s' => String (lower_char c) (lower s')
  end.

(** Comparison by code units. *)
Definition compare (a b : string) : Z :=
  match String.compare a b with
  | Lt => -1
  | Eq => 0
  | Gt => 1
  end.

(** Days since 1970-01-01 of a proleptic Gregorian date, and back. *)
Definition days_from_civil (y m d : Z) : Z :=
  let y' := if m <=? 2 then y - 1 else y in
  let era := y' / 400 in
  let yoe := y' - era * 400 in
  let mp := (m + 9) mod 12 in
  let doy := (153 * mp + 2) / 5 + d - 1 in
  let doe := yoe * 365 + yoe / 4 - yoe / 100 + doy in
  era * 146097 + doe - 719468.

Definition civil_from_days (z : Z) : Z * Z * Z :=
  let z := z + 719468 in
  let era := z / 146097 in
  let doe := z - era * 146097 in
  let yoe := (doe - doe / 1460 + doe / 36524 - doe / 146096) / 365 in
  let doy := doe - (365 * yoe + yoe / 4 - yoe / 100) in
  let mp := (5 * doy + 2) / 153 in
  let d := doy - (153 * mp + 2) / 5 + 1 in
  let m := if mp <? 10 then mp + 3 else mp - 9 in
  (if m <=? 2 then yoe + era * 400 + 1 else yoe + era * 400, m, d).

Definition digit (n : Z) : ascii := ascii_of_nat (48 + Z.to_nat (n mod 10)).

Fixpoint digits (width : nat) (n : Z) (tail : string) : string :=
  match width with
  | O => tail
  | S k => digits k (n / 10) (String (digit n) tail)
  end.

(** [YYYY-MM-DDTHH:mm:ss.sssZ] *)
Definition iso (ms : Z) : string :=
  let '(y, m, d) := civil_from_days (ms / 86400000) in
  let r := ms mod 86400000 in
  let t := digits 3 (r mod 1000) "Z" in
  let t := digits 2 (r / 1000 mod 60) (String "." t) in
  let t := digits 2 (r / 60000 mod 60) (String ":" t) in
  let t := digits 2 (r / 3600000) (String ":" t) in
  let t := digits 2 d (String "T" t) in
  let t := digits 2 m (String "-" t) in
  digits 4 y (String "-" t).

Definition digit_value (c : ascii) : option Z :=
  let n := nat_of_ascii c in
  if ((48 <=? n) && (n <=? 57))%nat then Some (Z.of_nat n - 48) else None.

Fixpoint number (width : nat) (acc : Z) (s : string) : option (Z * string) :=
  match width, s with
  | O, _ => Some (acc, s)
  | S k, String c s' =>
      match digit_value c with
      | Some v => number k (acc * 10 + v) s'
      | None => None
      end
  | S _, EmptyString => None
  end.

Definition expect (c : ascii) (s : string) : option string :=
  match s with
  | String d s' => if Ascii.eqb c d then Some s' else None
  | EmptyString => None
  end.

(** Reads back the format written by [iso]; any other text is an
    invalid date. *)
Definition getTime (s : string) : option Z :=
  '(y, s) ← number 4 0 s; s ← expect "-" s;
  '(m, s) ← number 2 0 s; s ← expect "-" s;
  '(d, s) ← number 2 0 s; s ← expect "T" s;
  '(hh, s) ← number 2 0 s; s ← expect ":" s;
  '(mm, s) ← number 2 0 s; s ← expect ":" s;
  '(ss, s) ← number 2 0 s; s ← expect "." s;
  '(ms, s) ← number 3 0 s; s ← expect "Z" s;
  if String.eqb s "" then
    Some (days_from_civil y m d * 86400000 + hh * 3600000 + mm * 60000 + ss * 1000 + ms)
  else None.

(** The text from the last dot of the last path segment, if that dot
    does not start the segment. *)
Fixpoint extname_from (s : string) (atStart : bool) (ext : string) : string :=
  match s with
  | EmptyString => ext
  | String c s' =>
      if Ascii.eqb c "/" then extname_from s' true ""
      else if Ascii.eqb c "." then
        (if atStart then extname_from s' false "" else extname_from s' false s)
      else extname_from s' false ext
  end.

Definition extname (s : string) : string := extname_from s true "".

End Ascii_rt.

Definition asciiRuntime : JsRuntime :=
  {| toLowerCase := Ascii_rt.lower;
     localeCompare := Ascii_rt.compare;
     Date_getTime := Ascii_rt.getTime;
     toISOString := Ascii_rt.iso;
     path_extname := Ascii_rt.extname |}.

(** ** src/utils/db.ts *)

(** [getGenres]: the guarded block, then the function with its handler. *)
Definition getGenres_try : IO (list string) :=
  data <- readFile_genres ;;
  JSON_parse_genres data.

Definition getGenres : IO (list string) :=
  try_catch getGenres_try (λ _, ret []).

(** [getTrackById] *)
Definition getTrackById_try (id0 : string) : IO (option Track) :=
  content <- readFile_track (trackFileName id0) ;;
  t <- JSON_parse content ;;
  ret (Some t).

Definition getTrackById (id0 : string) : IO (option Track) :=
  try_catch (getTrackById_try id0) (λ _, ret None).

(** The scan of [getTrackBySlug]: the first [.json] file, in listing
    order, whose record carries the slug. *)
Fixpoint findBySlug (slug0 : string) (files : list string) : IO (option Track) :=
  match files with
  | [] => ret None
  | file :: rest =>
      if Str.endsWith file ".json" then
        content <- readFile_track file ;;
        track <- JSON_parse content ;;
        if String.eqb (slug track) slug0 then ret (Some track)
        else findBySlug slug0 rest
      else findBySlug slug0 rest
  end.

(** [getTrackBySlug] *)
Definition getTrackBySlug_try (slug0 : string) : IO (option Track) :=
  files <- readdir_tracks ;;
  findBySlug slug0 files.

Definition getTrackBySlug (slug0 : string) : IO (option Track) :=
  try_catch (getTrackBySlug_try slug0) (λ _, ret None).

(** The loading loop of [getTracks]: every [.json] file is read and
    parsed, in listing order. *)
Fixpoint readTrackFiles (files : list string) : IO (list Track) :=
  match files with
  | [] => ret []
  | file :: rest =>
      if Str.endsWith file ".json" then
        content <- readFile_track file ;;
        track <- JSON_parse content ;;
        more <- readTrackFiles rest ;;
        ret (track :: more)
      else readTrackFiles rest
  end.

(** The first phase of [getTracks]: list the directory, load the records. *)
Definition loadTracks : IO (list Track) :=
  files <- readdir_tracks ;;
  readTrackFiles files.

Section Db.

Variable rt : JsRuntime.

(** *** Filtering *)

Definition matchesSearch (searchLower : string) (track : Track) : bool :=
  Str.includes (toLowerCase rt (title track)) searchLower
  || Str.includes (toLowerCase rt (artist track)) searchLower
  || match album track with
     | Some a => negb (String.eqb a "") && Str.includes (toLowerCase rt a) searchLower
     | None => false
     end.

(** [track.genres.includes(genre)] *)
Definition hasGenre (g : string) (track : Track) : bool :=
  existsb (String.eqb g) (genres track).

Definition matchesArtist (artistLower : string) (track : Track) : bool :=
  Str.includes (toLowerCase rt (artist track)) artistLower.

Definition filterBySearch (params : QueryParams) (ts : list Track) : list Track :=
  match search params with
  | Some s =>
      if Str.truthy (Some s) then List.filter (matchesSearch (toLowerCase rt s)) ts else ts
  | None => ts
  end.

Definition filterByGenre (params : QueryParams) (ts : list Track) : list Track :=
  match genre params with
  | Some g => if Str.truthy (Some g) then List.filter (hasGenre g) ts else ts
  | None => ts
  end.

Definition filterByArtist (params : QueryParams) (ts : list Track) : list Track :=
  match q_artist params with
  | Some a =>
      if Str.truthy (Some a) then List.filter (matchesArtist (toLowerCase rt a)) ts else ts
  | None => ts
  end.

Definition applyFilters (params : QueryParams) (ts : list Track) : list Track :=
  filterByArtist params (filterByGenre params (filterBySearch params ts)).

(** *** Sorting *)

(** [a[sortField] || ''] *)
Definition sortValue (sortField : SortField) (a : Track) : string :=
  match sortField with
  | ByTitle => title a
  | ByArtist => artist a
  | ByAlbum => Str.orEmpty (album a)
  | ByCreatedAt => createdAt a
  end.

(** The comparator under [if (params.sort)].  Both values are strings
    for every [Track], so the [return 0] fallback is never taken. *)
Definition compareByField (sortField : SortField) (sortOrder : SortOrder) (a b : Track) : Z :=
  let valueA := sortValue sortField a in
  let valueB := sortValue sortField b in
  match sortOrder with
  | Asc => localeCompare rt valueA valueB
  | Desc => localeCompare rt valueB valueA
  end.

(** [new Date(b.createdAt).getTime() - new Date(a.createdAt).getTime()];
    a NaN result counts as [+0] for [sort]. *)
Definition compareCreatedAt (a b : Track) : Z :=
  match Date_getTime rt (createdAt b), Date_getTime rt (createdAt a) with
  | Some tb, Some ta => tb - ta
  | _, _ => 0
  end.

Definition applySort (params : QueryParams) (ts : list Track) : list Track :=
  match sort params with
  | Some sortField =>
      let sortOrder := default Asc (order params) in
      Array_sort (compareByField sortField sortOrder) ts
  | None => Array_sort compareCreatedAt ts
  end.

(** *** Pagination *)

(** [n || d] on integral numbers: [undefined] and [0] are falsy. *)
Definition numberOr (n : option Z) (d : Z) : Z :=
  match n with
  | Some 0 => d
  | Some v => v
  | None => d
  end.

Definition paginate (params : QueryParams) (ts : list Track) : GetTracksResult :=
  let total := length ts in
  let page := numberOr (page params) 1 in
  let limit := numberOr (limit params) 10 in
  let start := (page - 1) * limit in
  let end_ := start + limit in
  {| tracks := Array_slice ts start end_; total := total |}.

(** [getTracks] *)
Definition getTracks_try (params : QueryParams) : IO GetTracksResult :=
  loaded <- loadTracks ;;
  ret (paginate params (applySort params (applyFilters params loaded))).

Definition getTracks (params : QueryParams) : IO GetTracksResult :=
  try_catch (getTracks_try params) (λ _, ret {| tracks := []; total := 0 |}).

(** *** Writes *)

(** [createTrack] *)
Definition createTrack (track : TrackDraft) : IO Track :=
  ms <- Date_now ;;
  let id0 := pretty ms in
  ms' <- Date_now ;;
  let now := toISOString rt ms' in
  let newTrack :=
    {| id := id0; title := d_title track; artist := d_artist track;
       album := d_album track; genres := d_genres track; slug := d_slug track;
       coverImage := d_coverImage track; audioFile := d_audioFile track;
       createdAt := now; updatedAt := now |} in
  writeFile_track (trackFileName id0) (JSON_stringify newTrack) ;;;
  ret newTrack.

(** [{ ...track, ...updates, updatedAt: now }] *)
Definition mergeUpdates (track : Track) (updates : TrackUpdates) (now : string) : Track :=
  {| id := default (id track) (u_id updates);
     title := default (title track) (u_title updates);
     artist := default (artist track) (u_artist updates);
     album := default (album track) (u_album updates);
     genres := default (genres track) (u_genres updates);
     slug := default (slug track) (u_slug updates);
     coverImage := default (coverImage track) (u_coverImage updates);
     audioFile := default (audioFile track) (u_audioFile updates);
     createdAt := default (createdAt track) (u_createdAt updates);
     updatedAt := now |}.

(** [updateTrack] *)
Definition updateTrack (id0 : string) (updates : TrackUpdates) : IO (option Track) :=
  try_catch
    (found <- getTrackById id0 ;;
     match found with
     | None => ret None
     | Some track =>
         ms <- Date_now ;;
         let updatedTrack := mergeUpdates track updates (toISOString rt ms) in
         writeFile_track (trackFileName id0) (JSON_stringify updatedTrack) ;;;
         ret (Some updatedTrack)
     end)
    (λ _, ret None).

(** [saveAudioFile] *)
Definition saveAudioFile (id0 fileName : string) (buffer : list Byte.byte) : IO string :=
  let fileExt := path_extname rt fileName in
  let safeFileName := id0 +:+ fileExt in
  writeFile_upload safeFileName buffer ;;;
  ret safeFileName.

(** [deleteAudioFile] *)
Definition deleteAudioFile (id0 : string) : IO bool :=
  try_catch
    (found <- getTrackById id0 ;;
     match found with
     | None => ret false
     | Some track =>
         if Str.truthy (audioFile track) then
           unlink_upload (Str.orEmpty (audioFile track)) ;;;
           updateTrack id0
             {| u_id := None; u_title := None; u_artist := None; u_album := None;
                u_genres := None; u_slug := None; u_coverImage := None;
                u_audioFile := Some None; u_createdAt := None; u_updatedAt := None |} ;;;
           ret true
         else ret false
     end)
    (λ _, ret false).

End Db.

(** [deleteTrack] *)
Definition deleteTrack (id0 : string) : IO bool :=
  try_catch
    (found <- getTrackById id0 ;;
     match found with
     | None => ret false
     | Some track =>
         unlink_track (trackFileName id0) ;;;
         (if Str.truthy (audioFile track) then
            try_catch (unlink_upload (Str.orEmpty (audioFile track))) (λ _, ret ())
          else ret ()) ;;;
         ret true
     end)
    (λ _, ret false).

(** The loop of [deleteMultipleTracks] over the remaining ids. *)
Fixpoint deleteEach (ids : list string) (results : BatchDeleteResponse)
  : IO BatchDeleteResponse :=
  match ids with
  | [] => ret results
  | id0 :: rest =>
      ok <- deleteTrack id0 ;;
      if ok : bool then
        deleteEach rest {| success := success results ++ [id0]; failed := failed results |}
      else
        deleteEach rest {| success := success results; failed := failed results ++ [id0] |}
  end.

(** [deleteMultipleTracks] *)
Definition deleteMultipleTracks (ids : list string) : IO BatchDeleteResponse :=
  deleteEach ids {| success := []; failed := [] |}.

(** ** Vocabulary of the specification *)

(** Every [.json] file of the tracks directory holds a record. *)
Definition is_doc (c : TrackFile) : bool :=
  match c with
  | Doc _ => true
  | Corrupt _ => false
  end.

Definition readable (w : World) : bool :=
  forallb (λ p : string * TrackFile, negb (Str.endsWith p.1 ".json") || is_doc p.2)
          (map_to_list (tracksDir w)).

(** A store whose records can all be read back. *)
Definition healthy (w : World) : Prop := calm w = true ∧ readable w = true.

(** [t] is one of the stored records. *)
Definition stored (w : World) (t : Track) : Prop :=
  ∃ file, Str.endsWith file ".json" = true ∧ tracksDir w !! file = Some (Doc t).

(** The elements of [l] whose index lies in the interval [lo, hi);
    [i] is the index of the head of [l]. *)
Fixpoint index_window {A} (l : list A) (i lo hi : Z) : list A :=
  match l with
  | [] => []
  | x :: l' =>
      if (lo <=? i) && (i <? hi) then x :: index_window l' (i + 1) lo hi
      else index_window l' (i + 1) lo hi
  end.

(** What a record file yields when read and parsed. *)
Definition parsed (o : option TrackFile) : option Track :=
  match o with
  | Some (Doc t) => Some t
  | _ => None
  end.

(** What the scan makes of one directory entry of a readable store. *)
Definition entry_record (m : gmap string TrackFile) (file : string) : option Track :=
  if Str.endsWith file ".json" then parsed (m !! file) else None.

(** Is a readable record stored under the id? *)
Definition holds (id0 : string) (m : gmap string TrackFile) : bool :=
  match parsed (m !! trackFileName id0) with
  | Some _ => true
  | None => false
  end.

(** A filter value that the query code does not take for absent. *)
Definition nonempty (s : string) : Prop := s ≠ "".

(** How often [x] occurs in [l]. *)
Definition occurrences (x : string) (l : list string) : nat :=
  length (filter (λ y, y = x) l).

(** The world after one reading of the clock. *)
Definition tick (w : World) : World := (Date_now w).2.

Definition with_page (p : option Z) (q : QueryParams) : QueryParams :=
  {| page := p; limit := limit q; sort := sort q; order := order q;
     search := search q; genre := genre q; q_artist := q_artist q |}.

Definition with_limit (l : option Z) (q : QueryParams) : QueryParams :=
  {| page := page q; limit := l; sort := sort q; order := order q;
     search := search q; genre := genre q; q_artist := q_artist q |}.

Section Vocabulary.

Variable rt : JsRuntime.

(** Case-insensitive substring match: [term] occurs in [field] once
    both are lower-cased. *)
Definition ci_contains (term field : string) : Prop :=
  ∃ pre post, toLowerCase rt field = pre +:+ toLowerCase rt term +:+ post.

(** The three filters as the specification words them.  [given]
    decides which values of a parameter count as a supplied filter. *)
Definition satisfies (given : string → Prop) (q : QueryParams) (t : Track) : Prop :=
  (∀ s, search q = Some s → given s →
     ci_contains s (title t) ∨ ci_contains s (artist t) ∨
     ∃ a, album t = Some a ∧ ci_contains s a) ∧
  (∀ g, genre q = Some g → given g → g ∈ genres t) ∧
  (∀ a, q_artist q = Some a → given a → ci_contains a (artist t)).

(** [t] is returned on some page of the query. *)
Definition appears (q : QueryParams) (w : World) (t : Track) : Prop :=
  ∃ p r w', 1 ≤ p ∧ getTracks rt (with_page (Some p) q) w = (Return r, w') ∧ t ∈ tracks r.

(** What the toolkit assumes of [toLowerCase]: it maps the empty
    string, and only the empty string, to the empty string. *)
Definition lowercase_lawful : Prop :=
  ∀ s, toLowerCase rt s = "" ↔ s = "".

(** Descending by creation time. *)
Definition newest_first (ts : list Track) : Prop :=
  ∀ i j a b, (i < j)%nat → ts !! i = Some a → ts !! j = Some b →
    ∃ ta tb, Date_getTime rt (createdAt a) = Some ta ∧
             Date_getTime rt (createdAt b) = Some tb ∧ tb ≤ ta.

Definition dated (t : Track) : Prop := is_Some (Date_getTime rt (createdAt t)).

(** The invariant on ids, read for every update argument: a record
    made by [createTrack] and then passed through [updateTrack] is
    still stored, under its file name, with the id it was given. *)
Definition id_kept (u : TrackUpdates) (d : TrackDraft) (w : World) : Prop :=
  ∀ t w1 r w2,
    createTrack rt d w = (Return t, w1) →
    updateTrack rt (id t) u w1 = (r, w2) →
    ∃ t', tracksDir w2 !! trackFileName (id t) = Some (Doc t') ∧ id t' = id t.

(** The record [createTrack] builds from a draft in world [w]. *)
Definition drafted (d : TrackDraft) (w : World) : Track :=
  {| id := pretty (clock w); title := d_title d; artist := d_artist d;
     album := d_album d; genres := d_genres d; slug := d_slug d;
     coverImage := d_coverImage d; audioFile := d_audioFile d;
     createdAt := toISOString rt (clock (tick w));
     updatedAt := toISOString rt (clock (tick w)) |}.

(** The pagination sentence: the total is the filtered count and the
    page holds the records whose position in the filtered, sorted
    sequence lies in [(page-1)*limit, (page-1)*limit + limit). *)
Definition pages_as_stated (q : QueryParams) (w : World) : Prop :=
  ∀ loaded w1, loadTracks w = (Return loaded, w1) →
    let filtered := applyFilters rt q loaded in
    let sorted := applySort rt q filtered in
    let start := (numberOr (page q) 1 - 1) * numberOr (limit q) 10 in
    ∃ r, getTracks rt q w = (Return r, w1) ∧
         total r = length filtered ∧
         tracks r = index_window sorted 0 start (start + numberOr (limit q) 10).

(** The filter sentence: the records returned over all pages are the
    stored records that satisfy every supplied filter. *)
Definition filter_rule (given : string → Prop) (q : QueryParams) (w : World) : Prop :=
  ∀ t, appears q w t ↔ stored w t ∧ satisfies given q t.

(** [x] sorts strictly before [y]. *)
Definition collates (x y : string) : Prop :=
  localeCompare rt x y < 0 ∧ 0 < localeCompare rt y x.

(** The creation time used by the default order, if it is a date. *)
Definition created_ms (t : Track) : Z := default 0 (Date_getTime rt (createdAt t)).

End Vocabulary.

Definition by_title (o : option SortOrder) : QueryParams :=
  {| page := None; limit := None; sort := Some ByTitle; order := o;
     search := None; genre := None; q_artist := None |}.

(** ** A small store, for evaluating the model *)

Module Sample.

Definition track (i t : string) (ms : Z) (audio : option string) : Track :=
  {| id := i; title := t; artist := "Nina"; album := None; genres := ["Rock"];
     slug := t; coverImage := None; audioFile := audio;
     createdAt := Ascii_rt.iso ms; updatedAt := Ascii_rt.iso ms |}.

Definition draft : TrackDraft :=
  {| d_title := "Yellow"; d_artist := "Coldplay"; d_album := Some "Parachutes";
     d_genres := ["Rock"; "Pop"]; d_slug := "yellow"; d_coverImage := None;
     d_audioFile := None |}.

Definition t1 : Track := track "1" "b" 1000 (Some "1.mp3").
Definition t2 : Track := track "2" "a" 2000 None.
Definition t3 : Track := track "3" "c" 3000 None.

Definition records : gmap string TrackFile :=
  <["1.json" := Doc t1]> (<["2.json" := Doc t2]> (<["3.json" := Doc t3]> ∅)).

Definition assets : gmap string (list Byte.byte) :=
  <["1.mp3" := [Byte.x49; Byte.x44; Byte.x33]]> ∅.

(** The store above, with the given outcomes of the next storage calls. *)
Definition world (fs : list bool) : World :=
  {| tracksDir := records; uploadsDir := assets;
     genresFile := Some (GenreList ["Rock"; "Pop"; "Jazz"]);
     clock := 1700000000000; lapse := [1; 2]; faults := fs |}.

(** The world after a scan of the three records. *)
Definition scanned : World := advance (advance (advance (advance (world [])))).

(** The same store with an unreadable record next to the others. *)
Definition damaged (fs : list bool) : World :=
  set_tracksDir (<["4.json" := Corrupt "{"]> records) (world fs).

Definition rename (i : string) : TrackUpdates :=
  {| u_id := Some i; u_title := None; u_artist := None; u_album := None;
     u_genres := None; u_slug := None; u_coverImage := None;
     u_audioFile := None; u_createdAt := None; u_updatedAt := None |}.

Definition retitle (t : string) : TrackUpdates :=
  {| u_id := None; u_title := Some t; u_artist := None; u_album := None;
     u_genres := None; u_slug := None; u_coverImage := None;
     u_audioFile := None; u_createdAt := None; u_updatedAt := None |}.

End Sample.

(** ** The rest of src/utils/db.ts: initialisation *)

Definition set_genresFile (g : option GenresFile) (w : World) : World :=
  {| tracksDir := tracksDir w; uploadsDir := uploadsDir w; genresFile := g;
     clock := clock w; lapse := lapse w; faults := faults w |}.

(** [fs.mkdir(dir, { recursive: true })].  The two directories of the
    model are always there, so the call changes nothing; it can fail. *)
Definition fs_mkdir (dir : string) : IO unit :=
  bad <- fs_fault ;;
  if bad : bool then throw (EIO dir) else ret ().

(** [fs.access(GENRES_FILE)] *)
Definition access_genres : IO unit :=
  bad <- fs_fault ;;
  if bad : bool then throw (EIO "genres.json") else
  λ w, match genresFile w with
       | Some _ => (Return (), w)
       | None => (Throw (ENOENT "genres.json"), w)
       end.

(** [fs.writeFile(GENRES_FILE, JSON.stringify(genres, null, 2))] *)
Definition writeFile_genres (names : list string) : IO unit :=
  bad <- fs_fault ;;
  if bad : bool then throw (EIO "genres.json") else
  λ w, (Return (), set_genresFile (Some (GenreList names)) w).

Definition defaultGenres : list string :=
  ["Rock"; "Pop"; "Hip Hop"; "Jazz"; "Classical"; "Electronic";
   "R&B"; "Country"; "Folk"; "Reggae"; "Metal"; "Blues"; "Indie"].

(** [initializeDb] *)
Definition initializeDb : IO unit :=
  try_catch
    (fs_mkdir "tracks" ;;;
     fs_mkdir "uploads" ;;;
     try_catch access_genres (λ _, writeFile_genres defaultGenres))
    (λ error, throw error).

(** ** src/utils/slug.ts

    Code units are read as the characters U+0000 to U+00FF. *)

Module Slug.

Definition between (lo hi : nat) (c : ascii) : bool :=
  ((lo <=? nat_of_ascii c) && (nat_of_ascii c <=? hi))%nat.

Definition isDigit (c : ascii) : bool := between 48 57 c.
Definition isLetter (c : ascii) : bool := between 65 90 c || between 97 122 c.
Definition isUnderscore (c : ascii) : bool := Ascii.eqb c "_".
Definition isHyphen (c : ascii) : bool := Ascii.eqb c "-".

(** [\w] *)
Definition isWord (c : ascii) : bool := isLetter c || isDigit c || isUnderscore c.

(** [\s], and the characters [trim] removes: tab to carriage return,
    space, no-break space. *)
Definition isSpace (c : ascii) : bool :=
  between 9 13 c || between 32 32 c || between 160 160 c.

(** [[\s_-]] *)
Definition isSeparator (c : ascii) : bool := isSpace c || isUnderscore c || isHyphen c.

Fixpoint trimStart (s : string) : string :=
  match s with
  | EmptyString => EmptyString
  | String c s' => if isSpace c then trimStart s' else s
  end.

Fixpoint trimEnd (s : string) : string :=
  match s with
  | EmptyString => EmptyString
  | String c s' =>
      match trimEnd s' with
      | EmptyString => if isSpace c then EmptyString else String c EmptyString
      | r => String c r
      end
  end.

(** [s.trim()] *)
Definition trim (s : string) : string := trimEnd (trimStart s).

(** [s.replace(/[^\w\s-]/g, '')] *)
Fixpoint removeNonWord (s : string) : string :=
  match s with
  | EmptyString => EmptyString
  | String c s' =>
      if isWord c || isSpace c || isHyphen c then String c (removeNonWord s')
      else removeNonWord s'
  end.

(** [s.replace(/[\s_-]+/g, '-')]: every maximal run of separators
    becomes one hyphen.  [inRun] tells that the previous character was a
    separator. *)
Fixpoint hyphenate (inRun : bool) (s : string) : string :=
  match s with
  | EmptyString => EmptyString
  | String c s' =>
      if isSeparator c then
        (if inRun then hyphenate true s' else String "-" (hyphenate true s'))
      else String c (hyphenate false s')
  end.

Fixpoint dropStartHyphens (s : string) : string :=
  match s with
  | EmptyString => EmptyString
  | String c s' => if isHyphen c then dropStartHyphens s' else s
  end.

Fixpoint dropEndHyphens (s : string) : string :=
  match s with
  | EmptyString => EmptyString
  | String c s' =>
      match dropEndHyphens s' with
      | EmptyString => if isHyphen c then EmptyString else String c EmptyString
      | r => String c r
      end
  end.

(** [s.replace(/^-+|-+$/g, '')] *)
Definition stripHyphens (s : string) : string := dropEndHyphens (dropStartHyphens s).

End Slug.

(** [createSlug] *)
Definition createSlug (rt : JsRuntime) (text : string) : string :=
  Slug.stripHyphens (Slug.hyphenate false (Slug.removeNonWord (Slug.trim (toLowerCase rt text)))).

(** ** src/controllers

    A handler receives the validated parts of the request and returns
    the reply it sends: [reply.code(n).send(body)].  Logging is left out. *)

Record PaginatedResponse := {
  data : list Track;
  meta_total : nat;
  meta_page : Z;
  meta_limit : Z;
  meta_totalPages : Z
}.

Inductive Body :=
| SendPage (r : PaginatedResponse)
| SendTrack (t : option Track)
| SendGenres (names : list string)
| SendBatch (r : BatchDeleteResponse)
| SendError (error : string)
| SendNothing.

Record Reply := {
  statusCode : Z;
  body : Body
}.

(** [CreateTrackDto] *)
Record CreateTrackDto := {
  c_title : string;
  c_artist : string;
  c_album : option string;
  c_genres : list string;
  c_coverImage : option string
}.

(** The part of a multipart upload the handler looks at. *)
Record UploadedFile := {
  mimetype : string;
  filename : string;
  content : list Byte.byte
}.

(** [Math.ceil(total / limit)] on integers, [limit] not 0. *)
Definition Math_ceil_div (total limit : Z) : Z := - ((- total) / limit).

Definition internalError : Reply :=
  {| statusCode := 500; body := SendError "Internal Server Error" |}.

Definition allowedMimeTypes : list string :=
  ["audio/mpeg"; "audio/wav"; "audio/mp3"; "audio/x-wav"].

Definition maxSize : Z := 10 * 1024 * 1024.

Section Controllers.

Variable rt : JsRuntime.

(** [getAllGenres] *)
Definition getAllGenres : IO Reply :=
  try_catch
    (names <- getGenres ;;
     ret {| statusCode := 200; body := SendGenres names |})
    (λ _, ret internalError).

(** [getAllTracks] *)
Definition getAllTracks (query : QueryParams) : IO Reply :=
  try_catch
    (r <- getTracks rt query ;;
     let page := numberOr (page query) 1 in
     let limit := numberOr (limit query) 10 in
     ret {| statusCode := 200;
            body := SendPage {| data := tracks r;
                                meta_total := total r;
                                meta_page := page;
                                meta_limit := limit;
                                meta_totalPages := Math_ceil_div (Z.of_nat (total r)) limit |} |})
    (λ _, ret internalError).

(** [getTrack] *)
Definition getTrack (slug0 : string) : IO Reply :=
  try_catch
    (found <- getTrackBySlug slug0 ;;
     match found with
     | None => ret {| statusCode := 404; body := SendError "Track not found" |}
     | Some track => ret {| statusCode := 200; body := SendTrack (Some track) |}
     end)
    (λ _, ret internalError).

(** [addTrack].  [genres] is an array once the request has passed the
    schema, so the second check never answers. *)
Definition addTrack (dto : CreateTrackDto) : IO Reply :=
  try_catch
    (let title := c_title dto in
     let artist := c_artist dto in
     let album := default "" (c_album dto) in
     let coverImage := default "" (c_coverImage dto) in
     if negb (Str.truthy (Some title)) || negb (Str.truthy (Some artist)) then
       ret {| statusCode := 400; body := SendError "Title and artist are required" |}
     else
       let slug0 := createSlug rt title in
       existingTrack <- getTrackBySlug slug0 ;;
       match existingTrack with
       | Some _ =>
           ret {| statusCode := 409;
                  body := SendError "A track with this title already exists" |}
       | None =>
           newTrack <- createTrack rt
             {| d_title := title; d_artist := artist; d_album := Some album;
                d_genres := c_genres dto; d_slug := slug0;
                d_coverImage := Some coverImage; d_audioFile := None |} ;;
           ret {| statusCode := 201; body := SendTrack (Some newTrack) |}
       end)
    (λ _, ret internalError).

(** [updates.slug = newSlug] *)
Definition withSlug (updates : TrackUpdates) (newSlug : string) : TrackUpdates :=
  {| u_id := u_id updates; u_title := u_title updates; u_artist := u_artist updates;
     u_album := u_album updates; u_genres := u_genres updates; u_slug := Some newSlug;
     u_coverImage := u_coverImage updates; u_audioFile := u_audioFile updates;
     u_createdAt := u_createdAt updates; u_updatedAt := u_updatedAt updates |}.

(** [updateTrackById].  [requestBody] holds the properties of the request
    body that a record has: the schema of the route types the five it
    declares and lets every other property through, and the handler
    spreads the whole body into the updates. *)
Definition updateTrackById (id0 : string) (requestBody : TrackUpdates) : IO Reply :=
  try_catch
    (let title' := u_title requestBody in
     existing <- getTrackById id0 ;;
     match existing with
     | None => ret {| statusCode := 404; body := SendError "Track not found" |}
     | Some existingTrack =>
         let finish (updates : TrackUpdates) : IO Reply :=
           updatedTrack <- updateTrack rt id0 updates ;;
           ret {| statusCode := 200; body := SendTrack updatedTrack |} in
         if Str.truthy title' && negb (String.eqb (Str.orEmpty title') (title existingTrack))
         then
           let newSlug := createSlug rt (Str.orEmpty title') in
           trackWithSameSlug <- getTrackBySlug newSlug ;;
           match trackWithSameSlug with
           | Some other =>
               if negb (String.eqb (id other) id0) then
                 ret {| statusCode := 409;
                        body := SendError "A track with this title already exists" |}
               else finish (withSlug requestBody newSlug)
           | None => finish (withSlug requestBody newSlug)
           end
         else finish requestBody
     end)
    (λ _, ret internalError).

(** [removeTrack] *)
Definition removeTrack (id0 : string) : IO Reply :=
  try_catch
    (ok <- deleteTrack id0 ;;
     if ok : bool then ret {| statusCode := 204; body := SendNothing |}
     else ret {| statusCode := 404; body := SendError "Track not found" |})
    (λ _, ret internalError).

(** [removeTracks] *)
Definition removeTracks (ids : list string) : IO Reply :=
  try_catch
    (match ids with
     | [] => ret {| statusCode := 400; body := SendError "Track IDs are required" |}
     | _ =>
         results <- deleteMultipleTracks ids ;;
         ret {| statusCode := 200; body := SendBatch results |}
     end)
    (λ _, ret internalError).

(** [uploadTrackFile]; [file] is the result of [request.file()]. *)
Definition uploadTrackFile (id0 : string) (file : option UploadedFile) : IO Reply :=
  try_catch
    (existing <- getTrackById id0 ;;
     match existing, file with
     | None, _ => ret {| statusCode := 404; body := SendError "Track not found" |}
     | Some _, None => ret {| statusCode := 400; body := SendError "No file uploaded" |}
     | Some _, Some upload =>
         if negb (existsb (String.eqb (mimetype upload)) allowedMimeTypes) then
           ret {| statusCode := 400;
                  body := SendError "Invalid file type. Only MP3 and WAV files are allowed." |}
         else if maxSize <? Z.of_nat (length (content upload)) then
           ret {| statusCode := 400;
                  body := SendError "File is too large. Maximum size is 10MB." |}
         else
           fileName <- saveAudioFile rt id0 (filename upload) (content upload) ;;
           updatedTrack <- updateTrack rt id0
             {| u_id := None; u_title := None; u_artist := None; u_album := None;
                u_genres := None; u_slug := None; u_coverImage := None;
                u_audioFile := Some (Some fileName); u_createdAt := None;
                u_updatedAt := None |} ;;
           ret {| statusCode := 200; body := SendTrack updatedTrack |}
     end)
    (λ _, ret internalError).

(** [deleteTrackFile] *)
Definition deleteTrackFile (id0 : string) : IO Reply :=
  try_catch
    (existing <- getTrackById id0 ;;
     match existing with
     | None => ret {| statusCode := 404; body := SendError "Track not found" |}
     | Some existingTrack =>
         if negb (Str.truthy (audioFile existingTrack)) then
           ret {| statusCode := 404; body := SendError "Track has no audio file" |}
         else
           ok <- deleteAudioFile rt id0 ;;
           if ok : bool then
             updatedTrack <- getTrackById id0 ;;
             ret {| statusCode := 200; body := SendTrack updatedTrack |}
           else ret {| statusCode := 500; body := SendError "Failed to delete audio file" |}
     end)
    (λ _, ret internalError).

End Controllers.

(** ** Vocabulary of the further properties *)

(** [{ audioFile: undefined }] *)
Definition clearAudioFile : TrackUpdates :=
  {| u_id := None; u_title := None; u_artist := None; u_album := None;
     u_genres := None; u_slug := None; u_coverImage := None;
     u_audioFile := Some None; u_createdAt := None; u_updatedAt := None |}.

(** [{ audioFile: fileName }] *)
Definition setAudioFile (fileName : string) : TrackUpdates :=
  {| u_id := None; u_title := None; u_artist := None; u_album := None;
     u_genres := None; u_slug := None; u_coverImage := None;
     u_audioFile := Some (Some fileName); u_createdAt := None; u_updatedAt := None |}.

(** The record [t] with another asset reference and modification time. *)
Definition with_audio (audio : option string) (now : string) (t : Track) : Track :=
  {| id := id t; title := title t; artist := artist t; album := album t;
     genres := genres t; slug := slug t; coverImage := coverImage t;
     audioFile := audio; createdAt := createdAt t; updatedAt := now |}.

(** Everything of the storage area but the tracks directory. *)
Definition same_assets (w w' : World) : Prop :=
  uploadsDir w' = uploadsDir w ∧ genresFile w' = genresFile w.

(** The whole storage area. *)
Definition same_storage (w w' : World) : Prop :=
  tracksDir w' = tracksDir w ∧ uploadsDir w' = uploadsDir w ∧ genresFile w' = genresFile w.

(** What one successful or unsuccessful [deleteTrack] leaves of the
    tracks directory when no storage call fails. *)
Definition dropRecord (m : gmap string TrackFile) (id0 : string) : gmap string TrackFile :=
  if holds id0 m then delete (trackFileName id0) m else m.

(** The records a reply carries as its page. *)
Definition replyData (o : Outcome Reply) : list Track :=
  match o with
  | Return {| body := SendPage r |} => data r
  | _ => []
  end.

(** Every record lies in the file named after its id. *)
Definition keyed (w : World) : Prop :=
  ∀ file t, Str.endsWith file ".json" = true → tracksDir w !! file = Some (Doc t) →
    file = trackFileName (id t).

(** No two records have the same slug. *)
Definition unique_slugs (w : World) : Prop :=
  ∀ f g t u, Str.endsWith f ".json" = true → Str.endsWith g ".json" = true →
    tracksDir w !! f = Some (Doc t) → tracksDir w !! g = Some (Doc u) →
    slug t = slug u → f = g.

(** The store as the handlers keep it. *)
Definition consistent (w : World) : Prop := healthy w ∧ keyed w ∧ unique_slugs w.

(** An upload that passes the checks of type and size. *)
Definition accepted (upload : UploadedFile) : bool :=
  existsb (String.eqb (mimetype upload)) allowedMimeTypes &&
  (Z.of_nat (length (content upload)) <=? maxSize).

(** The name under which [saveAudioFile] stores an upload. *)
Definition assetName (rt : JsRuntime) (id0 : string) (upload : UploadedFile) : string :=
  id0 +:+ path_extname rt (filename upload).

(** A name without path separator: [path.join(dir, name)] is then the
    entry [name] of [dir] (POSIX paths). *)
Definition plainName (name : string) : bool := negb (Str.includes name "/").

(** No stored record names its asset through a path. *)
Definition plainAssets (w : World) : Prop :=
  ∀ file t f, tracksDir w !! file = Some (Doc t) → audioFile t = Some f →
    plainName f = true.

(** The sentence on repeated ids: an id that names a stored record and
    occurs twice in the input is once among the succeeded and once
    among the failed. *)
Definition repeated_once_each (ids : list string) (w : World) : Prop :=
  ∀ id0 t, tracksDir w !! trackFileName id0 = Some (Doc t) →
    occurrences id0 ids = 2%nat →
    ∃ r w', deleteMultipleTracks ids w = (Return r, w') ∧
            occurrences id0 (success r) = 1%nat ∧
            occurrences id0 (failed r) = 1%nat.

(** Shapes of strings, for the slugs. *)

(** Every character of [s] passes [p]. *)
Fixpoint every (p : ascii → bool) (s : string) : bool :=
  match s with
  | EmptyString => true
  | String c s' => p c && every p s'
  end.

Definition isAlnum (c : ascii) : bool := Slug.isLetter c || Slug.isDigit c.

(** Letters, digits and hyphens, no two hyphens in a row, and no hyphen
    first when [afterHyphen] is set. *)
Fixpoint tidy (afterHyphen : bool) (s : string) : bool :=
  match s with
  | EmptyString => true
  | String c s' =>
      if Slug.isHyphen c then negb afterHyphen && tidy true s'
      else isAlnum c && tidy false s'
  end.

(** The same, and the string does not end after a hyphen. *)
Fixpoint slugShape (afterHyphen : bool) (s : string) : bool :=
  match s with
  | EmptyString => negb afterHyphen
  | String c s' =>
      if Slug.isHyphen c then negb afterHyphen && slugShape true s'
      else isAlnum c && slugShape false s'
  end.

(** Empty, or letters and digits in groups joined by single hyphens. *)
Definition wellFormedSlug (s : string) : bool :=
  match s with
  | EmptyString => true
  | _ => slugShape true s
  end.

(** Requests to the sample store. *)
Module SampleRequest.

Definition yellow : CreateTrackDto :=
  {| c_title := "Yellow Submarine"; c_artist := "The Beatles"; c_album := None;
     c_genres := ["Rock"]; c_coverImage := None |}.

Definition wav : UploadedFile :=
  {| mimetype := "audio/wav"; filename := "take one.wav";
     content := [Byte.x52; Byte.x49; Byte.x46; Byte.x46] |}.

(** All three filters at once, in other letter case than the records. *)
Definition filtered : QueryParams :=
  {| page := None; limit := None; sort := Some ByTitle; order := Some Asc;
     search := Some "B"; genre := Some "Rock"; q_artist := Some "NIN" |}.

End SampleRequest.

(** * Properties *)

(** ** The sample store *)

Lemma sample_lookup (file : string) t :
  Sample.records !! file = Some (Doc t) →
  (file = "1.json" ∧ t = Sample.t1) ∨ (file = "2.json" ∧ t = Sample.t2) ∨
  (file = "3.json" ∧ t = Sample.t3).
Proof.
  unfold Sample.records. intros H.
  apply lookup_insert_Some in H as [[<- [= <-]] | [_ H]]; [tauto|].
  apply lookup_insert_Some in H as [[<- [= <-]] | [_ H]]; [tauto|].
  apply lookup_insert_Some in H as [[<- [= <-]] | [_ H]]; [tauto|].
  by rewrite lookup_empty in H.
Qed.

Lemma sample_scan :
  loadTracks (Sample.world []) = (Return [Sample.t3; Sample.t1; Sample.t2], Sample.scanned).
Proof. by vm_compute. Qed.

Lemma sample_healthy : healthy (Sample.world []).
Proof. by vm_compute. Qed.

Lemma sample_plain_assets (fs : list bool) : plainAssets (Sample.world fs).
Proof.
  intros file t f H A. cbn [tracksDir Sample.world] in H.
  destruct (sample_lookup file t H) as [[-> ->] | [[-> ->] | [-> ->]]]; clear H;
    cbn in A; [injection A as <-; reflexivity|discriminate A..].
Qed.


(** ** The storage primitives *)

Section Primitives.

Implicit Types (w : World) (name : string).

Lemma tracksDir_advance w : tracksDir (advance w) = tracksDir w.
Proof. reflexivity. Qed.

Lemma uploadsDir_advance w : uploadsDir (advance w) = uploadsDir w.
Proof. reflexivity. Qed.

Lemma fails_advance k w : fails k (advance w) = fails (S k) w.
Proof. unfold fails, advance; simpl. by destruct (faults w), k. Qed.

Lemma calm_advance w : calm w = true → calm (advance w) = true.
Proof.
  unfold calm, advance; simpl. destruct (faults w) as [|b fs]; simpl; [done|].
  by intros [_ ?]%andb_prop.
Qed.

Lemma calm_fails w k : calm w = true → fails k w = false.
Proof.
  unfold calm, fails. generalize (faults w) as fs. intros fs; revert k.
  induction fs as [|b fs IH]; intros [|k]; simpl; try done.
  - intros [Hb _]%andb_prop. by destruct b.
  - intros [_ Hfs]%andb_prop. by apply IH.
Qed.

Lemma readdir_tracks_eq w :
  readdir_tracks w =
    (if fails 0 w then Throw (EIO "") else Return (map_to_list (tracksDir w)).*1, advance w).
Proof. unfold readdir_tracks, bind, fs_fault. by destruct (fails 0 w). Qed.

Lemma readFile_track_eq name w :
  readFile_track name w =
    (if fails 0 w then Throw (EIO name)
     else match tracksDir w !! name with
          | Some c => Return c
          | None => Throw (ENOENT name)
          end, advance w).
Proof.
  unfold readFile_track, bind, fs_fault. destruct (fails 0 w); [done|].
  rewrite tracksDir_advance. by destruct (tracksDir w !! name).
Qed.

Lemma writeFile_track_eq name data w :
  writeFile_track name data w =
    if fails 0 w then (Throw (EIO name), advance w)
    else (Return (), set_tracksDir (<[name := data]> (tracksDir w)) (advance w)).
Proof. unfold writeFile_track, bind, fs_fault. by destruct (fails 0 w). Qed.

Lemma unlink_track_eq name w :
  unlink_track name w =
    if fails 0 w then (Throw (EIO name), advance w)
    else match tracksDir w !! name with
         | Some _ => (Return (), set_tracksDir (delete name (tracksDir w)) (advance w))
         | None => (Throw (ENOENT name), advance w)
         end.
Proof.
  unfold unlink_track, bind, fs_fault. destruct (fails 0 w); [done|].
  by rewrite tracksDir_advance.
Qed.

Lemma writeFile_upload_eq name buffer w :
  writeFile_upload name buffer w =
    if fails 0 w then (Throw (EIO name), advance w)
    else (Return (), set_uploadsDir (<[name := buffer]> (uploadsDir w)) (advance w)).
Proof. unfold writeFile_upload, bind, fs_fault. by destruct (fails 0 w). Qed.

Lemma unlink_upload_eq name w :
  unlink_upload name w =
    if fails 0 w then (Throw (EIO name), advance w)
    else match uploadsDir w !! name with
         | Some _ => (Return (), set_uploadsDir (delete name (uploadsDir w)) (advance w))
         | None => (Throw (ENOENT name), advance w)
         end.
Proof.
  unfold unlink_upload, bind, fs_fault. destruct (fails 0 w); [done|].
  by rewrite uploadsDir_advance.
Qed.

Lemma getTrackById_try_eq id0 w :
  getTrackById_try id0 w =
    (if fails 0 w then Throw (EIO (trackFileName id0))
     else match tracksDir w !! trackFileName id0 with
          | Some (Doc t) => Return (Some t)
          | Some (Corrupt _) => Throw SyntaxError
          | None => Throw (ENOENT (trackFileName id0))
          end, advance w).
Proof.
  unfold getTrackById_try, bind. rewrite readFile_track_eq.
  destruct (fails 0 w); [done|].
  by destruct (tracksDir w !! trackFileName id0) as [[t|raw]|].
Qed.

Lemma getTrackById_eq id0 w :
  getTrackById id0 w =
    (Return (if fails 0 w then None else parsed (tracksDir w !! trackFileName id0)),
     advance w).
Proof.
  unfold getTrackById, try_catch. rewrite getTrackById_try_eq.
  destruct (fails 0 w); [done|].
  by destruct (tracksDir w !! trackFileName id0) as [[t|raw]|].
Qed.

Lemma Date_now_eq w : Date_now w = (Return (clock w), tick w).
Proof. reflexivity. Qed.

Lemma tracksDir_tick w : tracksDir (tick w) = tracksDir w.
Proof. unfold tick, Date_now; simpl. by destruct (lapse w). Qed.

Lemma uploadsDir_tick w : uploadsDir (tick w) = uploadsDir w.
Proof. unfold tick, Date_now; simpl. by destruct (lapse w). Qed.

Lemma faults_tick w : faults (tick w) = faults w.
Proof. unfold tick, Date_now; simpl. by destruct (lapse w). Qed.

Lemma fails_tick k w : fails k (tick w) = fails k w.
Proof. unfold fails. by rewrite faults_tick. Qed.

Lemma calm_tick w : calm (tick w) = calm w.
Proof. unfold calm. by rewrite faults_tick. Qed.

Lemma clock_advance w : clock (advance w) = clock w.
Proof. reflexivity. Qed.

End Primitives.

(** ** Equations of the write paths *)

Section Writes.

Variable rt : JsRuntime.
Implicit Types (w : World).

Lemma createTrack_eq d w :
  createTrack rt d w =
    let t := drafted rt d w in
    let w2 := advance (tick (tick w)) in
    if fails 0 w then (Throw (EIO (trackFileName (id t))), w2)
    else (Return t, set_tracksDir (<[trackFileName (id t) := Doc t]> (tracksDir w)) w2).
Proof.
  unfold createTrack, bind. rewrite !Date_now_eq, writeFile_track_eq.
  rewrite !fails_tick, !tracksDir_tick. by destruct (fails 0 w).
Qed.

Lemma updateTrack_eq id0 u w :
  updateTrack rt id0 u w =
    if fails 0 w then (Return None, advance w)
    else match parsed (tracksDir w !! trackFileName id0) with
         | None => (Return None, advance w)
         | Some t =>
             let t' := mergeUpdates t u (toISOString rt (clock w)) in
             let w2 := advance (tick (advance w)) in
             if fails 1 w then (Return None, w2)
             else (Return (Some t'),
                   set_tracksDir (<[trackFileName id0 := Doc t']> (tracksDir w)) w2)
         end.
Proof.
  unfold updateTrack, try_catch, bind. rewrite getTrackById_eq.
  destruct (fails 0 w) eqn:F0; [done|].
  destruct (parsed _) as [t|]; [|done].
  rewrite Date_now_eq, writeFile_track_eq.
  rewrite fails_tick, fails_advance, tracksDir_tick, tracksDir_advance, clock_advance.
  by destruct (fails 1 w).
Qed.

End Writes.

Section Deletes.

Implicit Types (w : World).

(** The cascade of [deleteTrack]: the asset named by the record is
    removed if it can be; a failure changes nothing. *)
Lemma deleteTrack_eq id0 w :
  deleteTrack id0 w =
    if fails 0 w then (Return false, advance w)
    else match parsed (tracksDir w !! trackFileName id0) with
         | None => (Return false, advance w)
         | Some t =>
             if fails 1 w then (Return false, advance (advance w))
             else
               let w2 := set_tracksDir (delete (trackFileName id0) (tracksDir w))
                           (advance (advance w)) in
               if Str.truthy (audioFile t) then
                 if fails 2 w then (Return true, advance w2)
                 else match uploadsDir w !! Str.orEmpty (audioFile t) with
                      | Some _ =>
                          (Return true,
                           set_uploadsDir (delete (Str.orEmpty (audioFile t)) (uploadsDir w))
                             (advance w2))
                      | None => (Return true, advance w2)
                      end
               else (Return true, w2)
         end.
Proof.
  unfold deleteTrack, try_catch, bind. rewrite getTrackById_eq.
  destruct (fails 0 w) eqn:F0; [done|].
  destruct (tracksDir w !! trackFileName id0) as [[t|raw]|] eqn:L; simpl; [|done..].
  rewrite unlink_track_eq, fails_advance, tracksDir_advance, L.
  destruct (fails 1 w) eqn:F1; [done|].
  destruct (Str.truthy (audioFile t)); [|done].
  unfold try_catch. rewrite unlink_upload_eq.
  replace (fails 0 _) with (fails 2 w)
    by (by rewrite <-!fails_advance).
  destruct (fails 2 w); [done|].
  simpl. by destruct (uploadsDir w !! _).
Qed.

Lemma deleteTrack_total id0 w : ∃ r w', deleteTrack id0 w = (Return r, w').
Proof.
  rewrite deleteTrack_eq.
  destruct (fails 0 w); [eauto|].
  destruct (parsed _); [|eauto]. cbv zeta.
  destruct (fails 1 w); [eauto|].
  destruct (Str.truthy _); [|eauto].
  destruct (fails 2 w); [eauto|].
  destruct (uploadsDir w !! _); eauto.
Qed.

Lemma append_cons c (a b : string) : String c a +:+ b = String c (a +:+ b).
Proof. reflexivity. Qed.

Lemma append_length (a b : string) :
  String.length (a +:+ b) = (String.length a + String.length b)%nat.
Proof. induction a as [|c a IH]; [done|]. rewrite append_cons. simpl. by rewrite IH. Qed.

Lemma append_inv_tail (a b s : string) : a +:+ s = b +:+ s → a = b.
Proof.
  revert b. induction a as [|c a IH]; intros [|d b] E; [done| | |].
  - apply (f_equal String.length) in E. rewrite !append_length in E. simpl in E. lia.
  - apply (f_equal String.length) in E. rewrite !append_length in E. simpl in E. lia.
  - rewrite !append_cons in E. injection E as -> E. f_equal. by apply IH.
Qed.

Lemma trackFileName_inj id0 id1 : trackFileName id0 = trackFileName id1 → id0 = id1.
Proof. apply append_inv_tail. Qed.

(** In a world without storage failures [deleteTrack] succeeds exactly
    on the ids that hold a readable record, and removes that record. *)
Lemma deleteTrack_calm id0 w :
  calm w = true →
  ∃ w', deleteTrack id0 w = (Return (holds id0 (tracksDir w)), w') ∧
        calm w' = true ∧
        tracksDir w' =
          (if holds id0 (tracksDir w) then delete (trackFileName id0) (tracksDir w)
           else tracksDir w).
Proof.
  intros C. rewrite deleteTrack_eq, !calm_fails by done. unfold holds.
  pose proof (calm_advance w C) as C1. pose proof (calm_advance _ C1) as C2.
  destruct (parsed _) as [t|]; [|by eexists]. cbv zeta.
  destruct (Str.truthy _); [|by eexists].
  assert (calm (advance (set_tracksDir (delete (trackFileName id0) (tracksDir w))
                           (advance (advance w)))) = true) as C3
    by (by apply (calm_advance (set_tracksDir _ (advance (advance w))))).
  destruct (uploadsDir w !! _); by eexists.
Qed.

End Deletes.

(** ** Creation and lookup by id *)

Section Create.

Variable rt : JsRuntime.

(** C1.  When the write of [createTrack] and the read of the following
    [getTrackById] both go through, [createTrack d] returns a record
    and [getTrackById] on that record's id returns the same record. *)
Theorem createTrack_then_getTrackById (d : TrackDraft) (w : World) :
  fails 0 w = false → fails 1 w = false →
  ∃ t w1 w2,
    createTrack rt d w = (Return t, w1) ∧
    getTrackById (id t) w1 = (Return (Some t), w2).
Proof.
  intros F0 F1. rewrite createTrack_eq, F0. cbv zeta.
  eexists _, _, _. split; [reflexivity|].
  rewrite getTrackById_eq. f_equal.
  replace (fails 0 _) with (fails 1 w); [rewrite F1|].
  - simpl. by rewrite lookup_insert_eq.
  - change (fails 1 w = fails 0 (advance (tick (tick w)))).
    by rewrite fails_advance, !fails_tick.
Qed.

(** Without an explicit [id] among the updates, [updateTrack] leaves
    the id of the stored record alone, whatever the storage does: the
    record found under the file name afterwards has the id of the one
    found there before, and a returned record is that stored record. *)
Lemma updateTrack_stored_id (id0 : string) (u : TrackUpdates) (w : World) (t : Track) :
  tracksDir w !! trackFileName id0 = Some (Doc t) →
  u_id u = None →
  ∃ r w' t',
    updateTrack rt id0 u w = (Return r, w') ∧
    tracksDir w' !! trackFileName id0 = Some (Doc t') ∧
    id t' = id t ∧
    (r = None ∨ r = Some t').
Proof.
  intros L U. rewrite updateTrack_eq, L. simpl.
  destruct (fails 0 w); [by eexists _, _, t; eauto|].
  destruct (fails 1 w).
  - eexists _, _, t. split_and!; eauto.
    by rewrite tracksDir_advance, tracksDir_tick.
  - eexists _, _, (mergeUpdates t u (toISOString rt (clock w))).
    split_and!; eauto.
    + simpl. by rewrite lookup_insert_eq.
    + simpl. by rewrite U.
Qed.

End Create.

Section Ids.

Variable rt : JsRuntime.

(** C9 (amended).  For every stored track and every [updateTrack] on
    it whose updates carry no [id] key, whatever the storage does: the
    record found under the file name afterwards has the id of the one
    found there before, and a returned record is that stored record.
    [createTrack] stores its record under the file name of the id it
    assigns, so after any such update of a created record the id is the
    one assigned at creation and still the key of the file. *)
Theorem updateTrack_keeps_id :
  (∀ id0 u w t,
     tracksDir w !! trackFileName id0 = Some (Doc t) → u_id u = None →
     ∃ r w' t',
       updateTrack rt id0 u w = (Return r, w') ∧
       tracksDir w' !! trackFileName id0 = Some (Doc t') ∧
       id t' = id t ∧
       (r = None ∨ r = Some t')) ∧
  (∀ d w t w1,
     createTrack rt d w = (Return t, w1) →
     tracksDir w1 !! trackFileName (id t) = Some (Doc t)) ∧
  (∀ u d w, u_id u = None → id_kept rt u d w).
Proof.
  split_and!.
  - intros id0 u w t L U. by apply updateTrack_stored_id.
  - intros d w t w1 Hc. rewrite createTrack_eq in Hc. cbv zeta in Hc.
    destruct (fails 0 w); [done|]. injection Hc as <- <-. simpl.
    by rewrite lookup_insert_eq.
  - intros u d w U t w1 r w2 Hc Hu. rewrite createTrack_eq in Hc. cbv zeta in Hc.
    destruct (fails 0 w); [done|].
    assert (t = drafted rt d w) as -> by congruence.
    assert (tracksDir w1 !! trackFileName (id (drafted rt d w)) =
            Some (Doc (drafted rt d w))) as L1.
    { injection Hc as <-. simpl. by rewrite lookup_insert_eq. }
    destruct (updateTrack_stored_id rt _ u w1 _ L1 U) as (r' & w' & t' & E & L & I & _).
    rewrite E in Hu. injection Hu as <- <-. eauto.
Qed.

End Ids.

(** C9 as stated fails: an update that names another id rewrites the id
    of the stored record, which stays in the file of the old id. *)
Lemma id_kept_counterexample :
  ¬ id_kept asciiRuntime (Sample.rename "other") Sample.draft (Sample.world []).
Proof.
  intros H.
  destruct (H (drafted asciiRuntime Sample.draft (Sample.world [])) _ _ _ eq_refl eq_refl)
    as (t' & L & I).
  vm_compute in L. injection L as <-. vm_compute in I. discriminate I.
Qed.

Lemma updateTrack_keeps_id_witness :
  tracksDir (Sample.world []) !! trackFileName "2" = Some (Doc Sample.t2) ∧
  u_id (Sample.retitle "Blue") = None ∧
  (∃ r w' t',
     updateTrack asciiRuntime "2" (Sample.retitle "Blue") (Sample.world []) = (Return r, w') ∧
     tracksDir w' !! trackFileName "2" = Some (Doc t') ∧
     id t' = "2" ∧ title t' = "Blue" ∧ r = Some t') ∧
  id_kept asciiRuntime (Sample.retitle "Blue") Sample.draft (Sample.world []).
Proof.
  assert (tracksDir (Sample.world []) !! trackFileName "2" = Some (Doc Sample.t2)) as L
    by (vm_compute; reflexivity).
  destruct (updateTrack_keeps_id asciiRuntime) as (Hstep & _ & Hkept).
  split; [exact L|]. split; [reflexivity|]. split.
  - destruct (Hstep "2" (Sample.retitle "Blue") (Sample.world []) Sample.t2 L eq_refl)
      as (r & w' & t' & E & L' & I & _).
    destruct (updateTrack asciiRuntime "2" (Sample.retitle "Blue") (Sample.world []))
      as [o w2] eqn:G.
    injection E as -> ->. vm_compute in G. injection G as Hr Hw.
    subst w'. vm_compute in L'. injection L' as <-.
    eexists _, _, _. split; [reflexivity|]. split; [by vm_compute|].
    split; [reflexivity|]. split; [reflexivity|]. by rewrite <-Hr.
  - apply (Hkept (Sample.retitle "Blue") Sample.draft (Sample.world [])). reflexivity.
Defined.

Lemma createTrack_then_getTrackById_witness :
  fails 0 (Sample.world [false; false]) = false ∧
  fails 1 (Sample.world [false; false]) = false ∧
  ∃ t w1 w2,
    createTrack asciiRuntime Sample.draft (Sample.world [false; false]) = (Return t, w1) ∧
    getTrackById (id t) w1 = (Return (Some t), w2).
Proof.
  split; [reflexivity|]. split; [reflexivity|].
  apply (createTrack_then_getTrackById asciiRuntime Sample.draft (Sample.world [false; false]));
    reflexivity.
Defined.

(** ** Error policy *)

Section Errors.

Variable rt : JsRuntime.

Lemma try_catch_fallback {A} (c : IO A) (d : A) (w : World) :
  ∃ r w', try_catch c (λ _, ret d) w = (Return r, w') ∧
          ∀ e w1, c w = (Throw e, w1) → r = d.
Proof.
  unfold try_catch. destruct (c w) as [[a|e] w1]; eexists _, _; split; eauto.
  - by intros ? ? [=].
Qed.

Lemma loadTracks_eq (w : World) :
  loadTracks w =
    if fails 0 w then (Throw (EIO ""), advance w)
    else readTrackFiles (map_to_list (tracksDir w)).*1 (advance w).
Proof. unfold loadTracks, bind. rewrite readdir_tracks_eq. by destruct (fails 0 w). Qed.

(** A record file that cannot be parsed makes the whole scan throw,
    unless the storage itself fails first. *)
Lemma readTrackFiles_corrupt (files : list string) (w : World) (file raw : string) :
  file ∈ files → Str.endsWith file ".json" = true →
  tracksDir w !! file = Some (Corrupt raw) →
  ∃ e w', readTrackFiles files w = (Throw e, w').
Proof.
  intros Hin Hjson. revert w. induction files as [|f rest IH]; intros w L.
  { by apply elem_of_nil in Hin. }
  simpl. destruct (decide (f = file)) as [->|Hne].
  - rewrite Hjson. unfold bind. rewrite readFile_track_eq, L.
    destruct (fails 0 w); eauto.
  - apply elem_of_cons in Hin as [?|Hin]; [congruence|].
    destruct (Str.endsWith f ".json"); [|by apply IH].
    unfold bind at 1. rewrite readFile_track_eq.
    destruct (fails 0 w); [eauto|].
    destruct (tracksDir w !! f) as [[t|raw']|]; simpl; eauto.
    unfold bind, ret. destruct (IH Hin (advance w) L) as (e & w' & ->). eauto.
Qed.

Lemma getTracks_try_corrupt (q : QueryParams) (w : World) (file raw : string) :
  Str.endsWith file ".json" = true →
  tracksDir w !! file = Some (Corrupt raw) →
  ∃ e w', getTracks_try rt q w = (Throw e, w').
Proof.
  intros Hjson L. unfold getTracks_try, bind. rewrite loadTracks_eq.
  destruct (fails 0 w); [eauto|].
  destruct (readTrackFiles_corrupt (map_to_list (tracksDir w)).*1 (advance w) file raw)
    as (e & w' & ->); eauto.
  apply list_elem_of_fmap. exists (file, Corrupt raw). split; [done|].
  by apply elem_of_map_to_list.
Qed.

(** C5.  The four lookups always return a value.  Whenever the guarded
    block throws, whatever the error, the value is the fallback: no
    record for [getTrackById] and [getTrackBySlug], the empty page for
    [getTracks], the empty list for [getGenres].  A failing first
    storage call and an unparsable file are such errors. *)
Theorem lookups_never_raise :
  (∀ id0 w, ∃ r w',
      getTrackById id0 w = (Return r, w') ∧
      (∀ e w1, getTrackById_try id0 w = (Throw e, w1) → r = None) ∧
      (fails 0 w = true → r = None) ∧
      (∀ raw, tracksDir w !! trackFileName id0 = Some (Corrupt raw) → r = None)) ∧
  (∀ slug0 w, ∃ r w',
      getTrackBySlug slug0 w = (Return r, w') ∧
      (∀ e w1, getTrackBySlug_try slug0 w = (Throw e, w1) → r = None) ∧
      (fails 0 w = true → r = None)) ∧
  (∀ q w, ∃ r w',
      getTracks rt q w = (Return r, w') ∧
      (∀ e w1, getTracks_try rt q w = (Throw e, w1) → r = {| tracks := []; total := 0 |}) ∧
      (fails 0 w = true → r = {| tracks := []; total := 0 |}) ∧
      (∀ file raw, Str.endsWith file ".json" = true →
         tracksDir w !! file = Some (Corrupt raw) →
         r = {| tracks := []; total := 0 |})) ∧
  (∀ w, ∃ r w',
      getGenres w = (Return r, w') ∧
      (∀ e w1, getGenres_try w = (Throw e, w1) → r = []) ∧
      (fails 0 w = true → r = []) ∧
      (genresFile w = None → r = []) ∧
      (∀ raw, genresFile w = Some (CorruptGenres raw) → r = [])).
Proof.
  split_and!.
  - intros id0 w.
    destruct (try_catch_fallback (getTrackById_try id0) None w) as (r & w' & E & Hthrow).
    change (getTrackById id0 w = (Return r, w')) in E.
    rewrite getTrackById_eq in E.
    exists r, w'. split_and!; [by rewrite getTrackById_eq|done| |].
    + intros F. rewrite F in E. by injection E as <- _.
    + intros raw L. rewrite L in E. injection E as <- _. by destruct (fails 0 w).
  - intros slug0 w.
    destruct (try_catch_fallback (getTrackBySlug_try slug0) None w) as (r & w' & E & Hthrow).
    exists r, w'. split_and!; [done..|].
    intros F. eapply Hthrow. unfold getTrackBySlug_try, bind.
    by rewrite readdir_tracks_eq, F.
  - intros q w.
    destruct (try_catch_fallback (getTracks_try rt q) {| tracks := []; total := 0 |} w)
      as (r & w' & E & Hthrow).
    exists r, w'. split_and!; [done..| |].
    + intros F. eapply Hthrow. unfold getTracks_try, bind. by rewrite loadTracks_eq, F.
    + intros file raw Hjson L.
      destruct (getTracks_try_corrupt q w file raw Hjson L) as (e & w1 & Ht). eauto.
  - intros w.
    destruct (try_catch_fallback getGenres_try [] w) as (r & w' & E & Hthrow).
    exists r, w'.
    assert (getGenres_try w =
              (if fails 0 w then Throw (EIO "genres.json")
               else match genresFile w with
                    | Some (GenreList l) => Return l
                    | Some (CorruptGenres _) => Throw SyntaxError
                    | None => Throw (ENOENT "genres.json")
                    end, advance w)) as G.
    { unfold getGenres_try, readFile_genres, bind, fs_fault.
      destruct (fails 0 w); [done|]. simpl.
      by destruct (genresFile w) as [[l|raw]|]. }
    split_and!; [done..| | |].
    + intros F. rewrite F in G. eauto.
    + intros N. rewrite N in G. destruct (fails 0 w); eauto.
    + intros raw N. rewrite N in G. destruct (fails 0 w); eauto.
Qed.

End Errors.

Lemma lookups_never_raise_witness :
  fails 0 (Sample.world [true]) = true ∧
  tracksDir (Sample.damaged []) !! "4.json" = Some (Corrupt "{") ∧
  (∃ w', getTrackById "1" (Sample.world [true]) = (Return None, w')) ∧
  (∃ w', getTracks asciiRuntime noParams (Sample.damaged []) =
           (Return {| tracks := []; total := 0 |}, w')).
Proof.
  destruct (lookups_never_raise asciiRuntime) as (Hid & _ & Hlist & _).
  split; [reflexivity|]. split; [reflexivity|]. split.
  - destruct (Hid "1" (Sample.world [true])) as (r & w' & E & _ & F & _).
    exists w'. rewrite E. f_equal. f_equal. apply F. reflexivity.
  - destruct (Hlist noParams (Sample.damaged [])) as (r & w' & E & _ & _ & C).
    exists w'. rewrite E. f_equal. f_equal. apply (C "4.json" "{"); reflexivity.
Defined.

Section WritePolicy.

Variable rt : JsRuntime.

(** C6.  [createTrack] has no handler: when its write fails, the I/O
    error reaches the caller and nothing is stored.  [updateTrack] and
    [deleteTrack] always return a value; when the record is there but
    a storage call fails they answer [null] and [false], which is also
    their answer when the id is a plain name and the directory has no
    file for it. *)
Theorem write_paths_asymmetric :
  (∀ d w, fails 0 w = true →
     ∃ w', createTrack rt d w = (Throw (EIO (trackFileName (pretty (clock w)))), w') ∧
           tracksDir w' = tracksDir w) ∧
  (∀ id0 u w, ∃ r w', updateTrack rt id0 u w = (Return r, w')) ∧
  (∀ id0 u w t, tracksDir w !! trackFileName id0 = Some (Doc t) →
     fails 0 w = true ∨ fails 1 w = true →
     ∃ w', updateTrack rt id0 u w = (Return None, w')) ∧
  (∀ id0 u w, plainName id0 = true → tracksDir w !! trackFileName id0 = None →
     ∃ w', updateTrack rt id0 u w = (Return None, w')) ∧
  (∀ id0 w, ∃ r w', deleteTrack id0 w = (Return r, w')) ∧
  (∀ id0 w t, tracksDir w !! trackFileName id0 = Some (Doc t) →
     fails 0 w = true ∨ fails 1 w = true →
     ∃ w', deleteTrack id0 w = (Return false, w')) ∧
  (∀ id0 w, plainName id0 = true → tracksDir w !! trackFileName id0 = None →
     ∃ w', deleteTrack id0 w = (Return false, w')).
Proof.
  split_and!.
  - intros d w F. rewrite createTrack_eq, F. cbv zeta. eexists. split; [reflexivity|].
    by rewrite tracksDir_advance, !tracksDir_tick.
  - intros id0 u w. rewrite updateTrack_eq.
    destruct (fails 0 w); [eauto|].
    destruct (parsed _); [|eauto]. cbv zeta. destruct (fails 1 w); eauto.
  - intros id0 u w t L F. rewrite updateTrack_eq, L. simpl.
    destruct (fails 0 w); [eauto|]. destruct F as [F|F]; [done|]. rewrite F. eauto.
  - intros id0 u w _ L. rewrite updateTrack_eq, L. simpl. destruct (fails 0 w); eauto.
  - intros id0 w. rewrite deleteTrack_eq.
    destruct (fails 0 w); [eauto|].
    destruct (parsed _); [|eauto]. cbv zeta.
    destruct (fails 1 w); [eauto|].
    destruct (Str.truthy _); [|eauto].
    destruct (fails 2 w); [eauto|].
    destruct (uploadsDir w !! _); eauto.
  - intros id0 w t L F. rewrite deleteTrack_eq, L. simpl.
    destruct (fails 0 w); [eauto|]. destruct F as [F|F]; [done|]. rewrite F. eauto.
  - intros id0 w _ L. rewrite deleteTrack_eq, L. simpl. destruct (fails 0 w); eauto.
Qed.

End WritePolicy.

Lemma write_paths_asymmetric_witness :
  fails 0 (Sample.world [true]) = true ∧
  tracksDir (Sample.world [false; true]) !! trackFileName "1" = Some (Doc Sample.t1) ∧
  fails 1 (Sample.world [false; true]) = true ∧
  plainName "9" = true ∧
  tracksDir (Sample.world []) !! trackFileName "9" = None ∧
  (∃ e w', createTrack asciiRuntime Sample.draft (Sample.world [true]) = (Throw e, w')) ∧
  (∃ w', updateTrack asciiRuntime "1" (Sample.retitle "Blue") (Sample.world [false; true])
         = (Return None, w')) ∧
  (∃ w', updateTrack asciiRuntime "9" (Sample.retitle "Blue") (Sample.world [])
         = (Return None, w')) ∧
  (∃ w', deleteTrack "1" (Sample.world [false; true]) = (Return false, w')) ∧
  (∃ w', deleteTrack "9" (Sample.world []) = (Return false, w')).
Proof.
  destruct (write_paths_asymmetric asciiRuntime) as (Hc & _ & Hu & Hu' & _ & Hd & Hd').
  split_and!; try reflexivity.
  - destruct (Hc Sample.draft (Sample.world [true])) as (w' & E & _); [reflexivity|].
    eexists _, w'. exact E.
  - apply (Hu "1" _ (Sample.world [false; true]) Sample.t1); [reflexivity|].
    right. reflexivity.
  - apply (Hu' "9" _ (Sample.world [])); reflexivity.
  - apply (Hd "1" (Sample.world [false; true]) Sample.t1); [reflexivity|].
    right. reflexivity.
  - apply (Hd' "9" (Sample.world [])); reflexivity.
Defined.

(** ** Assets *)

Section Assets.

Variable rt : JsRuntime.


(** The whole life of an asset: saved for a stored record, referenced
    by it through [updateTrack], and removed with it by [deleteTrack]. *)
Lemma attach_then_deleteTrack (id0 fileName : string) (buffer : list Byte.byte)
      (w : World) (t : Track) :
  calm w = true → id0 ≠ "" →
  tracksDir w !! trackFileName id0 = Some (Doc t) →
  ∃ f w1 t' w2 w3,
    saveAudioFile rt id0 fileName buffer w = (Return f, w1) ∧
    updateTrack rt id0
      {| u_id := None; u_title := None; u_artist := None; u_album := None;
         u_genres := None; u_slug := None; u_coverImage := None;
         u_audioFile := Some (Some f); u_createdAt := None; u_updatedAt := None |} w1
      = (Return (Some t'), w2) ∧
    audioFile t' = Some f ∧
    uploadsDir w2 !! f = Some buffer ∧
    deleteTrack id0 w2 = (Return true, w3) ∧
    tracksDir w3 !! trackFileName id0 = None ∧
    uploadsDir w3 !! f = None.
Proof.
  intros C Hid L.
  set (f := id0 +:+ path_extname rt fileName).
  set (u := {| u_id := None; u_title := None; u_artist := None; u_album := None;
               u_genres := None; u_slug := None; u_coverImage := None;
               u_audioFile := Some (Some f); u_createdAt := None; u_updatedAt := None |}).
  set (w1 := set_uploadsDir (<[f := buffer]> (uploadsDir w)) (advance w)).
  set (t' := mergeUpdates t u (toISOString rt (clock w1))).
  set (w2 := set_tracksDir (<[trackFileName id0 := Doc t']> (tracksDir w1))
               (advance (tick (advance w1)))).
  assert (calm w1 = true) as C1 by (by apply calm_advance).
  assert (calm w2 = true) as C2.
  { change (calm (advance (tick (advance w1))) = true).
    apply calm_advance. rewrite calm_tick. by apply calm_advance. }
  assert (f ≠ "") as Hf.
  { unfold f. destruct id0; [done|]. by rewrite append_cons. }
  assert (uploadsDir w2 !! f = Some buffer) as U2.
  { unfold w2. simpl. rewrite uploadsDir_tick. unfold w1. simpl.
    by rewrite lookup_insert_eq. }
  assert (tracksDir w2 !! trackFileName id0 = Some (Doc t')) as L2.
  { unfold w2. simpl. by rewrite lookup_insert_eq. }
  exists f, w1, t', w2.
  eexists. split_and!.
  - unfold saveAudioFile, bind. by rewrite writeFile_upload_eq, calm_fails.
  - rewrite updateTrack_eq, !calm_fails by done.
    change (tracksDir w1) with (tracksDir w). by rewrite L.
  - done.
  - done.
  - rewrite deleteTrack_eq, !calm_fails, L2 by done. cbv zeta. cbn [parsed].
    change (audioFile t') with (Some f). cbn [Str.truthy Str.orEmpty].
    destruct (String.eqb_spec f ""); [contradiction|]. cbn [negb]. rewrite U2. reflexivity.
  - simpl. by rewrite lookup_delete_eq.
  - simpl. by rewrite lookup_delete_eq.
Qed.

End Assets.


(** ** Batch deletion *)

Section Batch.

Lemma occurrences_snoc (x y : string) (l : list string) :
  occurrences x (l ++ [y]) = (occurrences x l + if decide (y = x) then 1 else 0)%nat.
Proof.
  unfold occurrences. rewrite filter_app, length_app. f_equal.
  rewrite filter_cons. by destruct (decide (y = x)).
Qed.

Lemma occurrences_cons (x y : string) (l : list string) :
  occurrences x (y :: l) = ((if decide (y = x) then 1 else 0) + occurrences x l)%nat.
Proof. unfold occurrences. rewrite filter_cons. by destruct (decide (y = x)). Qed.

Lemma holds_delete_eq (id0 : string) (m : gmap string TrackFile) :
  holds id0 (delete (trackFileName id0) m) = false.
Proof. unfold holds. by rewrite lookup_delete_eq. Qed.

Lemma holds_delete_ne (id0 id1 : string) (m : gmap string TrackFile) :
  id1 ≠ id0 → holds id0 (delete (trackFileName id1) m) = holds id0 m.
Proof.
  intros Hne. unfold holds. rewrite lookup_delete_ne; [done|].
  intros E. by apply trackFileName_inj in E.
Qed.

(** Whatever the storage does, the loop returns, and the two lists
    grow by the ids it was given. *)
Lemma deleteEach_partition (ids : list string) (acc : BatchDeleteResponse) (w : World) :
  ∃ r w', deleteEach ids acc w = (Return r, w') ∧
          success r ++ failed r ≡ₚ success acc ++ failed acc ++ ids.
Proof.
  revert acc w. induction ids as [|x ids IH]; intros acc w; simpl.
  - eexists _, _. split; [reflexivity|]. by rewrite app_nil_r.
  - unfold bind. destruct (deleteTrack_total x w) as ([] & w1 & ->).
    + destruct (IH {| success := success acc ++ [x]; failed := failed acc |} w1)
        as (r & w' & -> & P).
      eexists _, _. split; [reflexivity|]. rewrite P. simpl.
      rewrite <-!app_assoc. f_equiv. simpl. by rewrite Permutation_middle.
    + destruct (IH {| success := success acc; failed := failed acc ++ [x] |} w1)
        as (r & w' & -> & P).
      eexists _, _. split; [reflexivity|]. rewrite P. simpl.
      by rewrite <-!app_assoc.
Qed.

(** Without storage failures an id is deleted the first time it comes
    up, if it holds a record, and fails every other time. *)
Lemma deleteEach_calm (ids : list string) (acc : BatchDeleteResponse) (w : World)
      (id0 : string) :
  calm w = true →
  ∃ r w', deleteEach ids acc w = (Return r, w') ∧
    let hit := if holds id0 (tracksDir w) then Nat.min 1 (occurrences id0 ids) else 0%nat in
    occurrences id0 (success r) = (occurrences id0 (success acc) + hit)%nat ∧
    occurrences id0 (failed r) =
      (occurrences id0 (failed acc) + (occurrences id0 ids - hit))%nat.
Proof.
  revert acc w. induction ids as [|x ids IH]; intros acc w C; simpl.
  - eexists _, _. split; [reflexivity|]. unfold occurrences. simpl.
    destruct (holds id0 (tracksDir w)); simpl; lia.
  - unfold bind. destruct (deleteTrack_calm x w C) as (w1 & -> & C1 & D).
    rewrite occurrences_cons.
    destruct (holds x (tracksDir w)) eqn:Hx.
    + destruct (IH {| success := success acc ++ [x]; failed := failed acc |} w1 C1)
        as (r & w' & -> & S & F).
      eexists _, _. split; [reflexivity|]. simpl in S, F.
      rewrite occurrences_snoc in S. rewrite D in S, F.
      destruct (decide (x = id0)) as [->|Hne].
      * rewrite holds_delete_eq in S, F. rewrite Hx. simpl. lia.
      * rewrite holds_delete_ne in S, F by done. simpl.
        destruct (holds id0 (tracksDir w)); lia.
    + destruct (IH {| success := success acc; failed := failed acc ++ [x] |} w1 C1)
        as (r & w' & -> & S & F).
      eexists _, _. split; [reflexivity|]. simpl in S, F.
      rewrite occurrences_snoc in F. rewrite D in S, F.
      destruct (decide (x = id0)) as [->|Hne].
      * rewrite Hx in *. simpl. lia.
      * simpl. destruct (holds id0 (tracksDir w)); lia.
Qed.

Lemma deleteEach_calm_store ids (acc : BatchDeleteResponse) w :
  calm w = true →
  ∃ r w', deleteEach ids acc w = (Return r, w') ∧
          tracksDir w' = foldl dropRecord (tracksDir w) ids.
Proof.
  revert acc w. induction ids as [|x ids IH]; intros acc w C; simpl.
  - by eexists _, _.
  - unfold bind. destruct (deleteTrack_calm x w C) as (w1 & -> & C1 & D).
    unfold dropRecord at 2. rewrite <-D.
    destruct (holds x (tracksDir w)); by apply IH.
Qed.

Lemma holds_dropRecord (m : gmap string TrackFile) (i x : string) :
  holds i (dropRecord m x) = holds i m && negb (bool_decide (x = i) && holds x m).
Proof.
  unfold dropRecord. destruct (holds x m) eqn:Hx.
  - destruct (decide (x = i)) as [->|Hne].
    + rewrite holds_delete_eq, bool_decide_true by done. by rewrite andb_false_r.
    + rewrite holds_delete_ne, bool_decide_false by done. by rewrite andb_true_r.
  - by rewrite andb_false_r, andb_true_r.
Qed.

Lemma holds_foldl_dropRecord_false ids (m : gmap string TrackFile) (i : string) :
  holds i m = false → holds i (foldl dropRecord m ids) = false.
Proof.
  revert m. induction ids as [|x ids IH]; intros m H; simpl; [done|].
  apply IH. by rewrite holds_dropRecord, H.
Qed.

Lemma holds_foldl_dropRecord ids (m : gmap string TrackFile) (i : string) :
  i ∈ ids → holds i (foldl dropRecord m ids) = false.
Proof.
  revert m. induction ids as [|x ids IH]; intros m Hin; simpl.
  { by apply elem_of_nil in Hin. }
  destruct (decide (x = i)) as [->|Hne].
  - apply holds_foldl_dropRecord_false. rewrite holds_dropRecord, bool_decide_true by done.
    by destruct (holds i m).
  - apply IH. apply elem_of_cons in Hin as [?|?]; [congruence|done].
Qed.

(** C7 (amended).  [deleteMultipleTracks] goes through the ids one
    after the other and always returns; the succeeded and failed ids
    together are the input ids, so the lengths add up.  When no storage
    call fails, the ids are plain names and no stored record names its
    asset through a path, an id that names a stored record and occurs
    twice in the input is once among the succeeded and once among the
    failed, and no input id holds a record afterwards. *)
Theorem deleteMultipleTracks_partition :
  (∀ ids w, ∃ r w',
      deleteMultipleTracks ids w = (Return r, w') ∧
      success r ++ failed r ≡ₚ ids ∧
      (length (success r) + length (failed r))%nat = length ids) ∧
  (∀ ids w,
      calm w = true → Forall (λ i, plainName i = true) ids → plainAssets w →
      repeated_once_each ids w ∧
      ∀ r w', deleteMultipleTracks ids w = (Return r, w') →
              ∀ i, i ∈ ids → holds i (tracksDir w') = false).
Proof.
  split.
  - intros ids w. unfold deleteMultipleTracks.
    destruct (deleteEach_partition ids {| success := []; failed := [] |} w)
      as (r & w' & E & P).
    exists r, w'. simpl in P. split_and!; [done..|].
    by rewrite <-length_app, P.
  - intros ids w C _ _. split.
    + intros id0 t L O. unfold deleteMultipleTracks.
      destruct (deleteEach_calm ids {| success := []; failed := [] |} w id0 C)
        as (r & w' & E & S & F).
      exists r, w'. unfold holds in S, F. rewrite L, O in S, F. simpl in S, F.
      by split_and!.
    + intros r w' E i Hin. unfold deleteMultipleTracks in E.
      destruct (deleteEach_calm_store ids {| success := []; failed := [] |} w C)
        as (r0 & w0 & E0 & D).
      rewrite E in E0. injection E0 as <- <-. rewrite D.
      by apply holds_foldl_dropRecord.
Qed.

End Batch.

(** C7 as stated fails when storage calls fail: if the record cannot be
    read at either attempt, both removals fail and the id is twice
    among the failed, although its record is stored. *)
Lemma repeated_once_each_counterexample :
  ¬ repeated_once_each ["2"; "2"] (Sample.world [true; true]).
Proof.
  intros H.
  assert (tracksDir (Sample.world [true; true]) !! trackFileName "2" =
          Some (Doc Sample.t2)) as L by (vm_compute; reflexivity).
  destruct (H "2" Sample.t2 L eq_refl) as (r & w' & E & S & _). clear L H.
  vm_compute in E. injection E as <- _. vm_compute in S. discriminate S.
Qed.

Lemma deleteMultipleTracks_partition_witness :
  calm (Sample.world []) = true ∧
  Forall (λ i, plainName i = true) ["2"; "7"; "2"] ∧
  plainAssets (Sample.world []) ∧
  tracksDir (Sample.world []) !! trackFileName "2" = Some (Doc Sample.t2) ∧
  occurrences "2" ["2"; "7"; "2"] = 2%nat ∧
  ∃ r w',
    deleteMultipleTracks ["2"; "7"; "2"] (Sample.world []) = (Return r, w') ∧
    occurrences "2" (success r) = 1%nat ∧
    occurrences "2" (failed r) = 1%nat ∧
    holds "2" (tracksDir w') = false.
Proof.
  assert (Forall (λ i, plainName i = true) ["2"; "7"; "2"]) as P
    by (repeat constructor).
  assert (tracksDir (Sample.world []) !! trackFileName "2" = Some (Doc Sample.t2)) as L
    by (vm_compute; reflexivity).
  destruct (proj2 deleteMultipleTracks_partition ["2"; "7"; "2"] (Sample.world [])
              eq_refl P (sample_plain_assets [])) as [Hrule Hgone].
  destruct (Hrule "2" Sample.t2 L eq_refl) as (r & w' & E & S & F).
  split; [reflexivity|]. split; [exact P|]. split; [exact (sample_plain_assets [])|].
  split; [exact L|]. split; [reflexivity|].
  exists r, w'. split; [exact E|]. split; [exact S|]. split; [exact F|].
  apply (Hgone r w' E). apply list_elem_of_here.
Defined.

(** ** Arrays *)

Section Arrays.

Context {A : Type}.
Implicit Types (l : list A) (x : A).

Lemma Array_slice_nonneg l (lo hi : Z) :
  0 ≤ lo → lo ≤ hi →
  Array_slice l lo hi = take (Z.to_nat (hi - lo)) (drop (Z.to_nat lo) l).
Proof.
  intros Hlo Hhi. unfold Array_slice.
  destruct (Z.ltb_spec lo 0); [lia|]. destruct (Z.ltb_spec hi 0); [lia|].
  destruct (decide (Z.of_nat (length l) ≤ lo)) as [Hout|Hin].
  - rewrite Z.min_r by lia. rewrite !drop_ge by lia. by rewrite !take_nil.
  - rewrite (Z.min_l lo) by lia.
    destruct (decide (hi ≤ Z.of_nat (length l))).
    + by rewrite Z.min_l by lia.
    + rewrite Z.min_r by lia. rewrite !take_ge; [done|..]; rewrite length_drop; lia.
Qed.

Lemma index_window_eq l (i lo hi : Z) :
  index_window l i lo hi =
    take (Z.to_nat (hi - Z.max lo i)) (drop (Z.to_nat (lo - i)) l).
Proof.
  revert i. induction l as [|x l IH]; intros i; simpl.
  { by rewrite drop_nil, take_nil. }
  rewrite IH.
  destruct (Z.leb_spec lo i); destruct (Z.ltb_spec i hi); simpl.
  - replace (Z.to_nat (lo - i)) with 0%nat by lia.
    replace (Z.to_nat (lo - (i + 1))) with 0%nat by lia.
    replace (Z.to_nat (hi - Z.max lo i)) with (S (Z.to_nat (hi - Z.max lo (i + 1)))) by lia.
    done.
  - replace (Z.to_nat (hi - Z.max lo (i + 1))) with 0%nat by lia.
    replace (Z.to_nat (hi - Z.max lo i)) with 0%nat by lia.
    done.
  - replace (Z.to_nat (lo - i)) with (S (Z.to_nat (lo - (i + 1)))) by lia.
    by replace (Z.max lo (i + 1)) with (Z.max lo i) by lia.
  - replace (Z.to_nat (hi - Z.max lo (i + 1))) with 0%nat by lia.
    replace (Z.to_nat (hi - Z.max lo i)) with 0%nat by lia.
    done.
Qed.

(** From a non-negative start, [slice] returns the interval of indices. *)
Lemma Array_slice_window l (lo hi : Z) :
  0 ≤ lo → lo ≤ hi → Array_slice l lo hi = index_window l 0 lo hi.
Proof.
  intros Hlo Hhi. rewrite Array_slice_nonneg, index_window_eq by done.
  by rewrite Z.max_l, Z.sub_0_r by lia.
Qed.

(** Whatever the bounds, [slice] returns a run of consecutive elements. *)
Lemma Array_slice_run l (lo hi : Z) :
  ∃ k n, Array_slice l lo hi = take n (drop k l).
Proof. unfold Array_slice. eauto. Qed.

Lemma Array_slice_length l (lo hi : Z) :
  lo ≤ hi → Z.of_nat (length (Array_slice l lo hi)) ≤ hi - lo.
Proof.
  intros Hhi. unfold Array_slice. rewrite length_take.
  destruct (Z.ltb_spec lo 0); destruct (Z.ltb_spec hi 0); lia.
Qed.

Lemma index_window_beyond l (lo hi : Z) :
  Z.of_nat (length l) ≤ lo → index_window l 0 lo hi = [].
Proof.
  intros Hlo. rewrite index_window_eq, drop_ge by lia. by rewrite take_nil.
Qed.

(** Every position of the array lies on exactly the page that its
    index selects. *)
Lemma Array_slice_page l (i : nat) x (size : Z) :
  1 ≤ size → l !! i = Some x →
  x ∈ Array_slice l (Z.of_nat i / size * size) (Z.of_nat i / size * size + size).
Proof.
  intros Hsize Hi.
  pose proof (Z.div_pos (Z.of_nat i) size ltac:(lia) ltac:(lia)) as Hq.
  pose proof (Z.mul_div_le (Z.of_nat i) size ltac:(lia)) as Hle.
  pose proof (Z.mul_succ_div_gt (Z.of_nat i) size ltac:(lia)) as Hgt.
  rewrite Array_slice_nonneg by nia.
  apply elem_of_take. exists (i - Z.to_nat (Z.of_nat i / size * size))%nat.
  rewrite lookup_drop. split; [|nia].
  rewrite <-Hi. f_equal. nia.
Qed.

Lemma Array_slice_subseteq l (lo hi : Z) : Array_slice l lo hi ⊆ l.
Proof.
  destruct (Array_slice_run l lo hi) as (k & n & ->).
  etrans; [apply subseteq_take|apply subseteq_drop].
Qed.

Variable compare : A → A → Z.

Lemma sort_insert_perm x l : sort_insert compare x l ≡ₚ x :: l.
Proof.
  induction l as [|y l IH]; simpl; [done|].
  destruct (compare x y <=? 0); [done|]. by rewrite IH, Permutation_swap.
Qed.

Lemma Array_sort_perm l : Array_sort compare l ≡ₚ l.
Proof.
  induction l as [|x l IH]; simpl; [done|]. by rewrite sort_insert_perm, IH.
Qed.

Lemma Array_sort_length l : length (Array_sort compare l) = length l.
Proof. by rewrite Array_sort_perm. Qed.

(** When [compare] agrees with a transitive relation on the elements
    that satisfy [P], sorting such elements orders them by it. *)
Variables (P : A → Prop) (R : relation A).
Hypothesis R_trans : Transitive R.
Hypothesis compare_le : ∀ x y, P x → P y → compare x y ≤ 0 → R x y.
Hypothesis compare_gt : ∀ x y, P x → P y → 0 < compare x y → R y x.

Lemma sort_insert_sorted x l :
  P x → Forall P l → StronglySorted R l → StronglySorted R (sort_insert compare x l).
Proof.
  intros Px Pl Hs. induction Hs as [|y l Hs IH Hy]; simpl.
  { repeat constructor. }
  apply Forall_cons in Pl as [Py Pl].
  destruct (Z.leb_spec (compare x y) 0) as [Hc|Hc].
  - constructor; [by constructor|].
    constructor; [by apply compare_le|].
    eapply Forall_impl; [exact Hy|]. intros z Hz. etrans; [|exact Hz].
    by apply compare_le.
  - constructor; [by apply IH|].
    rewrite sort_insert_perm. constructor; [by apply compare_gt|done].
Qed.

Lemma Array_sort_sorted l : Forall P l → StronglySorted R (Array_sort compare l).
Proof.
  induction l as [|x l IH]; intros Pl; simpl; [constructor|].
  apply Forall_cons in Pl as [Px Pl].
  apply sort_insert_sorted; [done| |by apply IH].
  by rewrite Array_sort_perm.
Qed.

End Arrays.

(** ** Listing: pagination *)

Section Pages.

Variable rt : JsRuntime.

Lemma getTracks_loaded (q : QueryParams) (w w1 : World) (loaded : list Track) :
  loadTracks w = (Return loaded, w1) →
  getTracks rt q w = (Return (paginate q (applySort rt q (applyFilters rt q loaded))), w1).
Proof. intros E. unfold getTracks, try_catch, getTracks_try, bind. by rewrite E. Qed.

Lemma getTracks_not_loaded (q : QueryParams) (w w1 : World) (e : Error) :
  loadTracks w = (Throw e, w1) →
  getTracks rt q w = (Return {| tracks := []; total := 0 |}, w1).
Proof. intros E. unfold getTracks, try_catch, getTracks_try, bind. by rewrite E. Qed.

Lemma applySort_perm (q : QueryParams) (ts : list Track) : applySort rt q ts ≡ₚ ts.
Proof. unfold applySort. destruct (sort q); apply Array_sort_perm. Qed.

(** C10.  A page of 0 is served as page 1 and as an absent page; a limit
    of 0 is served as limit 10 and as an absent limit.  With limit 0 no
    page is longer than 10 records, and the first page holds the first
    10 records of the filtered, sorted sequence. *)
Theorem zero_page_and_limit_default (q : QueryParams) (w : World) :
  getTracks rt (with_page (Some 0) q) w = getTracks rt (with_page (Some 1) q) w ∧
  getTracks rt (with_page (Some 0) q) w = getTracks rt (with_page None q) w ∧
  getTracks rt (with_limit (Some 0) q) w = getTracks rt (with_limit (Some 10) q) w ∧
  getTracks rt (with_limit (Some 0) q) w = getTracks rt (with_limit None q) w ∧
  (∀ r w', getTracks rt (with_limit (Some 0) q) w = (Return r, w') →
           (length (tracks r) ≤ 10)%nat) ∧
  (∀ loaded w1, loadTracks w = (Return loaded, w1) →
     numberOr (page q) 1 = 1 →
     getTracks rt (with_limit (Some 0) q) w =
       (Return {| tracks := take 10 (applySort rt q (applyFilters rt q loaded));
                  total := length (applyFilters rt q loaded) |}, w1)).
Proof.
  split_and!; try reflexivity.
  - intros r w'. destruct (loadTracks w) as [[loaded|e] w1] eqn:E.
    + rewrite (getTracks_loaded _ _ _ _ E). intros [= <- _]. simpl.
      pose proof (Array_slice_length
                    (applySort rt (with_limit (Some 0) q)
                       (applyFilters rt (with_limit (Some 0) q) loaded))
                    ((numberOr (page q) 1 - 1) * 10)
                    ((numberOr (page q) 1 - 1) * 10 + 10)). lia.
    + rewrite (getTracks_not_loaded _ _ _ _ E). intros [= <- _]. simpl. lia.
  - intros loaded w1 E P1. rewrite (getTracks_loaded _ _ _ _ E).
    unfold paginate. simpl. rewrite P1. simpl.
    rewrite Array_slice_nonneg by lia. simpl.
    change (applySort rt (with_limit (Some 0) q)) with (applySort rt q).
    change (applyFilters rt (with_limit (Some 0) q)) with (applyFilters rt q).
    by rewrite (Permutation_length (applySort_perm _ _)).
Qed.

(** C2 (amended).  For a query whose page and limit are whole numbers
    and, once 0 or absent has been replaced by 1 and 10, at least 1: the
    loaded records
    are filtered, the filtered ones sorted, the sorted ones paginated;
    the total is the filtered count; the page is the interval of the
    sorted sequence; a page past the end is empty and no error. *)
Theorem getTracks_pages (q : QueryParams) (w : World) :
  1 ≤ numberOr (page q) 1 → 1 ≤ numberOr (limit q) 10 →
  pages_as_stated rt q w ∧
  (∀ loaded w1 r w', loadTracks w = (Return loaded, w1) →
     applySort rt q (applyFilters rt q loaded) ≡ₚ applyFilters rt q loaded ∧
     (getTracks rt q w = (Return r, w') →
      Z.of_nat (total r) ≤ (numberOr (page q) 1 - 1) * numberOr (limit q) 10 →
      tracks r = [])).
Proof.
  intros Hp Hl. split.
  - intros loaded w1 E. cbv zeta. rewrite (getTracks_loaded _ _ _ _ E).
    eexists. split; [reflexivity|]. unfold paginate. simpl. split.
    + by rewrite (Permutation_length (applySort_perm _ _)).
    + apply Array_slice_window; nia.
  - intros loaded w1 r w' E. split; [apply applySort_perm|].
    rewrite (getTracks_loaded _ _ _ _ E). intros [= <- _]. simpl. intros Hout.
    rewrite Array_slice_window by nia. by apply index_window_beyond.
Qed.

End Pages.

(** C2 as stated fails for a negative page: [slice] then counts from
    the end of the array, and page -1 with limit 1 over three records
    returns the middle one, where the interval [-2, -1) holds no index. *)
Lemma pages_as_stated_counterexample :
  ¬ pages_as_stated asciiRuntime
      {| page := Some (-1); limit := Some 1; sort := Some ByTitle; order := Some Asc;
         search := None; genre := None; q_artist := None |}
      (Sample.world []).
Proof.
  intros H.
  destruct (loadTracks (Sample.world [])) as [[loaded|e] w1] eqn:L;
    pose proof L as L'; vm_compute in L'; [|discriminate L'].
  injection L' as <- <-.
  destruct (H _ _ L) as (r & E & _ & T).
  vm_compute in E. injection E as <-. vm_compute in T. discriminate T.
Qed.

(** The same call, evaluated: the one record returned is the second of
    the three in title order. *)
Lemma negative_page_returns_records :
  getTracks asciiRuntime
    {| page := Some (-1); limit := Some 1; sort := Some ByTitle; order := Some Asc;
       search := None; genre := None; q_artist := None |}
    (Sample.world []) =
  (Return {| tracks := [Sample.t1]; total := 3 |}, Sample.scanned).
Proof. by vm_compute. Qed.

(** A negative limit does the same from the other end: page 1 with
    limit -1 returns all records but the last, where the interval
    [0, -1) is empty. *)
Lemma negative_limit_returns_records :
  getTracks asciiRuntime
    {| page := None; limit := Some (-1); sort := Some ByTitle; order := Some Asc;
       search := None; genre := None; q_artist := None |}
    (Sample.world []) =
  (Return {| tracks := [Sample.t2; Sample.t1]; total := 3 |}, Sample.scanned).
Proof. by vm_compute. Qed.

Lemma getTracks_pages_witness :
  1 ≤ numberOr (page (with_limit (Some 2) (with_page (Some 2) (by_title (Some Asc))))) 1 ∧
  1 ≤ numberOr (limit (with_limit (Some 2) (with_page (Some 2) (by_title (Some Asc))))) 10 ∧
  getTracks asciiRuntime (with_limit (Some 2) (with_page (Some 2) (by_title (Some Asc))))
    (Sample.world []) =
    (Return {| tracks := [Sample.t3]; total := 3 |}, Sample.scanned).
Proof.
  set (q := with_limit (Some 2) (with_page (Some 2) (by_title (Some Asc)))).
  assert (1 ≤ numberOr (page q) 1) as Hp by (vm_compute; discriminate).
  assert (1 ≤ numberOr (limit q) 10) as Hl by (vm_compute; discriminate).
  split; [exact Hp|]. split; [exact Hl|].
  destruct (getTracks_pages asciiRuntime q (Sample.world []) Hp Hl) as [Hpages _].
  destruct (Hpages _ _ sample_scan) as ([page0 total0] & E & T & P).
  rewrite E. vm_compute in T. vm_compute in P. cbn [tracks total] in T, P.
  by rewrite T, P.
Defined.

(** ** Listing: filters *)

Section Substrings.

Lemma startsWith_spec (s p : string) :
  Str.startsWith s p = true ↔ ∃ post, s = p +:+ post.
Proof.
  revert s. induction p as [|c p IH]; intros s.
  - split; [|by destruct s]. intros _. by exists s.
  - destruct s as [|d s]; simpl.
    + split; [done|]. intros [post E]. by rewrite append_cons in E.
    + destruct (Ascii.eqb_spec c d) as [->|Hne].
      * rewrite IH. split; intros [post E]; exists post.
        -- by rewrite append_cons, E.
        -- rewrite append_cons in E. by injection E.
      * split; [done|]. intros [post E]. rewrite append_cons in E. by injection E.
Qed.

Lemma includes_spec (s sub : string) :
  Str.includes s sub = true ↔ ∃ pre post, s = pre +:+ sub +:+ post.
Proof.
  induction s as [|c s IH].
  - cbn [Str.includes]. rewrite orb_false_r, startsWith_spec. split.
    + intros [post E]. by exists "", post.
    + intros ([|d pre] & post & E); [by exists post|]. by rewrite append_cons in E.
  - cbn [Str.includes]. rewrite orb_true_iff, startsWith_spec, IH. split.
    + intros [[post E]|(pre & post & E)].
      * by exists "", post.
      * exists (String c pre), post. by rewrite append_cons, E.
    + intros ([|d pre] & post & E).
      * left. by exists post.
      * right. rewrite append_cons in E. injection E as -> E. by exists pre, post.
Qed.

Lemma includes_empty_l (sub : string) : sub ≠ "" → Str.includes "" sub = false.
Proof. by destruct sub. Qed.

Lemma endsWith_append (a suf : string) : Str.endsWith (a +:+ suf) suf = true.
Proof.
  induction a as [|c a IH].
  - change ("" +:+ suf) with suf. destruct suf; simpl; [done|].
    by rewrite Ascii.eqb_refl, String.eqb_refl.
  - rewrite append_cons. cbn [Str.endsWith]. by rewrite IH, orb_true_r.
Qed.

End Substrings.

Section Filters.

Variable rt : JsRuntime.
Hypothesis lawful : lowercase_lawful rt.

Lemma matches_contains (term field : string) :
  Str.includes (toLowerCase rt field) (toLowerCase rt term) = true ↔ ci_contains rt term field.
Proof. apply includes_spec. Qed.

Lemma contains_empty_field (term : string) : term ≠ "" → ¬ ci_contains rt term "".
Proof.
  intros Hne (pre & post & E).
  rewrite (proj2 (lawful "") eq_refl) in E.
  destruct pre as [|c pre]; [|by rewrite append_cons in E].
  change ("" +:+ toLowerCase rt term +:+ post) with (toLowerCase rt term +:+ post) in E.
  destruct (toLowerCase rt term) eqn:Hl; [|by rewrite append_cons in E].
  by apply (proj1 (lawful term)) in Hl.
Qed.

Lemma matchesSearch_spec (s : string) (t : Track) :
  s ≠ "" →
  matchesSearch rt (toLowerCase rt s) t = true ↔
    ci_contains rt s (title t) ∨ ci_contains rt s (artist t) ∨
    ∃ a, album t = Some a ∧ ci_contains rt s a.
Proof.
  intros Hs. unfold matchesSearch.
  rewrite !orb_true_iff, !matches_contains.
  enough (match album t with
          | Some a => negb (String.eqb a "") &&
                      Str.includes (toLowerCase rt a) (toLowerCase rt s)
          | None => false
          end = true ↔ ∃ a, album t = Some a ∧ ci_contains rt s a) as ->
    by tauto.
  destruct (album t) as [a|].
  - rewrite andb_true_iff, negb_true_iff, matches_contains. split.
    + intros [_ H]. eauto.
    + intros (a' & [= <-] & H). split; [|done].
      destruct (String.eqb_spec a "") as [->|]; [|done].
      by apply contains_empty_field in H.
  - split; [done|]. by intros (a & ? & _).
Qed.

Lemma hasGenre_spec (g : string) (t : Track) : hasGenre g t = true ↔ g ∈ genres t.
Proof.
  unfold hasGenre. rewrite existsb_exists. split.
  - intros (x & Hin & ->%String.eqb_eq). by apply list_elem_of_In.
  - intros Hin. exists g. split; [by apply list_elem_of_In|apply String.eqb_refl].
Qed.

Lemma elem_of_List_filter (f : Track → bool) (t : Track) (ts : list Track) :
  t ∈ List.filter f ts ↔ t ∈ ts ∧ f t = true.
Proof. by rewrite !list_elem_of_In, filter_In. Qed.

Lemma truthy_Some (s : string) : Str.truthy (Some s) = true ↔ s ≠ "".
Proof. simpl. rewrite negb_true_iff. by destruct (String.eqb_spec s ""). Qed.

(** One filter step: absent, or present and falsy, or present and applied. *)
Ltac filter_absent :=
  split; [intros ?; split; [done|by intros ? [=]]|by intros [? _]].
Ltac filter_skipped T :=
  apply not_true_iff_false in T; rewrite truthy_Some in T;
  split; [intros ?; split; [done|by intros ? [= <-] ?]|by intros [? _]].
Ltac filter_applied :=
  split; [intros [? ?]; split; [done|by intros ? [= <-] _]|intros [? H]; split; [done|by apply H]].

(** The three filters pass exactly the records that satisfy every
    non-empty filter of the query. *)
Lemma applyFilters_spec (q : QueryParams) (ts : list Track) (t : Track) :
  t ∈ applyFilters rt q ts ↔ t ∈ ts ∧ satisfies rt nonempty q t.
Proof.
  unfold applyFilters, satisfies, nonempty.
  assert (t ∈ filterBySearch rt q ts ↔
          t ∈ ts ∧ ∀ s, search q = Some s → s ≠ "" →
            ci_contains rt s (title t) ∨ ci_contains rt s (artist t) ∨
            ∃ a, album t = Some a ∧ ci_contains rt s a) as Hsearch.
  { unfold filterBySearch. destruct (search q) as [s|]; [|filter_absent].
    destruct (Str.truthy (Some s)) eqn:T; [|filter_skipped T].
    apply truthy_Some in T. rewrite elem_of_List_filter, matchesSearch_spec by done.
    filter_applied. }
  assert (∀ l, t ∈ filterByGenre q l ↔
          t ∈ l ∧ ∀ g, genre q = Some g → g ≠ "" → g ∈ genres t) as Hgenre.
  { intros l. unfold filterByGenre. destruct (genre q) as [g|]; [|filter_absent].
    destruct (Str.truthy (Some g)) eqn:T; [|filter_skipped T].
    apply truthy_Some in T. rewrite elem_of_List_filter, hasGenre_spec.
    filter_applied. }
  assert (∀ l, t ∈ filterByArtist rt q l ↔
          t ∈ l ∧ ∀ a, q_artist q = Some a → a ≠ "" → ci_contains rt a (artist t))
    as Hartist.
  { intros l. unfold filterByArtist. destruct (q_artist q) as [a|]; [|filter_absent].
    destruct (Str.truthy (Some a)) eqn:T; [|filter_skipped T].
    apply truthy_Some in T. rewrite elem_of_List_filter. unfold matchesArtist.
    rewrite matches_contains. filter_applied. }
  rewrite Hartist, Hgenre, Hsearch. tauto.
Qed.

End Filters.

Section Loading.

Lemma readTrackFiles_calm (files : list string) (w : World) :
  calm w = true →
  (∀ f, f ∈ files → Str.endsWith f ".json" = true → ∃ t, tracksDir w !! f = Some (Doc t)) →
  ∃ w', readTrackFiles files w = (Return (omap (entry_record (tracksDir w)) files), w') ∧
        calm w' = true ∧ tracksDir w' = tracksDir w.
Proof.
  revert w. induction files as [|f files IH]; intros w C Hdocs; simpl.
  { by eexists. }
  assert (∀ f', f' ∈ files → Str.endsWith f' ".json" = true →
                ∃ t, tracksDir (advance w) !! f' = Some (Doc t)) as Hrest.
  { intros f' Hin. apply Hdocs. by right. }
  unfold entry_record at 1.
  destruct (Str.endsWith f ".json") eqn:Hjson.
  - destruct (Hdocs f) as [t L]; [by left|done|].
    unfold bind at 1. rewrite readFile_track_eq, calm_fails, L by done. simpl.
    unfold bind, ret.
    destruct (IH (advance w) (calm_advance w C) Hrest) as (w' & -> & C' & D).
    by exists w'.
  - destruct (IH w C) as (w' & -> & C' & D); [|by exists w'].
    intros f' Hin. apply Hdocs. by right.
Qed.

Lemma readable_docs (w : World) (f : string) (c : TrackFile) :
  readable w = true → tracksDir w !! f = Some c → Str.endsWith f ".json" = true →
  ∃ t, c = Doc t.
Proof.
  unfold readable. rewrite forallb_forall. intros Hall L Hjson.
  specialize (Hall (f, c)). simpl in Hall. rewrite Hjson in Hall. simpl in Hall.
  destruct c as [t|raw]; [by exists t|].
  discriminate Hall. apply list_elem_of_In. by apply elem_of_map_to_list.
Qed.

(** In a healthy store the scan returns the stored records. *)
Lemma loadTracks_healthy (w : World) :
  healthy w →
  ∃ loaded w1, loadTracks w = (Return loaded, w1) ∧ ∀ t, t ∈ loaded ↔ stored w t.
Proof.
  intros [C Hr]. rewrite loadTracks_eq, calm_fails by done.
  destruct (readTrackFiles_calm (map_to_list (tracksDir w)).*1 (advance w))
    as (w1 & E & _ & _).
  { by apply calm_advance. }
  { intros f [[f' c] [-> Hin]]%list_elem_of_fmap Hjson. simpl in *.
    apply elem_of_map_to_list in Hin.
    destruct (readable_docs w f' c Hr Hin Hjson) as [t ->]. by exists t. }
  eexists _, w1. split; [exact E|]. intros t.
  rewrite list_elem_of_omap. unfold stored, entry_record. split.
  - intros (f & Hin & Hrec). exists f.
    destruct (Str.endsWith f ".json"); [|done]. split; [done|].
    change (tracksDir (advance w)) with (tracksDir w) in Hrec.
    by destruct (tracksDir w !! f) as [[t'|raw]|]; simplify_eq/=.
  - intros (f & Hjson & L). exists f. split.
    + apply list_elem_of_fmap. exists (f, Doc t). split; [done|].
      by apply elem_of_map_to_list.
    + rewrite Hjson. change (tracksDir (advance w)) with (tracksDir w). by rewrite L.
Qed.

End Loading.

Section FilterRule.

Variable rt : JsRuntime.

Lemma numberOr_positive (p d : Z) : 1 ≤ p → numberOr (Some p) d = p.
Proof. intros Hp. destruct p; simpl; lia. Qed.

(** C3 (amended).  In a healthy store, for a query with a positive
    limit: a record is returned on some page if and only if it is stored
    and satisfies every filter supplied as a non-empty string, where
    search matches case-insensitively in title, artist or album, genre
    is membership among the genres, and artist matches
    case-insensitively in the artist.  A filter given as the empty
    string is not applied. *)
Theorem getTracks_filters (q : QueryParams) (w : World) :
  lowercase_lawful rt → healthy w → 1 ≤ numberOr (limit q) 10 →
  filter_rule rt nonempty q w.
Proof.
  intros Hlaw Hw Hl t.
  destruct (loadTracks_healthy w Hw) as (loaded & w1 & E & Hstored).
  rewrite <-Hstored, <-(applyFilters_spec rt Hlaw), <-(applySort_perm rt q).
  set (sorted := applySort rt q (applyFilters rt q loaded)).
  unfold appears. split.
  - intros (p & r & w' & Hp & G & Hin).
    rewrite (getTracks_loaded rt _ _ _ _ E) in G. injection G as <- _.
    by apply (Array_slice_subseteq sorted) in Hin.
  - intros (i & Hi)%list_elem_of_lookup.
    exists (Z.of_nat i / numberOr (limit q) 10 + 1). eexists _, w1.
    assert (0 ≤ Z.of_nat i / numberOr (limit q) 10) by (apply Z.div_pos; lia).
    split; [lia|]. split; [by apply getTracks_loaded|].
    unfold paginate. cbn [tracks page limit with_page].
    rewrite numberOr_positive by lia.
    replace (Z.of_nat i / numberOr (limit q) 10 + 1 - 1)
      with (Z.of_nat i / numberOr (limit q) 10) by lia.
    by apply Array_slice_page.
Qed.

End FilterRule.

Lemma ascii_lowercase_lawful : lowercase_lawful asciiRuntime.
Proof. intros [|c s]; split; done. Qed.

(** C3 as stated fails for a filter supplied as the empty string:
    [genre = ""] is skipped by the guard [if (params.genre)], so a
    record whose genres do not contain [""] is returned all the same. *)
Lemma filter_rule_counterexample :
  ¬ filter_rule asciiRuntime (λ _, True)
      {| page := None; limit := None; sort := None; order := None;
         search := None; genre := Some ""; q_artist := None |}
      (Sample.world []).
Proof.
  intros H. destruct (H Sample.t1) as [Hto _].
  destruct Hto as (_ & _ & Hg & _).
  - exists 1.
    destruct (getTracks asciiRuntime _ (Sample.world [])) as [o w'] eqn:G.
    vm_compute in G. injection G as <- _.
    eexists _, w'. split; [lia|]. split; [reflexivity|].
    apply list_elem_of_In. vm_compute. tauto.
  - specialize (Hg "" eq_refl I). simpl in Hg.
    apply list_elem_of_singleton in Hg. discriminate Hg.
Qed.

Lemma getTracks_filters_witness :
  lowercase_lawful asciiRuntime ∧
  healthy (Sample.world []) ∧
  1 ≤ numberOr (limit SampleRequest.filtered) 10 ∧
  filter_rule asciiRuntime nonempty SampleRequest.filtered (Sample.world []) ∧
  getTracks asciiRuntime SampleRequest.filtered (Sample.world []) =
    (Return {| tracks := [Sample.t1]; total := 1 |}, Sample.scanned).
Proof.
  assert (1 ≤ numberOr (limit SampleRequest.filtered) 10) as Hl by (vm_compute; discriminate).
  split; [exact ascii_lowercase_lawful|].
  split; [exact sample_healthy|]. split; [exact Hl|].
  split; [|vm_compute; reflexivity].
  exact (getTracks_filters asciiRuntime SampleRequest.filtered (Sample.world [])
           ascii_lowercase_lawful sample_healthy Hl).
Defined.

(** ** Listing: order *)

Section ThreeElements.

Context {A : Type}.
Implicit Types (x y z : A) (l : list A).

Lemma Permutation_three x y z l :
  l ≡ₚ [x; y; z] →
  l = [x; y; z] ∨ l = [x; z; y] ∨ l = [y; x; z] ∨
  l = [y; z; x] ∨ l = [z; x; y] ∨ l = [z; y; x].
Proof.
  intros (k1 & k2 & -> & Hrest)%Permutation_cons_inv_r.
  apply Permutation_length_2_inv in Hrest as [Hk|Hk];
    destruct k1 as [|a [|b [|c k1]]]; simplify_eq/=; tauto.
Qed.

(** Three elements that a comparator orders strictly come out of the
    sort in that order, whatever order they went in. *)
Lemma Array_sort_three (compare : A → A → Z) x y z l :
  compare x y ≤ 0 → compare y z ≤ 0 → compare x z ≤ 0 →
  0 < compare y x → 0 < compare z y → 0 < compare z x →
  l ≡ₚ [x; y; z] → Array_sort compare l = [x; y; z].
Proof.
  intros Hxy Hyz Hxz Hyx Hzy Hzx Hl.
  apply Z.leb_le in Hxy, Hyz, Hxz. apply Z.leb_gt in Hyx, Hzy, Hzx.
  destruct (Permutation_three x y z l Hl) as [-> | [-> | [-> | [-> | [-> | ->]]]]];
    repeat (simpl; first [rewrite Hxy | rewrite Hyz | rewrite Hxz
                         | rewrite Hyx | rewrite Hzy | rewrite Hzx]);
    reflexivity.
Qed.

Lemma StronglySorted_lookup (R : relation A) l (i j : nat) x y :
  StronglySorted R l → (i < j)%nat → l !! i = Some x → l !! j = Some y → R x y.
Proof.
  intros Hs. revert i j. induction Hs as [|a l Hs IH Ha]; intros i j Hij Hi Hj; [done|].
  destruct j as [|j]; [lia|]. destruct i as [|i]; simplify_eq/=.
  - rewrite Forall_forall in Ha. apply Ha. by eapply list_elem_of_lookup_2.
  - apply (IH i j); [lia|done..].
Qed.

End ThreeElements.

Section Order.

Variable rt : JsRuntime.

Lemma applyFilters_subseteq (q : QueryParams) (ts : list Track) :
  applyFilters rt q ts ⊆ ts.
Proof.
  assert (∀ (f : Track → bool) (l : list Track), List.filter f l ⊆ l) as Hf.
  { intros f l t. rewrite !list_elem_of_In, filter_In. tauto. }
  assert (∀ l, filterBySearch rt q l ⊆ l) as Hs.
  { intros l. unfold filterBySearch. destruct (search q) as [s|]; [|done].
    destruct (Str.truthy (Some s)); [apply Hf|done]. }
  assert (∀ l, filterByGenre q l ⊆ l) as Hg.
  { intros l. unfold filterByGenre. destruct (genre q) as [g|]; [|done].
    destruct (Str.truthy (Some g)); [apply Hf|done]. }
  assert (∀ l, filterByArtist rt q l ⊆ l) as Ha.
  { intros l. unfold filterByArtist. destruct (q_artist q) as [a|]; [|done].
    destruct (Str.truthy (Some a)); [apply Hf|done]. }
  unfold applyFilters. etrans; [apply Ha|]. etrans; [apply Hg|]. apply Hs.
Qed.

Lemma compareCreatedAt_dated (a b : Track) :
  dated rt a → dated rt b → compareCreatedAt rt a b = created_ms rt b - created_ms rt a.
Proof. unfold compareCreatedAt, created_ms. by intros [ta ->] [tb ->]. Qed.

(** The default order puts dated records newest first, and any run of
    consecutive records is then newest first as well. *)
Lemma default_order_newest_first (ts : list Track) (k n : nat) :
  Forall (dated rt) ts →
  newest_first rt (take n (drop k (Array_sort (compareCreatedAt rt) ts))).
Proof.
  intros Hd.
  pose proof (Array_sort_sorted (compareCreatedAt rt) (dated rt)
                (λ a b, created_ms rt b ≤ created_ms rt a)) as Hs.
  specialize (Hs ltac:(intros a b c ??; lia)
                 ltac:(intros a b ??; rewrite compareCreatedAt_dated by done; lia)
                 ltac:(intros a b ??; rewrite compareCreatedAt_dated by done; lia)
                 ts Hd).
  assert (Forall (dated rt) (Array_sort (compareCreatedAt rt) ts)) as Hd'
    by (by rewrite Array_sort_perm).
  intros i j a b Hij Ha Hb.
  apply lookup_take_Some in Ha as [Ha _]. apply lookup_take_Some in Hb as [Hb _].
  rewrite lookup_drop in Ha, Hb.
  pose proof (StronglySorted_lookup _ _ (k + i) (k + j) a b Hs ltac:(lia) Ha Hb) as Hab.
  rewrite Forall_forall in Hd'.
  destruct (Hd' a) as [ta Hta]; [by eapply list_elem_of_lookup_2|].
  destruct (Hd' b) as [tb Htb]; [by eapply list_elem_of_lookup_2|].
  exists ta, tb. unfold created_ms in Hab. rewrite Hta, Htb in Hab. simpl in Hab.
  by split_and!.
Qed.

(** C4.  Where the collation puts ["a"] before ["b"] before ["c"]: over
    three records with the titles ["b"], ["a"], ["c"], in whatever order
    the directory lists them, the query [sort=title, order=asc] returns
    them by title as a, b, c; so does an absent order; [order=desc]
    returns the reverse, c, b, a.  With [sort] unset, the filtered
    records, when dated, are put newest first and the page is cut from
    that sequence: a first page that holds them all is all of them,
    newest first. *)
Theorem getTracks_order :
  (∀ w w1 loaded tb ta tc,
     collates rt "a" "b" → collates rt "b" "c" → collates rt "a" "c" →
     loadTracks w = (Return loaded, w1) → loaded ≡ₚ [tb; ta; tc] →
     title tb = "b" → title ta = "a" → title tc = "c" →
     getTracks rt (by_title (Some Asc)) w =
       (Return {| tracks := [ta; tb; tc]; total := 3 |}, w1) ∧
     getTracks rt (by_title None) w =
       (Return {| tracks := [ta; tb; tc]; total := 3 |}, w1) ∧
     getTracks rt (by_title (Some Desc)) w =
       (Return {| tracks := rev [ta; tb; tc]; total := 3 |}, w1)) ∧
  (∀ q w w1 loaded,
     sort q = None →
     loadTracks w = (Return loaded, w1) → Forall (dated rt) loaded →
     ∃ r sorted,
       getTracks rt q w = (Return r, w1) ∧
       sorted ≡ₚ applyFilters rt q loaded ∧ newest_first rt sorted ∧
       total r = length sorted ∧
       tracks r =
         Array_slice sorted ((numberOr (page q) 1 - 1) * numberOr (limit q) 10)
           ((numberOr (page q) 1 - 1) * numberOr (limit q) 10 + numberOr (limit q) 10) ∧
       newest_first rt (tracks r) ∧
       (numberOr (page q) 1 = 1 → Z.of_nat (length sorted) ≤ numberOr (limit q) 10 →
        tracks r = sorted)).
Proof.
  split.
  - intros w w1 loaded tb ta tc [Hab Hba] [Hbc Hcb] [Hac Hca] E Hl Tb Ta Tc.
    assert (Array_sort (compareByField rt ByTitle Asc) loaded = [ta; tb; tc]) as Hasc.
    { apply Array_sort_three; unfold compareByField; simpl;
        rewrite ?Ta, ?Tb, ?Tc; try lia.
      rewrite Hl. apply Permutation_swap. }
    assert (Array_sort (compareByField rt ByTitle Desc) loaded = [tc; tb; ta]) as Hdesc.
    { apply Array_sort_three; unfold compareByField; simpl;
        rewrite ?Ta, ?Tb, ?Tc; try lia.
      rewrite Hl. etrans; [apply perm_skip, Permutation_swap|]. apply Permutation_swap. }
    rewrite !(getTracks_loaded rt _ _ _ _ E).
    unfold paginate, applySort, applyFilters, filterByArtist, filterByGenre, filterBySearch.
    simpl. rewrite Hasc, Hdesc. done.
  - intros q w w1 loaded Hq E Hd. rewrite (getTracks_loaded rt _ _ _ _ E).
    assert (Forall (dated rt) (applyFilters rt q loaded)) as Hf.
    { rewrite Forall_forall in Hd |- *. intros t Ht. apply Hd.
      by apply applyFilters_subseteq in Ht. }
    set (sorted := Array_sort (compareCreatedAt rt) (applyFilters rt q loaded)).
    assert (applySort rt q (applyFilters rt q loaded) = sorted) as Hs
      by (unfold applySort; by rewrite Hq).
    exists (paginate q sorted), sorted. rewrite Hs.
    split; [reflexivity|]. split; [apply Array_sort_perm|]. split.
    { pose proof (default_order_newest_first (applyFilters rt q loaded) 0
                    (length sorted) Hf) as N.
      fold sorted in N. by rewrite drop_0, firstn_all in N. }
    split; [reflexivity|]. split; [reflexivity|]. split.
    + unfold paginate. cbn [tracks].
      destruct (Array_slice_run sorted
                  ((numberOr (page q) 1 - 1) * numberOr (limit q) 10)
                  ((numberOr (page q) 1 - 1) * numberOr (limit q) 10 + numberOr (limit q) 10))
        as (k & n & ->).
      by apply default_order_newest_first.
    + intros Hp Hl. unfold paginate. cbn [tracks]. rewrite Hp.
      rewrite Array_slice_nonneg by lia. rewrite drop_0. apply take_ge. lia.
Qed.

End Order.

Lemma ascii_collates_abc :
  collates asciiRuntime "a" "b" ∧ collates asciiRuntime "b" "c" ∧ collates asciiRuntime "a" "c".
Proof. by vm_compute. Qed.

Lemma getTracks_order_witness :
  (collates asciiRuntime "a" "b" ∧ collates asciiRuntime "b" "c" ∧
   collates asciiRuntime "a" "c") ∧
  [Sample.t3; Sample.t1; Sample.t2] ≡ₚ [Sample.t1; Sample.t2; Sample.t3] ∧
  Forall (dated asciiRuntime) [Sample.t3; Sample.t1; Sample.t2] ∧
  getTracks asciiRuntime (by_title (Some Asc)) (Sample.world []) =
    (Return {| tracks := [Sample.t2; Sample.t1; Sample.t3]; total := 3 |}, Sample.scanned) ∧
  getTracks asciiRuntime (by_title (Some Desc)) (Sample.world []) =
    (Return {| tracks := [Sample.t3; Sample.t1; Sample.t2]; total := 3 |}, Sample.scanned) ∧
  getTracks asciiRuntime noParams (Sample.world []) =
    (Return {| tracks := [Sample.t3; Sample.t2; Sample.t1]; total := 3 |}, Sample.scanned) ∧
  newest_first asciiRuntime [Sample.t3; Sample.t2; Sample.t1].
Proof.
  destruct ascii_collates_abc as (Hab & Hbc & Hac).
  assert ([Sample.t3; Sample.t1; Sample.t2] ≡ₚ [Sample.t1; Sample.t2; Sample.t3]) as Hperm.
  { etrans; [apply Permutation_swap|]. apply perm_skip, Permutation_swap. }
  assert (Forall (dated asciiRuntime) [Sample.t3; Sample.t1; Sample.t2]) as Hdated.
  { repeat apply Forall_cons_2; [exists 3000|exists 1000|exists 2000|constructor];
      by vm_compute. }
  destruct (getTracks_order asciiRuntime) as [Htitle Hdefault].
  destruct (Htitle (Sample.world []) Sample.scanned [Sample.t3; Sample.t1; Sample.t2]
              Sample.t1 Sample.t2 Sample.t3 Hab Hbc Hac sample_scan Hperm
              eq_refl eq_refl eq_refl) as (Hasc & _ & Hdesc).
  destruct (Hdefault noParams (Sample.world []) Sample.scanned
              [Sample.t3; Sample.t1; Sample.t2] eq_refl sample_scan Hdated)
    as (r & sorted & E & _ & _ & _ & _ & N & _).
  assert (getTracks asciiRuntime noParams (Sample.world []) =
            (Return {| tracks := [Sample.t3; Sample.t2; Sample.t1]; total := 3 |},
             Sample.scanned)) as G by (vm_compute; reflexivity).
  assert (r = {| tracks := [Sample.t3; Sample.t2; Sample.t1]; total := 3 |}) as Hr
    by congruence.
  rewrite Hr in N. cbn [tracks] in N.
  split; [exact (conj Hab (conj Hbc Hac))|]. split; [exact Hperm|]. split; [exact Hdated|].
  split; [exact Hasc|]. split; [exact Hdesc|]. split; [exact G|exact N].
Defined.

Lemma zero_page_and_limit_default_witness :
  numberOr (page noParams) 1 = 1 ∧
  getTracks asciiRuntime (with_limit (Some 0) noParams) (Sample.world []) =
    (Return {| tracks := [Sample.t3; Sample.t2; Sample.t1]; total := 3 |}, Sample.scanned).
Proof.
  split; [reflexivity|].
  destruct (zero_page_and_limit_default asciiRuntime noParams (Sample.world []))
    as (_ & _ & _ & _ & _ & H).
  rewrite (H _ _ sample_scan eq_refl). by vm_compute.
Defined.

(** * Further properties of the code *)

(** ** Initialisation of the storage area *)

Section Initialisation.

Implicit Types (w : World).

Lemma fails_advance_n w (n k : nat) : fails k (Nat.iter n advance w) = fails (n + k) w.
Proof.
  revert k. induction n as [|n IH]; intros k; simpl; [done|].
  by rewrite fails_advance, IH, Nat.add_succ_r.
Qed.

Lemma fs_mkdir_eq (dir : string) w :
  fs_mkdir dir w = (if fails 0 w then Throw (EIO dir) else Return (), advance w).
Proof. unfold fs_mkdir, bind, fs_fault. by destruct (fails 0 w). Qed.

Lemma access_genres_eq w :
  access_genres w =
    (if fails 0 w then Throw (EIO "genres.json")
     else match genresFile w with
          | Some _ => Return ()
          | None => Throw (ENOENT "genres.json")
          end, advance w).
Proof.
  unfold access_genres, bind, fs_fault. destruct (fails 0 w); [done|].
  change (genresFile (advance w)) with (genresFile w). by destruct (genresFile w).
Qed.

Lemma writeFile_genres_eq (names : list string) w :
  writeFile_genres names w =
    if fails 0 w then (Throw (EIO "genres.json"), advance w)
    else (Return (), set_genresFile (Some (GenreList names)) (advance w)).
Proof. unfold writeFile_genres, bind, fs_fault. by destruct (fails 0 w). Qed.

(** The calls of [initializeDb] in order: two [mkdir], the access check,
    and the write of the defaults when the check did not succeed. *)
Lemma initializeDb_eq w :
  initializeDb w =
    if fails 0 w then (Throw (EIO "tracks"), Nat.iter 1 advance w)
    else if fails 1 w then (Throw (EIO "uploads"), Nat.iter 2 advance w)
    else if negb (fails 2 w) && bool_decide (is_Some (genresFile w))
    then (Return (), Nat.iter 3 advance w)
    else if fails 3 w then (Throw (EIO "genres.json"), Nat.iter 4 advance w)
    else (Return (), set_genresFile (Some (GenreList defaultGenres)) (Nat.iter 4 advance w)).
Proof.
  unfold initializeDb, try_catch, bind.
  rewrite fs_mkdir_eq. destruct (fails 0 w) eqn:F0; [reflexivity|].
  rewrite fs_mkdir_eq, fails_advance. destruct (fails 1 w) eqn:F1; [reflexivity|].
  rewrite access_genres_eq, !fails_advance.
  change (genresFile (advance (advance w))) with (genresFile w).
  assert (writeFile_genres defaultGenres (advance (advance (advance w))) =
          if fails 3 w then (Throw (EIO "genres.json"), Nat.iter 4 advance w)
          else (Return (), set_genresFile (Some (GenreList defaultGenres))
                             (Nat.iter 4 advance w))) as W.
  { rewrite writeFile_genres_eq, !fails_advance. by destruct (fails 3 w). }
  destruct (fails 2 w) eqn:F2; simpl.
  - rewrite W. by destruct (fails 3 w).
  - destruct (genresFile w) as [g|] eqn:G.
    + by rewrite bool_decide_true by eauto.
    + rewrite bool_decide_false by (by intros [? ?]). rewrite W. by destruct (fails 3 w).
Qed.

Lemma getGenres_eq w :
  getGenres w =
    (Return (if fails 0 w then []
             else match genresFile w with
                  | Some (GenreList names) => names
                  | _ => []
                  end), advance w).
Proof.
  unfold getGenres, try_catch, getGenres_try, readFile_genres, bind, fs_fault, throw.
  destruct (fails 0 w); [reflexivity|].
  change (genresFile (advance w)) with (genresFile w).
  destruct (genresFile w) as [[names|raw]|]; reflexivity.
Qed.

(** X1.  First start on an empty storage area: the catalogue is created and
    reads back as the default genres; records and assets are not touched. *)
Theorem initializeDb_bootstrap w :
  genresFile w = None →
  (∀ k, (k < 5)%nat → fails k w = false) →
  ∃ w1 w2,
    initializeDb w = (Return (), w1) ∧
    getGenres w1 = (Return defaultGenres, w2) ∧
    tracksDir w1 = tracksDir w ∧ uploadsDir w1 = uploadsDir w.
Proof.
  intros G F. rewrite initializeDb_eq, G, !F by lia.
  rewrite bool_decide_false by (by intros [? ?]). simpl.
  eexists _, _. split_and!; [reflexivity| |done..].
  rewrite getGenres_eq.
  change (fails 0 (set_genresFile ?g ?w')) with (fails 0 w').
  rewrite !fails_advance, F by lia. reflexivity.
Qed.

(** X2.  An existing catalogue survives [initializeDb] exactly when the
    access check goes through: if that check fails for any reason, the
    catalogue is replaced by the defaults. *)
Theorem initializeDb_existing_catalogue w (g : GenresFile) :
  genresFile w = Some g →
  fails 0 w = false → fails 1 w = false → fails 3 w = false →
  ∃ w1, initializeDb w = (Return (), w1) ∧
        genresFile w1 = (if fails 2 w then Some (GenreList defaultGenres) else Some g).
Proof.
  intros G F0 F1 F3. rewrite initializeDb_eq, G, F0, F1, F3.
  rewrite bool_decide_true by eauto.
  destruct (fails 2 w); simpl; by eexists.
Qed.

Lemma initializeDb_throws_iff w :
  (∃ e w1, initializeDb w = (Throw e, w1)) ↔
    fails 0 w = true ∨ fails 1 w = true ∨
    ((fails 2 w = true ∨ genresFile w = None) ∧ fails 3 w = true).
Proof.
  rewrite initializeDb_eq.
  destruct (fails 0 w); [split; [auto|by eauto]|].
  destruct (fails 1 w); [split; [auto|by eauto]|].
  destruct (fails 2 w); simpl.
  - destruct (fails 3 w); [split; [auto|by eauto]|].
    split; [by intros (? & ? & [=])|]. intros [?|[?|[_ ?]]]; done.
  - destruct (genresFile w) as [g|].
    + rewrite bool_decide_true by eauto.
      split; [by intros (? & ? & [=])|]. intros [?|[?|[[?|?] _]]]; done.
    + rewrite bool_decide_false by (by intros [? ?]).
      destruct (fails 3 w); [split; [auto|by eauto]|].
      split; [by intros (? & ? & [=])|]. intros [?|[?|[_ ?]]]; done.
Qed.

Lemma initializeDb_failure_changes_nothing w (e : Error) w1 :
  initializeDb w = (Throw e, w1) →
  tracksDir w1 = tracksDir w ∧ uploadsDir w1 = uploadsDir w ∧ genresFile w1 = genresFile w.
Proof.
  rewrite initializeDb_eq.
  repeat match goal with
         | |- context [if ?b then _ else _] => destruct b
         end; by intros [= <- <-].
Qed.

(** X3.  [initializeDb] rethrows: it ends in an error exactly when a [mkdir]
    fails or the defaults have to be written and cannot be, and then
    nothing in the storage area has changed. *)
Theorem initializeDb_rethrows w :
  ((∃ e w1, initializeDb w = (Throw e, w1)) ↔
     fails 0 w = true ∨ fails 1 w = true ∨
     ((fails 2 w = true ∨ genresFile w = None) ∧ fails 3 w = true)) ∧
  (∀ e w1, initializeDb w = (Throw e, w1) →
     tracksDir w1 = tracksDir w ∧ uploadsDir w1 = uploadsDir w ∧
     genresFile w1 = genresFile w).
Proof.
  split; [apply initializeDb_throws_iff|apply initializeDb_failure_changes_nothing].
Qed.

End Initialisation.

Lemma initializeDb_bootstrap_witness :
  genresFile (set_genresFile None (Sample.world [])) = None ∧
  ∃ w1 w2,
    initializeDb (set_genresFile None (Sample.world [])) = (Return (), w1) ∧
    getGenres w1 = (Return defaultGenres, w2) ∧
    tracksDir w1 = Sample.records ∧ uploadsDir w1 = Sample.assets.
Proof.
  split; [reflexivity|].
  apply (initializeDb_bootstrap (set_genresFile None (Sample.world []))); [reflexivity|].
  intros k _. by destruct k as [|[|[|[|[|k]]]]].
Defined.

Lemma initializeDb_existing_catalogue_witness :
  genresFile (Sample.world [false; false; true]) = Some (GenreList ["Rock"; "Pop"; "Jazz"]) ∧
  fails 2 (Sample.world [false; false; true]) = true ∧
  ∃ w1, initializeDb (Sample.world [false; false; true]) = (Return (), w1) ∧
        genresFile w1 = Some (GenreList defaultGenres).
Proof.
  split; [reflexivity|]. split; [reflexivity|].
  apply (initializeDb_existing_catalogue (Sample.world [false; false; true])
           (GenreList ["Rock"; "Pop"; "Jazz"])); reflexivity.
Defined.

(** ** Lookup by slug *)

Section BySlug.

Implicit Types (w : World) (t : Track).

Lemma readable_spec w :
  readable w = true ↔
  ∀ f c, tracksDir w !! f = Some c → Str.endsWith f ".json" = true → is_doc c = true.
Proof.
  unfold readable. rewrite forallb_forall. split.
  - intros H f c L J. specialize (H (f, c)). simpl in H. rewrite J in H. apply H.
    apply list_elem_of_In. by apply elem_of_map_to_list.
  - intros H [f c] Hin. simpl.
    apply list_elem_of_In, elem_of_map_to_list in Hin.
    destruct (Str.endsWith f ".json") eqn:J; [|done]. simpl. by apply (H f).
Qed.

Lemma readable_insert_doc w w' (f : string) t :
  readable w = true → tracksDir w' = <[f := Doc t]> (tracksDir w) → readable w' = true.
Proof.
  rewrite !readable_spec. intros H -> f' c L J.
  destruct (decide (f = f')) as [->|Hne].
  - rewrite lookup_insert_eq in L. by injection L as <-.
  - rewrite lookup_insert_ne in L by done. by apply (H f').
Qed.

Lemma readable_delete w w' (f : string) :
  readable w = true → tracksDir w' = delete f (tracksDir w) → readable w' = true.
Proof.
  rewrite !readable_spec. intros H -> f' c L J.
  apply lookup_delete_Some in L as [_ L]. by apply (H f').
Qed.

Lemma findBySlug_sound (slug0 : string) (files : list string) w t w' :
  findBySlug slug0 files w = (Return (Some t), w') →
  slug t = slug0 ∧
  ∃ f, f ∈ files ∧ Str.endsWith f ".json" = true ∧ tracksDir w !! f = Some (Doc t).
Proof.
  revert w. induction files as [|f files IH]; intros w; simpl; [by intros [=]|].
  destruct (Str.endsWith f ".json") eqn:J.
  - unfold bind at 1. rewrite readFile_track_eq.
    destruct (fails 0 w); [by intros [=]|].
    destruct (tracksDir w !! f) as [[t0|raw]|] eqn:L; simpl; [|by intros [=]..].
    unfold bind, ret. destruct (String.eqb_spec (slug t0) slug0) as [E|_].
    + intros [= <- _]. split; [done|]. exists f. split_and!; [by left|done..].
    + intros (? & f' & ? & ? & ?)%IH. split; [done|]. exists f'.
      split_and!; [by right|done..].
  - intros (? & f' & ? & ? & ?)%IH. split; [done|]. exists f'.
    split_and!; [by right|done..].
Qed.

(** X4.  Whatever the state of the storage, a record returned by
    [getTrackBySlug] carries the slug asked for and is a stored record. *)
Theorem getTrackBySlug_sound (slug0 : string) w t w' :
  getTrackBySlug slug0 w = (Return (Some t), w') → slug t = slug0 ∧ stored w t.
Proof.
  unfold getTrackBySlug, try_catch, getTrackBySlug_try, bind.
  rewrite readdir_tracks_eq. destruct (fails 0 w); [by intros [=]|].
  destruct (findBySlug slug0 _ (advance w)) as [[[t'|]|e] w1] eqn:E; try by intros [=].
  intros [= -> _]. apply findBySlug_sound in E as (? & f & _ & ? & ?).
  split; [done|]. by exists f.
Qed.

Lemma findBySlug_calm (slug0 : string) (files : list string) w :
  calm w = true →
  (∀ f, f ∈ files → Str.endsWith f ".json" = true → ∃ t, tracksDir w !! f = Some (Doc t)) →
  ∃ w', findBySlug slug0 files w =
          (Return (List.find (λ t, String.eqb (slug t) slug0)
                     (omap (entry_record (tracksDir w)) files)), w') ∧
        calm w' = true ∧ tracksDir w' = tracksDir w ∧ uploadsDir w' = uploadsDir w ∧
        genresFile w' = genresFile w ∧ clock w' = clock w ∧ lapse w' = lapse w.
Proof.
  revert w. induction files as [|f files IH]; intros w C Hdocs; simpl.
  { by eexists. }
  assert (∀ f', f' ∈ files → Str.endsWith f' ".json" = true →
                ∃ t, tracksDir (advance w) !! f' = Some (Doc t)) as Hrest.
  { intros f' Hin. apply Hdocs. by right. }
  unfold entry_record at 1.
  destruct (Str.endsWith f ".json") eqn:J.
  - destruct (Hdocs f) as [t L]; [by left|done|].
    unfold bind at 1. rewrite readFile_track_eq, calm_fails, L by done. simpl.
    unfold bind, ret.
    destruct (String.eqb (slug t) slug0).
    + eexists. split_and!; [reflexivity|by apply calm_advance|done..].
    + destruct (IH (advance w) (calm_advance w C) Hrest) as (w' & -> & ? & ? & ? & ? & ? & ?).
      by exists w'.
  - destruct (IH w C) as (w' & -> & ?); [|by exists w'].
    intros f' Hin. apply Hdocs. by right.
Qed.

(** In a healthy store the scan is decisive: it answers, leaves the
    store as it was, finds a stored record with the slug if there is
    one, and none only if there is none. *)
Lemma getTrackBySlug_healthy (slug0 : string) w :
  healthy w →
  ∃ r w', getTrackBySlug slug0 w = (Return r, w') ∧
    (∀ t, r = Some t → slug t = slug0 ∧ stored w t) ∧
    (r = None ↔ ∀ t, stored w t → slug t ≠ slug0) ∧
    healthy w' ∧ tracksDir w' = tracksDir w ∧ uploadsDir w' = uploadsDir w ∧
    genresFile w' = genresFile w ∧ clock w' = clock w ∧ lapse w' = lapse w.
Proof.
  intros [C Hr].
  destruct (findBySlug_calm slug0 (map_to_list (tracksDir w)).*1 (advance w))
    as (w' & E & C' & D & U & G & K & La).
  { by apply calm_advance. }
  { intros f [[f' c] [-> Hin]]%list_elem_of_fmap J. simpl in *.
    apply elem_of_map_to_list in Hin.
    destruct (readable_docs w f' c Hr Hin J) as [t ->]. by exists t. }
  assert (getTrackBySlug slug0 w =
          (Return (List.find (λ t, String.eqb (slug t) slug0)
                     (omap (entry_record (tracksDir w)) (map_to_list (tracksDir w)).*1)), w'))
    as Hget.
  { unfold getTrackBySlug, try_catch, getTrackBySlug_try, bind.
    by rewrite readdir_tracks_eq, calm_fails, E by done. }
  assert (∀ t, t ∈ omap (entry_record (tracksDir w)) (map_to_list (tracksDir w)).*1 ↔
               stored w t) as Hstored.
  { intros t. rewrite list_elem_of_omap. unfold stored, entry_record. split.
    - intros (f & Hin & Hrec). exists f.
      destruct (Str.endsWith f ".json"); [|done]. split; [done|].
      by destruct (tracksDir w !! f) as [[t'|raw]|]; simplify_eq/=.
    - intros (f & J & L). exists f. split.
      + apply list_elem_of_fmap. exists (f, Doc t). split; [done|].
        by apply elem_of_map_to_list.
      + by rewrite J, L. }
  eexists _, w'. split; [exact Hget|]. split_and!; try done.
  - intros t Hfind. apply find_some in Hfind as [Hin ->%String.eqb_eq].
    split; [done|]. by apply Hstored, list_elem_of_In.
  - split.
    + intros Hnone t Hst Hslug.
      pose proof (find_none _ _ Hnone t) as Hf.
      rewrite <-Hstored, list_elem_of_In in Hst. specialize (Hf Hst). simpl in Hf.
      by rewrite Hslug, String.eqb_refl in Hf.
    + intros Hno. destruct (List.find _ _) as [t|] eqn:Hfind; [|done].
      apply find_some in Hfind as [Hin Heq%String.eqb_eq].
      destruct (Hno t); [|done]. by apply Hstored, list_elem_of_In.
  - split; [done|]. apply readable_spec. intros f c. rewrite D.
    by apply readable_spec.
Qed.

(** X5.  In a healthy store [getTrackBySlug] answers not-found exactly when
    no stored record carries the slug. *)
Theorem getTrackBySlug_complete (slug0 : string) w :
  healthy w →
  ∃ r w', getTrackBySlug slug0 w = (Return r, w') ∧
          (r = None ↔ ∀ t, stored w t → slug t ≠ slug0).
Proof.
  intros H. destruct (getTrackBySlug_healthy slug0 w H) as (r & w' & E & _ & N & _).
  by exists r, w'.
Qed.

End BySlug.

Section CreateBySlug.

Variable rt : JsRuntime.

Lemma endsWith_trackFileName (id0 : string) : Str.endsWith (trackFileName id0) ".json" = true.
Proof. apply endsWith_append. Qed.

Lemma createTrack_healthy (d : TrackDraft) (w : World) :
  healthy w →
  ∃ w1, createTrack rt d w = (Return (drafted rt d w), w1) ∧ healthy w1 ∧
        tracksDir w1 =
          <[trackFileName (id (drafted rt d w)) := Doc (drafted rt d w)]> (tracksDir w) ∧
        uploadsDir w1 = uploadsDir w.
Proof.
  intros [C Hr]. rewrite createTrack_eq, calm_fails by done. cbv zeta.
  eexists. split; [reflexivity|]. split; [split|split].
  - change (calm (advance (tick (tick w))) = true).
    apply calm_advance. by rewrite !calm_tick.
  - by eapply (readable_insert_doc w).
  - done.
  - simpl. by rewrite !uploadsDir_tick.
Qed.

(** X6.  A record made by [createTrack] in a healthy store is found by its
    slug: [getTrackBySlug] on the slug of the draft returns a stored
    record with that slug. *)
Theorem createTrack_then_getTrackBySlug (d : TrackDraft) (w : World) :
  healthy w →
  ∃ t w1 r w2,
    createTrack rt d w = (Return t, w1) ∧
    getTrackBySlug (d_slug d) w1 = (Return (Some r), w2) ∧
    slug r = d_slug d ∧ stored w1 r.
Proof.
  intros H. destruct (createTrack_healthy d w H) as (w1 & E & H1 & D & _).
  destruct (getTrackBySlug_healthy (d_slug d) w1 H1) as (r & w2 & G & S & N & _).
  destruct r as [r|].
  - destruct (S r eq_refl). by exists (drafted rt d w), w1, r, w2.
  - destruct (proj1 N eq_refl (drafted rt d w)); [|done].
    exists (trackFileName (id (drafted rt d w))). split; [apply endsWith_trackFileName|].
    by rewrite D, lookup_insert_eq.
Qed.

End CreateBySlug.

Lemma getTrackBySlug_sound_witness :
  ∃ w', getTrackBySlug "a" (Sample.world []) = (Return (Some Sample.t2), w') ∧
        slug Sample.t2 = "a" ∧ stored (Sample.world []) Sample.t2.
Proof.
  exists (advance (advance (advance (advance (Sample.world []))))).
  assert (getTrackBySlug "a" (Sample.world []) =
          (Return (Some Sample.t2), advance (advance (advance (advance (Sample.world []))))))
    as E by (by vm_compute).
  split; [exact E|]. exact (getTrackBySlug_sound "a" _ _ _ E).
Defined.

Lemma getTrackBySlug_complete_witness :
  healthy (Sample.world []) ∧
  ∃ r w', getTrackBySlug "zzz" (Sample.world []) = (Return r, w') ∧
          (r = None ↔ ∀ t, stored (Sample.world []) t → slug t ≠ "zzz").
Proof.
  split; [exact sample_healthy|].
  exact (getTrackBySlug_complete "zzz" (Sample.world []) sample_healthy).
Defined.

Lemma createTrack_then_getTrackBySlug_witness :
  healthy (Sample.world []) ∧
  ∃ t w1 r w2,
    createTrack asciiRuntime Sample.draft (Sample.world []) = (Return t, w1) ∧
    getTrackBySlug (d_slug Sample.draft) w1 = (Return (Some r), w2) ∧
    slug r = d_slug Sample.draft ∧ stored w1 r.
Proof.
  split; [exact sample_healthy|].
  exact (createTrack_then_getTrackBySlug asciiRuntime Sample.draft (Sample.world [])
           sample_healthy).
Defined.

(** ** Updates, collisions and removal of records *)

Section Records.

Variable rt : JsRuntime.
Implicit Types (w : World) (t : Track) (u : TrackUpdates).

Lemma updateTrack_total (id0 : string) u w : ∃ r w', updateTrack rt id0 u w = (Return r, w').
Proof.
  rewrite updateTrack_eq.
  destruct (fails 0 w); [eauto|].
  destruct (parsed _); [|eauto]. cbv zeta. destruct (fails 1 w); eauto.
Qed.

(** X7.  An update that goes through returns the stored record with the
    supplied fields laid over it and the modification time set to the
    current time, whatever [updatedAt] the caller supplied, and
    [getTrackById] then returns that same record. *)
Theorem updateTrack_then_getTrackById (id0 : string) u w t :
  tracksDir w !! trackFileName id0 = Some (Doc t) →
  fails 0 w = false → fails 1 w = false → fails 2 w = false →
  ∃ t' w1 w2,
    updateTrack rt id0 u w = (Return (Some t'), w1) ∧
    getTrackById id0 w1 = (Return (Some t'), w2) ∧
    t' = mergeUpdates t u (toISOString rt (clock w)) ∧
    updatedAt t' = toISOString rt (clock w).
Proof.
  intros L F0 F1 F2. rewrite updateTrack_eq, F0, L. simpl. rewrite F1.
  eexists _, _, _. split; [reflexivity|]. split_and!; [|done..].
  rewrite getTrackById_eq.
  change (fails 0 (set_tracksDir ?m ?w')) with (fails 0 w').
  rewrite fails_advance, fails_tick, fails_advance, F2. simpl.
  by rewrite lookup_insert_eq.
Qed.

(** X8.  The three writes are local.  [createTrack] changes at most the
    file of the id it assigns, [updateTrack] with a plain id at most the
    file of that id, and neither an asset or the catalogue;
    [deleteTrack] with a plain id, on a record that names its asset by a
    plain name, changes at most the file of its id and that asset.
    This holds for every outcome. *)
Theorem writes_are_local :
  (∀ d w o w1 file,
     createTrack rt d w = (o, w1) → file ≠ trackFileName (pretty (clock w)) →
     tracksDir w1 !! file = tracksDir w !! file ∧ same_assets w w1) ∧
  (∀ id0 u w o w1 file,
     plainName id0 = true →
     updateTrack rt id0 u w = (o, w1) → file ≠ trackFileName id0 →
     tracksDir w1 !! file = tracksDir w !! file ∧ same_assets w w1) ∧
  (∀ id0 w o w1 file asset,
     plainName id0 = true →
     (∀ t f, tracksDir w !! trackFileName id0 = Some (Doc t) → audioFile t = Some f →
             plainName f = true) →
     deleteTrack id0 w = (o, w1) → file ≠ trackFileName id0 →
     (∀ t, tracksDir w !! trackFileName id0 = Some (Doc t) → audioFile t ≠ Some asset) →
     tracksDir w1 !! file = tracksDir w !! file ∧
     uploadsDir w1 !! asset = uploadsDir w !! asset ∧
     genresFile w1 = genresFile w).
Proof.
  split_and!.
  - intros d w o w1 file E Hne. rewrite createTrack_eq in E. cbv zeta in E.
    destruct (fails 0 w); injection E as <- <-; simpl;
      rewrite ?lookup_insert_ne by done; (split; [|split]);
      unfold tick, Date_now; simpl; by repeat destruct (lapse _).
  - intros id0 u w o w1 file _ E Hne. rewrite updateTrack_eq in E.
    destruct (fails 0 w); [by injection E as <- <-|].
    destruct (parsed _); [|by injection E as <- <-]. cbv zeta in E.
    destruct (fails 1 w); injection E as <- <-; simpl;
      rewrite ?lookup_insert_ne by done; (split; [|split]);
      unfold tick, Date_now; simpl; by destruct (lapse w).
  - intros id0 w o w1 file asset _ _ E Hne Hasset. rewrite deleteTrack_eq in E.
    destruct (fails 0 w); [by injection E as <- <-|].
    destruct (tracksDir w !! trackFileName id0) as [[t|raw]|] eqn:L; simpl in E;
      [|by injection E as <- <-..].
    destruct (fails 1 w); [by injection E as <- <-|].
    specialize (Hasset t eq_refl).
    destruct (Str.truthy (audioFile t)) eqn:T.
    + destruct (fails 2 w).
      * injection E as <- <-. simpl. by rewrite lookup_delete_ne.
      * destruct (uploadsDir w !! Str.orEmpty (audioFile t)) eqn:U;
          injection E as <- <-; simpl; rewrite lookup_delete_ne by done; [|done].
        split_and!; [done| |done]. apply lookup_delete_ne.
        destruct (audioFile t); simpl in *; congruence.
    + injection E as <- <-. simpl. by rewrite lookup_delete_ne.
Qed.

(** X9.  Ids come from the clock: when the clock shows the same millisecond
    at a second [createTrack], the second record takes the id and the
    file of the first, which is lost; when it shows another, both
    records are stored. *)
Theorem createTrack_id_collision (d1 d2 : TrackDraft) w :
  fails 0 w = false → fails 1 w = false →
  ∃ t1 w1 t2 w2,
    createTrack rt d1 w = (Return t1, w1) ∧
    createTrack rt d2 w1 = (Return t2, w2) ∧
    (id t1 = id t2 ↔ clock w1 = clock w) ∧
    (clock w1 = clock w →
       tracksDir w2 = <[trackFileName (id t1) := Doc t2]> (tracksDir w)) ∧
    (clock w1 ≠ clock w →
       tracksDir w2 !! trackFileName (id t1) = Some (Doc t1) ∧
       tracksDir w2 !! trackFileName (id t2) = Some (Doc t2)).
Proof.
  intros F0 F1. rewrite createTrack_eq, F0. cbv zeta.
  set (t1 := drafted rt d1 w).
  set (w1 := set_tracksDir _ (advance (tick (tick w)))).
  assert (fails 0 w1 = false) as F0'.
  { change (fails 0 (advance (tick (tick w))) = false).
    by rewrite fails_advance, !fails_tick. }
  exists t1, w1. rewrite createTrack_eq, F0'. cbv zeta.
  set (t2 := drafted rt d2 w1).
  eexists t2, _. split_and!; [reflexivity..| | |].
  - unfold t1, t2. simpl. split.
    + by intros ?%(inj pretty).
    + by intros ->.
  - intros Hc.
    change (<[trackFileName (id t2) := Doc t2]>
              (<[trackFileName (id t1) := Doc t1]> (tracksDir w)) =
            <[trackFileName (id t1) := Doc t2]> (tracksDir w)).
    change (id t2) with (pretty (clock w1)). rewrite Hc.
    change (pretty (clock w)) with (id t1). by rewrite insert_insert_eq.
  - intros Hc.
    assert (trackFileName (id t2) ≠ trackFileName (id t1)) as Hne.
    { intros E%trackFileName_inj. apply Hc. unfold t1, t2 in E. simpl in E.
      by apply (inj pretty) in E. }
    simpl. rewrite lookup_insert_ne, !lookup_insert_eq by done. done.
Qed.

(** X10.  Create, delete, look up, for a draft that names no asset
    through a path: in a store without failures the record is gone
    again and the tracks directory is what it was, less a file that
    stood under the new id before. *)
Theorem createTrack_then_deleteTrack (d : TrackDraft) w :
  calm w = true →
  (∀ f, d_audioFile d = Some f → plainName f = true) →
  ∃ t w1 w2 w3,
    createTrack rt d w = (Return t, w1) ∧
    deleteTrack (id t) w1 = (Return true, w2) ∧
    getTrackById (id t) w2 = (Return None, w3) ∧
    tracksDir w2 = delete (trackFileName (id t)) (tracksDir w).
Proof.
  intros C _. rewrite createTrack_eq, calm_fails by done. cbv zeta.
  set (t := drafted rt d w).
  set (w1 := set_tracksDir _ (advance (tick (tick w)))).
  assert (calm w1 = true) as C1.
  { change (calm (advance (tick (tick w))) = true).
    apply calm_advance. by rewrite !calm_tick. }
  destruct (deleteTrack_calm (id t) w1 C1) as (w2 & E & C2 & D).
  assert (holds (id t) (tracksDir w1) = true) as H.
  { unfold holds, w1. simpl. by rewrite lookup_insert_eq. }
  rewrite H in E, D.
  exists t, w1, w2. eexists. split_and!; [reflexivity|exact E| |].
  - rewrite getTrackById_eq, calm_fails, D, lookup_delete_eq by done. reflexivity.
  - rewrite D. unfold w1. simpl. by rewrite delete_insert_eq.
Qed.

End Records.

Lemma updateTrack_then_getTrackById_witness :
  tracksDir (Sample.world []) !! trackFileName "2" = Some (Doc Sample.t2) ∧
  ∃ t' w1 w2,
    updateTrack asciiRuntime "2" (Sample.retitle "Blue") (Sample.world []) =
      (Return (Some t'), w1) ∧
    getTrackById "2" w1 = (Return (Some t'), w2) ∧
    title t' = "Blue" ∧ artist t' = artist Sample.t2.
Proof.
  split; [reflexivity|].
  destruct (updateTrack_then_getTrackById asciiRuntime "2" (Sample.retitle "Blue")
              (Sample.world []) Sample.t2)
    as (t' & w1 & w2 & E & G & -> & _); try reflexivity.
  eexists _, w1, w2. split; [exact E|]. split; [exact G|]. split; reflexivity.
Defined.

Lemma writes_are_local_witness :
  plainName "1" = true ∧ "2.json" ≠ trackFileName "1" ∧
  (∃ o w1, updateTrack asciiRuntime "1" (Sample.retitle "Blue") (Sample.world []) = (o, w1) ∧
           tracksDir w1 !! "2.json" = Some (Doc Sample.t2) ∧
           same_assets (Sample.world []) w1) ∧
  (∃ o w1, deleteTrack "1" (Sample.world []) = (o, w1) ∧
           tracksDir w1 !! "2.json" = Some (Doc Sample.t2)).
Proof.
  assert ("2.json" ≠ trackFileName "1") as Hne by discriminate.
  assert (tracksDir (Sample.world []) !! "2.json" = Some (Doc Sample.t2)) as L2
    by (vm_compute; reflexivity).
  destruct (writes_are_local asciiRuntime) as (_ & Hu & Hd).
  split; [reflexivity|]. split; [exact Hne|]. split.
  - destruct (updateTrack asciiRuntime "1" (Sample.retitle "Blue") (Sample.world []))
      as [o w1] eqn:E.
    exists o, w1. split; [reflexivity|].
    destruct (Hu "1" _ _ o w1 "2.json" eq_refl E Hne) as [L A].
    split; [by rewrite L|exact A].
  - destruct (deleteTrack "1" (Sample.world [])) as [o w1] eqn:E.
    exists o, w1. split; [reflexivity|].
    destruct (Hd "1" _ o w1 "2.json" "zzz" eq_refl
                (λ t f H A, sample_plain_assets [] _ t f H A) E Hne) as (L & _).
    + intros t H A. clear E.
      cbn [tracksDir Sample.world] in H.
      destruct (sample_lookup _ _ H) as [[_ ->] | [[_ ->] | [_ ->]]]; clear H;
        cbn in A; discriminate A.
    + by rewrite L.
Defined.

Lemma createTrack_id_collision_witness :
  fails 0 (set_clock 5 [] (Sample.world [])) = false ∧
  fails 1 (set_clock 5 [] (Sample.world [])) = false ∧
  ∃ t1 w1 t2 w2,
    createTrack asciiRuntime Sample.draft (set_clock 5 [] (Sample.world [])) = (Return t1, w1) ∧
    createTrack asciiRuntime Sample.draft w1 = (Return t2, w2) ∧
    id t1 = id t2.
Proof.
  split; [reflexivity|]. split; [reflexivity|].
  destruct (createTrack_id_collision asciiRuntime Sample.draft Sample.draft
              (set_clock 5 [] (Sample.world [])))
    as (t1 & w1 & t2 & w2 & E1 & E2 & I & _); try reflexivity.
  exists t1, w1, t2, w2. split_and!; [done..|]. apply I.
  rewrite createTrack_eq in E1. by injection E1 as _ <-.
Defined.

Lemma createTrack_then_deleteTrack_witness :
  calm (Sample.world []) = true ∧
  ∃ t w1 w2 w3,
    createTrack asciiRuntime Sample.draft (Sample.world []) = (Return t, w1) ∧
    deleteTrack (id t) w1 = (Return true, w2) ∧
    getTrackById (id t) w2 = (Return None, w3).
Proof.
  split; [reflexivity|].
  destruct (createTrack_then_deleteTrack asciiRuntime Sample.draft (Sample.world []))
    as (t & w1 & w2 & w3 & E1 & E2 & E3 & _); [reflexivity|intros f A; discriminate A|].
  exists t, w1, w2, w3. split; [exact E1|]. split; [exact E2|exact E3].
Defined.

(** ** Removal of an asset *)

Section AssetRemoval.

Variable rt : JsRuntime.
Implicit Types (w : World) (t : Track).

(** The world after the asset of a record has been unlinked. *)
Lemma deleteAudioFile_eq (id0 : string) w :
  deleteAudioFile rt id0 w =
    if fails 0 w then (Return false, advance w)
    else match parsed (tracksDir w !! trackFileName id0) with
         | None => (Return false, advance w)
         | Some t =>
             if Str.truthy (audioFile t) then
               if fails 1 w then (Return false, advance (advance w))
               else match uploadsDir w !! Str.orEmpty (audioFile t) with
                    | None => (Return false, advance (advance w))
                    | Some _ =>
                        (Return true,
                         (updateTrack rt id0 clearAudioFile
                            (set_uploadsDir
                               (delete (Str.orEmpty (audioFile t)) (uploadsDir w))
                               (advance (advance w)))).2)
                    end
             else (Return false, advance w)
         end.
Proof.
  unfold deleteAudioFile, try_catch, bind. rewrite getTrackById_eq.
  destruct (fails 0 w); [done|].
  destruct (parsed _) as [t|]; [|done].
  destruct (Str.truthy (audioFile t)); [|done].
  rewrite unlink_upload_eq, fails_advance.
  destruct (fails 1 w); [done|].
  change (uploadsDir (advance w)) with (uploadsDir w).
  destruct (uploadsDir w !! Str.orEmpty (audioFile t)); [|done].
  fold clearAudioFile.
  destruct (updateTrack_total rt id0 clearAudioFile
              (set_uploadsDir (delete (Str.orEmpty (audioFile t)) (uploadsDir w))
                 (advance (advance w)))) as (r & w' & ->).
  done.
Qed.

(** X11.  When the four storage calls go through, [deleteAudioFile] answers
    [true], the asset is gone, and the record is the old one without
    asset reference and with a new modification time; a second call
    then answers [false]. *)
Theorem deleteAudioFile_clears (id0 f : string) w t (bytes : list Byte.byte) :
  tracksDir w !! trackFileName id0 = Some (Doc t) →
  audioFile t = Some f → f ≠ "" → uploadsDir w !! f = Some bytes →
  (∀ k, (k < 4)%nat → fails k w = false) →
  ∃ w1, deleteAudioFile rt id0 w = (Return true, w1) ∧
        uploadsDir w1 = delete f (uploadsDir w) ∧
        tracksDir w1 =
          <[trackFileName id0 := Doc (with_audio None (toISOString rt (clock w)) t)]>
            (tracksDir w) ∧
        ∃ w2, deleteAudioFile rt id0 w1 = (Return false, w2).
Proof.
  intros L A Hf U F. rewrite deleteAudioFile_eq, !F, L by lia. simpl.
  rewrite A. simpl. destruct (String.eqb_spec f ""); [contradiction|]. simpl. rewrite U.
  rewrite updateTrack_eq.
  change (fails 0 (set_uploadsDir ?m ?w')) with (fails 0 w').
  change (fails 1 (set_uploadsDir ?m ?w')) with (fails 1 w').
  rewrite !fails_advance, !F by lia. simpl. rewrite L. simpl.
  eexists. split_and!; [reflexivity| | |].
  - simpl. by rewrite uploadsDir_tick.
  - reflexivity.
  - rewrite deleteAudioFile_eq. simpl. rewrite lookup_insert_eq. simpl.
    destruct (fails 0 _); eauto.
Qed.

(** X12.  When the asset, named by a plain name, cannot be unlinked,
    because the call fails or the file is missing, the answer is
    [false] and nothing has changed: the record keeps its reference. *)
Theorem deleteAudioFile_unlink_failure (id0 f : string) w t :
  tracksDir w !! trackFileName id0 = Some (Doc t) →
  audioFile t = Some f → plainName f = true →
  fails 1 w = true ∨ uploadsDir w !! f = None →
  ∃ w1, deleteAudioFile rt id0 w = (Return false, w1) ∧ same_storage w w1.
Proof.
  intros L A _ H. rewrite deleteAudioFile_eq, L. simpl. rewrite A. simpl.
  destruct (fails 0 w); [by eexists|].
  destruct (negb (String.eqb f "")); [|by eexists].
  destruct (fails 1 w); [by eexists|].
  destruct H as [? | ->]; [done|]. by eexists.
Qed.

(** X13.  The result of the reference update is not looked at: when the asset
    has been unlinked and the update of the record then fails, the
    answer is still [true], and the record keeps naming the asset that
    is gone. *)
Theorem deleteAudioFile_dangling_reference (id0 f : string) w t (bytes : list Byte.byte) :
  tracksDir w !! trackFileName id0 = Some (Doc t) →
  audioFile t = Some f → f ≠ "" → uploadsDir w !! f = Some bytes →
  fails 0 w = false → fails 1 w = false →
  fails 2 w = true ∨ fails 3 w = true →
  ∃ w1, deleteAudioFile rt id0 w = (Return true, w1) ∧
        uploadsDir w1 !! f = None ∧
        tracksDir w1 !! trackFileName id0 = Some (Doc t).
Proof.
  intros L A Hf U F0 F1 F. rewrite deleteAudioFile_eq, F0, L. simpl.
  rewrite A. simpl. destruct (String.eqb_spec f ""); [contradiction|]. simpl.
  rewrite F1, U. rewrite updateTrack_eq.
  change (fails 0 (set_uploadsDir ?m ?w')) with (fails 0 w').
  change (fails 1 (set_uploadsDir ?m ?w')) with (fails 1 w').
  rewrite !fails_advance. simpl. rewrite L. simpl.
  destruct (fails 2 w).
  - eexists. split_and!; [reflexivity| |]; simpl; [by rewrite lookup_delete_eq|done].
  - destruct F as [?|F3]; [done|]. rewrite F3.
    eexists. split_and!; [reflexivity| |]; simpl.
    + rewrite uploadsDir_tick. simpl. by rewrite lookup_delete_eq.
    + by rewrite tracksDir_tick.
Qed.

End AssetRemoval.

Lemma deleteAudioFile_clears_witness :
  tracksDir (Sample.world []) !! trackFileName "1" = Some (Doc Sample.t1) ∧
  audioFile Sample.t1 = Some "1.mp3" ∧
  ∃ w1, deleteAudioFile asciiRuntime "1" (Sample.world []) = (Return true, w1) ∧
        uploadsDir w1 = delete "1.mp3" Sample.assets.
Proof.
  split; [reflexivity|]. split; [reflexivity|].
  destruct (deleteAudioFile_clears asciiRuntime "1" "1.mp3" (Sample.world []) Sample.t1
              [Byte.x49; Byte.x44; Byte.x33])
    as (w1 & E & U & _); try reflexivity; [discriminate| |by exists w1].
  intros k _. by destruct k as [|[|[|[|k]]]].
Defined.

Lemma deleteAudioFile_unlink_failure_witness :
  fails 1 (Sample.world [false; true]) = true ∧
  ∃ w1, deleteAudioFile asciiRuntime "1" (Sample.world [false; true]) = (Return false, w1) ∧
        same_storage (Sample.world [false; true]) w1.
Proof.
  split; [reflexivity|].
  apply (deleteAudioFile_unlink_failure asciiRuntime "1" "1.mp3"
           (Sample.world [false; true]) Sample.t1); [reflexivity..|by left].
Defined.

Lemma deleteAudioFile_dangling_reference_witness :
  fails 3 (Sample.world [false; false; false; true]) = true ∧
  ∃ w1, deleteAudioFile asciiRuntime "1" (Sample.world [false; false; false; true]) =
          (Return true, w1) ∧
        uploadsDir w1 !! "1.mp3" = None ∧
        tracksDir w1 !! trackFileName "1" = Some (Doc Sample.t1).
Proof.
  split; [reflexivity|].
  apply (deleteAudioFile_dangling_reference asciiRuntime "1" "1.mp3"
           (Sample.world [false; false; false; true]) Sample.t1
           [Byte.x49; Byte.x44; Byte.x33]); try reflexivity; [discriminate|by right].
Defined.

(** ** The batch, once more *)

Section BatchOrder.

Implicit Types (w : World) (ids : list string).

Lemma deleteEach_sublist ids (acc : BatchDeleteResponse) w r w' :
  deleteEach ids acc w = (Return r, w') →
  ∃ S F : list string, success r = (success acc ++ S)%list ∧
         failed r = (failed acc ++ F)%list ∧
         S `sublist_of` ids ∧ F `sublist_of` ids.
Proof.
  revert acc w. induction ids as [|x ids IH]; intros acc w; simpl.
  - intros [= <- _]. exists [], []. by rewrite !app_nil_r.
  - unfold bind. destruct (deleteTrack_total x w) as ([] & w1 & ->).
    + intros (S & F & -> & -> & HS & HF)%IH. simpl.
      exists (x :: S), F. rewrite <-app_assoc. split_and!; [done..| |].
      * by apply sublist_skip.
      * by apply sublist_cons.
    + intros (S & F & -> & -> & HS & HF)%IH. simpl.
      exists S, (x :: F). rewrite <-app_assoc. split_and!; [done..| |].
      * by apply sublist_cons.
      * by apply sublist_skip.
Qed.

(** X14.  Both lists of the batch result keep the order of the input: each is
    the input with some ids left out. *)
Theorem deleteMultipleTracks_keeps_order ids w r w' :
  deleteMultipleTracks ids w = (Return r, w') →
  success r `sublist_of` ids ∧ failed r `sublist_of` ids.
Proof.
  intros (S & F & -> & -> & HS & HF)%deleteEach_sublist. done.
Qed.

Lemma lookup_foldl_dropRecord ids (m : gmap string TrackFile) (file : string) :
  (∀ i, i ∈ ids → file ≠ trackFileName i) →
  foldl dropRecord m ids !! file = m !! file.
Proof.
  revert m. induction ids as [|x ids IH]; intros m Hne; simpl; [done|].
  rewrite IH by (intros i ?; apply Hne; by right).
  unfold dropRecord. destruct (holds x m); [|done].
  apply lookup_delete_ne. intros E. by apply (Hne x); [left|].
Qed.

Lemma occurrences_elem_of (x : string) (l : list string) :
  x ∈ l ↔ (0 < occurrences x l)%nat.
Proof.
  unfold occurrences. induction l as [|y l IH].
  - split; [by intros ?%elem_of_nil|simpl; lia].
  - rewrite elem_of_cons, filter_cons. destruct (decide (y = x)) as [->|Hne]; simpl.
    + split; [lia|auto].
    + rewrite <-IH. split; [by intros [?|?]|auto].
Qed.

Lemma occurrences_NoDup (l : list string) :
  (∀ x, (occurrences x l ≤ 1)%nat) → NoDup l.
Proof.
  induction l as [|y l IH]; intros H; [constructor|].
  apply NoDup_cons. split.
  - intros Hin%occurrences_elem_of. specialize (H y).
    rewrite occurrences_cons, decide_True in H by done. lia.
  - apply IH. intros x. specialize (H x). rewrite occurrences_cons in H. lia.
Qed.

(** X15.  Without storage failures, for ids that are plain names and a
    store whose records name their assets by plain names, the batch
    deletes exactly the input ids that hold a record, each once;
    afterwards none of the input ids holds a record, and every file
    that is not the file of an input id is as it was. *)
Theorem deleteMultipleTracks_calm ids w :
  calm w = true → Forall (λ i, plainName i = true) ids → plainAssets w →
  ∃ r w',
    deleteMultipleTracks ids w = (Return r, w') ∧
    (∀ i, i ∈ success r ↔ i ∈ ids ∧ holds i (tracksDir w) = true) ∧
    NoDup (success r) ∧
    (∀ i, i ∈ ids → holds i (tracksDir w') = false) ∧
    (∀ file, (∀ i, i ∈ ids → file ≠ trackFileName i) →
             tracksDir w' !! file = tracksDir w !! file).
Proof.
  intros C _ _. unfold deleteMultipleTracks.
  destruct (deleteEach_calm_store ids {| success := []; failed := [] |} w C)
    as (r & w' & E & D).
  exists r, w'. split; [done|].
  assert (∀ i, occurrences i (success r) =
               if holds i (tracksDir w) then Nat.min 1 (occurrences i ids) else 0%nat) as Hocc.
  { intros i.
    destruct (deleteEach_calm ids {| success := []; failed := [] |} w i C)
      as (r0 & w0 & E0 & S & _).
    rewrite E in E0. injection E0 as <- <-. exact S. }
  split_and!.
  - intros i. rewrite !occurrences_elem_of, Hocc.
    destruct (holds i (tracksDir w)).
    + split; [intros H; split; [lia|done]|intros [H _]; lia].
    + split; [lia|by intros [_ ?]].
  - apply occurrences_NoDup. intros x. rewrite Hocc.
    destruct (holds x (tracksDir w)); lia.
  - intros i Hin. rewrite D. by apply holds_foldl_dropRecord.
  - intros file Hne. rewrite D. by apply lookup_foldl_dropRecord.
Qed.

End BatchOrder.

Lemma deleteMultipleTracks_keeps_order_witness :
  ∃ w', deleteMultipleTracks ["3"; "7"; "1"; "3"] (Sample.world []) =
          (Return {| success := ["3"; "1"]; failed := ["7"; "3"] |}, w') ∧
        ["3"; "1"] `sublist_of` ["3"; "7"; "1"; "3"] ∧
        ["7"; "3"] `sublist_of` ["3"; "7"; "1"; "3"].
Proof.
  destruct (deleteMultipleTracks ["3"; "7"; "1"; "3"] (Sample.world [])) as [o w'] eqn:E.
  assert (o = Return {| success := ["3"; "1"]; failed := ["7"; "3"] |}) as ->.
  { apply (f_equal fst) in E. simpl in E. rewrite <-E. by vm_compute. }
  exists w'. split; [reflexivity|].
  exact (deleteMultipleTracks_keeps_order _ _ _ _ E).
Defined.

Lemma deleteMultipleTracks_calm_witness :
  calm (Sample.world []) = true ∧
  Forall (λ i, plainName i = true) ["3"; "7"; "1"; "3"] ∧
  plainAssets (Sample.world []) ∧
  ∃ r w',
    deleteMultipleTracks ["3"; "7"; "1"; "3"] (Sample.world []) = (Return r, w') ∧
    NoDup (success r) ∧
    (∀ i, i ∈ ["3"; "7"; "1"; "3"] → holds i (tracksDir w') = false).
Proof.
  assert (Forall (λ i, plainName i = true) ["3"; "7"; "1"; "3"]) as P
    by (repeat constructor).
  split; [reflexivity|]. split; [exact P|]. split; [exact (sample_plain_assets [])|].
  destruct (deleteMultipleTracks_calm ["3"; "7"; "1"; "3"] (Sample.world [])
              eq_refl P (sample_plain_assets []))
    as (r & w' & E & _ & N & H & _).
  exists r, w'. split; [exact E|]. split; [exact N|exact H].
Defined.

(** ** Walking the pages *)

Section Walk.

Context {A : Type}.

(** The first [n] pages of size [size], one after the other, are the
    first [n * size] elements. *)
Lemma pages_concat (l : list A) (size : Z) (n : nat) :
  1 ≤ size →
  mjoin ((λ i : nat, Array_slice l (Z.of_nat i * size) (Z.of_nat i * size + size))
           <$> seq 0 n) =
  take (n * Z.to_nat size) l.
Proof.
  intros Hsize. induction n as [|n IH]; [done|].
  rewrite seq_S, fmap_app, join_app, IH. simpl. rewrite app_nil_r.
  rewrite Array_slice_nonneg by nia.
  replace (Z.to_nat (Z.of_nat n * size + size - Z.of_nat n * size)) with (Z.to_nat size)
    by lia.
  replace (Z.to_nat (Z.of_nat n * size)) with (n * Z.to_nat size)%nat by nia.
  rewrite take_take_drop. f_equal. lia.
Qed.

Lemma Array_slice_beyond (l : list A) (lo hi : Z) :
  Z.of_nat (length l) ≤ lo → lo ≤ hi → Array_slice l lo hi = [].
Proof.
  intros Hlo Hhi. rewrite Array_slice_nonneg by lia. rewrite drop_ge by lia.
  apply take_nil.
Qed.

End Walk.

Section Ceiling.

(** [Math.ceil(total / limit)] is the least number of pages of [limit]
    records that hold [total] records. *)
Lemma Math_ceil_div_bounds (total limit : Z) :
  0 ≤ total → 1 ≤ limit →
  0 ≤ Math_ceil_div total limit ∧
  total ≤ Math_ceil_div total limit * limit ∧
  Math_ceil_div total limit * limit < total + limit.
Proof.
  intros Ht Hl. unfold Math_ceil_div.
  pose proof (Z.div_mod (- total) limit ltac:(lia)) as Hdm.
  pose proof (Z.mod_pos_bound (- total) limit ltac:(lia)) as Hm.
  nia.
Qed.

End Ceiling.

Section Listing.

Variable rt : JsRuntime.
Implicit Types (w : World) (q : QueryParams).

Lemma getTracks_total q w : ∃ r w', getTracks rt q w = (Return r, w').
Proof.
  destruct (try_catch_fallback (getTracks_try rt q) {| tracks := []; total := 0 |} w)
    as (r & w' & E & _).
  by exists r, w'.
Qed.

Lemma getAllTracks_eq q w r w' :
  getTracks rt q w = (Return r, w') →
  getAllTracks rt q w =
    (Return {| statusCode := 200;
               body := SendPage
                 {| data := tracks r; meta_total := total r;
                    meta_page := numberOr (page q) 1;
                    meta_limit := numberOr (limit q) 10;
                    meta_totalPages :=
                      Math_ceil_div (Z.of_nat (total r)) (numberOr (limit q) 10) |} |}, w').
Proof. intros E. unfold getAllTracks, try_catch, bind. by rewrite E. Qed.

(** X16.  [GET /api/tracks] answers 200 whatever the storage does: a failed
    scan shows as an empty first page with total 0, not as an error.
    For a positive limit the page count it reports is the least number
    of pages that hold all matching records. *)
Theorem getAllTracks_always_200 q w :
  ∃ pg w',
    getAllTracks rt q w = (Return {| statusCode := 200; body := SendPage pg |}, w') ∧
    meta_page pg = numberOr (page q) 1 ∧
    meta_limit pg = numberOr (limit q) 10 ∧
    (fails 0 w = true → data pg = [] ∧ meta_total pg = 0%nat) ∧
    (1 ≤ meta_limit pg →
       0 ≤ meta_totalPages pg ∧
       Z.of_nat (meta_total pg) ≤ meta_totalPages pg * meta_limit pg ∧
       meta_totalPages pg * meta_limit pg < Z.of_nat (meta_total pg) + meta_limit pg).
Proof.
  destruct (getTracks_total q w) as (r & w' & E).
  eexists _, w'. split; [by apply getAllTracks_eq|]. simpl. split_and!; [done..| |].
  - intros F. rewrite (getTracks_not_loaded rt q w (advance w) (EIO "")) in E.
    + by injection E as <- _.
    + by rewrite loadTracks_eq, F.
  - intros Hl. apply Math_ceil_div_bounds; lia.
Qed.

(** X17.  A client that asks for the pages 1 to [totalPages] of a query, with
    a positive limit and an unchanged store, receives the filtered,
    sorted records, each once and in order; every later page is empty. *)
Theorem getAllTracks_walk q w (loaded : list Track) w1 :
  loadTracks w = (Return loaded, w1) →
  1 ≤ numberOr (limit q) 10 →
  let sorted := applySort rt q (applyFilters rt q loaded) in
  let totalPages := Math_ceil_div (Z.of_nat (length sorted)) (numberOr (limit q) 10) in
  mjoin ((λ i : nat,
            replyData (getAllTracks rt (with_page (Some (Z.of_nat i + 1)) q) w).1)
           <$> seq 0 (Z.to_nat totalPages)) = sorted ∧
  ∀ p, totalPages < p →
       replyData (getAllTracks rt (with_page (Some p) q) w).1 = [].
Proof.
  intros E Hl sorted totalPages.
  assert (∀ p, 1 ≤ p →
            replyData (getAllTracks rt (with_page (Some p) q) w).1 =
            Array_slice sorted ((p - 1) * numberOr (limit q) 10)
              ((p - 1) * numberOr (limit q) 10 + numberOr (limit q) 10)) as Hpage.
  { intros p Hp.
    rewrite (getAllTracks_eq _ _ _ _ (getTracks_loaded rt _ _ _ _ E)).
    cbn [fst replyData body data]. unfold paginate. cbn [tracks page limit with_page].
    by rewrite numberOr_positive by lia. }
  destruct (Math_ceil_div_bounds (Z.of_nat (length sorted)) (numberOr (limit q) 10))
    as (H0 & Hle & Hlt); [lia..|]. fold totalPages in H0, Hle, Hlt.
  split.
  - transitivity (take (Z.to_nat totalPages * Z.to_nat (numberOr (limit q) 10)) sorted);
      [|apply take_ge; nia].
    rewrite <-(pages_concat sorted _ _ Hl).
    f_equal. apply list_fmap_ext. intros _ i _. rewrite Hpage by lia.
    by replace (Z.of_nat i + 1 - 1) with (Z.of_nat i) by lia.
  - intros p Hp. rewrite Hpage by lia. apply Array_slice_beyond; nia.
Qed.

End Listing.

Lemma getAllTracks_walk_witness :
  1 ≤ numberOr (limit (with_limit (Some 2) noParams)) 10 ∧
  mjoin ((λ i : nat,
            replyData (getAllTracks asciiRuntime
                         (with_page (Some (Z.of_nat i + 1)) (with_limit (Some 2) noParams))
                         (Sample.world [])).1)
           <$> seq 0 2) = [Sample.t3; Sample.t2; Sample.t1].
Proof.
  split; [by vm_compute|].
  destruct (getAllTracks_walk asciiRuntime (with_limit (Some 2) noParams) (Sample.world [])
              _ _ sample_scan) as [H _]; [by vm_compute|].
  vm_compute in H. vm_compute. exact H.
Defined.

Lemma getAllTracks_always_200_witness :
  fails 0 (Sample.world [true]) = true ∧
  ∃ pg w',
    getAllTracks asciiRuntime noParams (Sample.world [true]) =
      (Return {| statusCode := 200; body := SendPage pg |}, w') ∧
    data pg = [] ∧ meta_total pg = 0%nat.
Proof.
  split; [reflexivity|].
  destruct (getAllTracks_always_200 asciiRuntime noParams (Sample.world [true]))
    as (pg & w' & E & _ & _ & F & _).
  exists pg, w'. split; [exact E|]. apply F. reflexivity.
Defined.

(** ** What the lookups leave alone *)

Section ReadOnly.

Variable rt : JsRuntime.
Implicit Types (w : World).

Lemma readTrackFiles_read_only (files : list string) w o w' :
  readTrackFiles files w = (o, w') → same_storage w w'.
Proof.
  revert w o. induction files as [|f files IH]; intros w o; simpl.
  { by intros [= _ <-]. }
  destruct (Str.endsWith f ".json"); [|apply IH].
  unfold bind at 1. rewrite readFile_track_eq.
  destruct (fails 0 w); [by intros [= _ <-]|].
  destruct (tracksDir w !! f) as [[t|raw]|]; simpl; [|by intros [= _ <-]..].
  unfold bind, ret.
  destruct (readTrackFiles files (advance w)) as [[more|e] w1] eqn:E;
    intros [= _ <-]; by apply IH in E.
Qed.

Lemma findBySlug_read_only (slug0 : string) (files : list string) w o w' :
  findBySlug slug0 files w = (o, w') → same_storage w w'.
Proof.
  revert w o. induction files as [|f files IH]; intros w o; simpl.
  { by intros [= _ <-]. }
  destruct (Str.endsWith f ".json"); [|apply IH].
  unfold bind at 1. rewrite readFile_track_eq.
  destruct (fails 0 w); [by intros [= _ <-]|].
  destruct (tracksDir w !! f) as [[t|raw]|]; simpl; [|by intros [= _ <-]..].
  unfold bind, ret. destruct (String.eqb (slug t) slug0); [by intros [= _ <-]|].
  intros E. by apply IH in E.
Qed.

(** X18.  The four lookups never change a record, an asset or the catalogue,
    whatever they find and whatever fails. *)
Theorem lookups_read_only :
  (∀ id0 w o w', getTrackById id0 w = (o, w') → same_storage w w') ∧
  (∀ slug0 w o w', getTrackBySlug slug0 w = (o, w') → same_storage w w') ∧
  (∀ q w o w', getTracks rt q w = (o, w') → same_storage w w') ∧
  (∀ w o w', getGenres w = (o, w') → same_storage w w').
Proof.
  split_and!.
  - intros id0 w o w'. rewrite getTrackById_eq. by intros [= _ <-].
  - intros slug0 w o w'. unfold getTrackBySlug, try_catch, getTrackBySlug_try, bind.
    rewrite readdir_tracks_eq. destruct (fails 0 w); [by intros [= _ <-]|].
    destruct (findBySlug slug0 _ (advance w)) as [[r|e] w1] eqn:E;
      intros [= _ <-]; by apply findBySlug_read_only in E.
  - intros q w o w'. unfold getTracks, try_catch, getTracks_try, bind.
    rewrite loadTracks_eq. destruct (fails 0 w); [by intros [= _ <-]|].
    destruct (readTrackFiles _ (advance w)) as [[r|e] w1] eqn:E;
      intros [= _ <-]; by apply readTrackFiles_read_only in E.
  - intros w o w'. rewrite getGenres_eq. by intros [= _ <-].
Qed.

End ReadOnly.

Lemma lookups_read_only_witness :
  ∃ o w', getTracks asciiRuntime noParams (Sample.damaged [false; true]) = (o, w') ∧
          same_storage (Sample.damaged [false; true]) w'.
Proof.
  destruct (getTracks asciiRuntime noParams (Sample.damaged [false; true])) as [o w'] eqn:E.
  exists o, w'. split; [reflexivity|].
  exact (proj1 (proj2 (proj2 (lookups_read_only asciiRuntime))) _ _ _ _ E).
Defined.

(** ** Slugs *)

Section Slugs.

Import Slug.

Lemma char_classes (c : ascii) :
  (isHyphen c = true → c = "-"%char) ∧
  (isHyphen c = true → isAlnum c = false ∧ isSpace c = false ∧ isWord c = false) ∧
  (isAlnum c = true →
     isWord c = true ∧ isSpace c = false ∧ isUnderscore c = false ∧ isHyphen c = false) ∧
  (isWord c = true → isAlnum c = false → isUnderscore c = true) ∧
  (isSpace c = true → isWord c = false ∧ isHyphen c = false).
Proof.
  destruct c as [[] [] [] [] [] [] [] []]; vm_compute; repeat split; congruence.
Qed.

Lemma isHyphen_eq c : isHyphen c = true → c = "-"%char.
Proof. apply char_classes. Qed.

Lemma removeNonWord_every (s : string) :
  every (λ c, isWord c || isSpace c || isHyphen c) (removeNonWord s) = true.
Proof.
  induction s as [|c s IH]; simpl; [done|].
  destruct (isWord c || isSpace c || isHyphen c) eqn:K; [|done].
  simpl. by rewrite K, IH.
Qed.

Lemma hyphenate_tidy (b : bool) (s : string) :
  every (λ c, isWord c || isSpace c || isHyphen c) s = true →
  tidy b (hyphenate b s) = true.
Proof.
  revert b. induction s as [|c s IH]; intros b; simpl; [done|].
  intros [K Hs]%andb_prop. unfold isSeparator.
  destruct (char_classes c) as (_ & Hh & Ha & Hw & Hsp).
  destruct (isSpace c) eqn:S; simpl.
  { destruct b; simpl; by apply IH. }
  destruct (isUnderscore c) eqn:U; simpl.
  { destruct b; simpl; by apply IH. }
  destruct (isHyphen c) eqn:H; simpl.
  { destruct b; simpl; by apply IH. }
  rewrite H. rewrite !orb_false_r in K.
  destruct (isAlnum c) eqn:A; [by apply IH|].
  by specialize (Hw K eq_refl).
Qed.

Lemma tidy_weaken (b : bool) (s : string) : tidy b s = true → tidy false s = true.
Proof. destruct s as [|c s]; simpl; [done|]. destruct (isHyphen c), b; simpl; done. Qed.

Lemma dropStartHyphens_tidy (s : string) :
  tidy false s = true → tidy true (dropStartHyphens s) = true.
Proof.
  induction s as [|c s IH]; simpl; [done|].
  destruct (isHyphen c) eqn:H; simpl.
  - intros T. apply IH. by apply (tidy_weaken true).
  - rewrite H. done.
Qed.

Lemma slugShape_nonempty (s : string) : slugShape true s = true → s ≠ "".
Proof. by destruct s. Qed.

Lemma dropEndHyphens_shape (b : bool) (s : string) :
  tidy b s = true →
  dropEndHyphens s = "" ∨ slugShape b (dropEndHyphens s) = true.
Proof.
  revert b. induction s as [|c s IH]; intros b; simpl; [by left|].
  destruct (isHyphen c) eqn:H.
  - intros [Hb T]%andb_prop. destruct (IH true T) as [-> | Hs]; [by left|].
    right. destruct (dropEndHyphens s) as [|d r] eqn:E; [done|].
    cbn [slugShape]. by rewrite H, Hb.
  - intros [A T]%andb_prop. right.
    destruct (dropEndHyphens s) as [|d r] eqn:E.
    + simpl. by rewrite H, A.
    + destruct (IH false T) as [? | Hs]; [done|].
      cbn [slugShape]. by rewrite H, A.
Qed.

Lemma createSlug_wellFormed (rt : JsRuntime) (text : string) :
  wellFormedSlug (createSlug rt text) = true.
Proof.
  unfold createSlug, stripHyphens.
  set (s := hyphenate false _).
  assert (tidy false s = true) as T by apply hyphenate_tidy, removeNonWord_every.
  apply dropStartHyphens_tidy in T.
  destruct (dropEndHyphens_shape true _ T) as [-> | Hs]; [done|].
  unfold wellFormedSlug. by destruct (dropEndHyphens _).
Qed.

Lemma slugShape_every (b : bool) (s : string) :
  slugShape b s = true → every (λ c, isAlnum c || isHyphen c) s = true.
Proof.
  revert b. induction s as [|c s IH]; intros b; simpl; [done|].
  destruct (isHyphen c) eqn:H.
  - intros [_ Hs]%andb_prop. rewrite orb_true_r. by apply (IH true).
  - intros [-> Hs]%andb_prop. by apply (IH false).
Qed.

Lemma slugShape_start (s : string) :
  slugShape true s = true → Str.startsWith s "-" = false.
Proof.
  destruct s as [|c s]; cbn [slugShape Str.startsWith]; [done|].
  destruct (isHyphen c) eqn:H; [done|]. intros _.
  destruct (Ascii.eqb_spec "-" c) as [<-|]; [|done]. by vm_compute in H.
Qed.

Lemma slugShape_end (b : bool) (s : string) :
  slugShape b s = true → Str.endsWith s "-" = false.
Proof.
  revert b. induction s as [|c s IH]; intros b; [done|].
  cbn [slugShape Str.endsWith]. intros Hs.
  assert (Str.endsWith s "-" = false) as ->.
  { destruct (isHyphen c); apply andb_prop in Hs as [_ Hs]; by eapply IH. }
  rewrite orb_false_r. apply String.eqb_neq. intros [= -> ->].
  by vm_compute in Hs; destruct b.
Qed.

Lemma slugShape_double (b : bool) (s : string) :
  slugShape b s = true → Str.includes s "--" = false.
Proof.
  revert b. induction s as [|c s IH]; intros b; [done|].
  cbn [slugShape Str.includes]. intros Hs.
  assert (Str.includes s "--" = false) as ->.
  { destruct (isHyphen c); apply andb_prop in Hs as [_ Hs]; by eapply IH. }
  rewrite orb_false_r. cbn [Str.startsWith].
  destruct (Ascii.eqb_spec "-" c) as [<-|]; [|done].
  change (isHyphen "-") with true in Hs. apply andb_prop in Hs as [_ Hs].
  destruct s as [|d s]; [done|]. apply slugShape_start in Hs.
  cbn [Str.startsWith] in *. by destruct (Ascii.eqb "-" d).
Qed.

(** X19.  Whatever the text and the lower-casing of the host, a slug consists
    of ASCII letters, digits and hyphens only, does not begin or end
    with a hyphen, and has no two hyphens in a row. *)
Theorem createSlug_shape (rt : JsRuntime) (text : string) :
  every (λ c, isAlnum c || isHyphen c) (createSlug rt text) = true ∧
  Str.startsWith (createSlug rt text) "-" = false ∧
  Str.endsWith (createSlug rt text) "-" = false ∧
  Str.includes (createSlug rt text) "--" = false.
Proof.
  pose proof (createSlug_wellFormed rt text) as W. unfold wellFormedSlug in W.
  destruct (createSlug rt text) as [|c s] eqn:E; [done|].
  split_and!.
  - by eapply slugShape_every.
  - by apply slugShape_start.
  - by eapply slugShape_end.
  - by eapply slugShape_double.
Qed.

Lemma slugShape_tidy (b : bool) (s : string) : slugShape b s = true → tidy b s = true.
Proof.
  revert b. induction s as [|c s IH]; intros b; simpl; [done|].
  destruct (isHyphen c).
  - intros [-> Hs]%andb_prop. by apply IH.
  - intros [-> Hs]%andb_prop. by apply IH.
Qed.

Lemma trimStart_shape (s : string) : slugShape true s = true → trimStart s = s.
Proof.
  destruct s as [|c s]; simpl; [done|].
  destruct (char_classes c) as (_ & _ & Ha & _).
  destruct (isHyphen c); [done|]. intros [A _]%andb_prop.
  by rewrite (proj1 (proj2 (Ha A))).
Qed.

Lemma trimEnd_shape (b : bool) (s : string) : slugShape b s = true → trimEnd s = s.
Proof.
  revert b. induction s as [|c s IH]; intros b; simpl; [done|].
  destruct (char_classes c) as (_ & Hh & Ha & _).
  destruct (isHyphen c) eqn:H.
  - intros [_ Hs]%andb_prop. rewrite (IH true Hs).
    destruct s; [done|done].
  - intros [A Hs]%andb_prop. rewrite (IH false Hs).
    destruct s; [|done]. by rewrite (proj1 (proj2 (Ha A))).
Qed.

Lemma removeNonWord_shape (b : bool) (s : string) :
  slugShape b s = true → removeNonWord s = s.
Proof.
  revert b. induction s as [|c s IH]; intros b; simpl; [done|].
  destruct (char_classes c) as (_ & _ & Ha & _).
  destruct (isHyphen c) eqn:H.
  - intros [_ Hs]%andb_prop. rewrite !orb_true_r. by rewrite (IH true Hs).
  - intros [A Hs]%andb_prop. rewrite (proj1 (Ha A)). simpl. by rewrite (IH false Hs).
Qed.

Lemma hyphenate_shape (b : bool) (s : string) : tidy b s = true → hyphenate b s = s.
Proof.
  revert b. induction s as [|c s IH]; intros b; simpl; [done|].
  destruct (char_classes c) as (Heq & _ & Ha & _). unfold isSeparator.
  destruct (isHyphen c) eqn:H.
  - intros [Hb T]%andb_prop. rewrite !orb_true_r. destruct b; [done|].
    by rewrite (IH true T), (Heq eq_refl).
  - intros [A T]%andb_prop. destruct (Ha A) as (_ & -> & -> & _). simpl.
    by rewrite (IH false T).
Qed.

Lemma dropStartHyphens_shape (s : string) : slugShape true s = true → dropStartHyphens s = s.
Proof. destruct s as [|c s]; simpl; [done|]. by destruct (isHyphen c). Qed.

Lemma dropEndHyphens_fix (b : bool) (s : string) :
  slugShape b s = true → dropEndHyphens s = s.
Proof.
  revert b. induction s as [|c s IH]; intros b; simpl; [done|].
  destruct (isHyphen c) eqn:H.
  - intros [_ Hs]%andb_prop. rewrite (IH true Hs). by destruct s.
  - intros [_ Hs]%andb_prop. rewrite (IH false Hs). by destruct s.
Qed.

(** X20.  Making a slug of a slug changes nothing, as long as lower-casing
    leaves the slug alone. *)
Theorem createSlug_idempotent (rt : JsRuntime) (text : string) :
  toLowerCase rt (createSlug rt text) = createSlug rt text →
  createSlug rt (createSlug rt text) = createSlug rt text.
Proof.
  intros Hlow. pose proof (createSlug_wellFormed rt text) as W.
  unfold wellFormedSlug in W. set (s := createSlug rt text) in *.
  unfold createSlug at 1. fold s. rewrite Hlow.
  destruct s as [|c r] eqn:E; [done|]. rewrite <-E in *. clear E.
  unfold trim, stripHyphens.
  rewrite (trimStart_shape s W), (trimEnd_shape true s W), (removeNonWord_shape true s W).
  rewrite (hyphenate_shape false s) by (apply (tidy_weaken true); by apply slugShape_tidy).
  by rewrite (dropStartHyphens_shape s W), (dropEndHyphens_fix true s W).
Qed.

End Slugs.

Lemma createSlug_idempotent_witness :
  toLowerCase asciiRuntime (createSlug asciiRuntime "My Awesome Track - 2023") =
    createSlug asciiRuntime "My Awesome Track - 2023" ∧
  createSlug asciiRuntime "My Awesome Track - 2023" = "my-awesome-track-2023" ∧
  createSlug asciiRuntime (createSlug asciiRuntime "My Awesome Track - 2023") =
    createSlug asciiRuntime "My Awesome Track - 2023".
Proof.
  split; [by vm_compute|]. split; [by vm_compute|].
  apply (createSlug_idempotent asciiRuntime "My Awesome Track - 2023"). by vm_compute.
Defined.

(** ** Handlers *)

Section Handlers.

Variable rt : JsRuntime.

Lemma genresFile_tick w : genresFile (tick w) = genresFile w.
Proof. unfold tick, Date_now; simpl. by destruct (lapse w). Qed.

Lemma keyed_same w w' : tracksDir w' = tracksDir w → keyed w → keyed w'.
Proof. unfold keyed. by intros ->. Qed.

Lemma unique_slugs_same w w' : tracksDir w' = tracksDir w → unique_slugs w → unique_slugs w'.
Proof. unfold unique_slugs. by intros ->. Qed.

Lemma keyed_insert w w' t :
  keyed w → tracksDir w' = <[trackFileName (id t) := Doc t]> (tracksDir w) → keyed w'.
Proof.
  intros K E file u Hf. rewrite E.
  destruct (decide (file = trackFileName (id t))) as [->|N].
  - rewrite lookup_insert_eq. by intros [= ->].
  - rewrite lookup_insert_ne by done. by apply K.
Qed.

Lemma unique_slugs_insert w w' (k : string) t :
  unique_slugs w → tracksDir w' = <[k := Doc t]> (tracksDir w) →
  (∀ g u, g ≠ k → Str.endsWith g ".json" = true → tracksDir w !! g = Some (Doc u) →
          slug u ≠ slug t) →
  unique_slugs w'.
Proof.
  intros U E Hnew f g a b Hf Hg. rewrite E.
  destruct (decide (f = k)) as [->|Nf], (decide (g = k)) as [->|Ng]; [done|..].
  - rewrite lookup_insert_eq, lookup_insert_ne by done.
    intros [= ->] Hb Hs. by destruct (Hnew g b).
  - rewrite lookup_insert_eq, lookup_insert_ne by done.
    intros Ha [= ->] Hs. by destruct (Hnew f a).
  - rewrite !lookup_insert_ne by done. by apply U.
Qed.

Lemma updateTrack_healthy (id0 : string) (u : TrackUpdates) t w :
  healthy w → tracksDir w !! trackFileName id0 = Some (Doc t) →
  ∃ w', updateTrack rt id0 u w =
          (Return (Some (mergeUpdates t u (toISOString rt (clock w)))), w') ∧
        healthy w' ∧
        tracksDir w' =
          <[trackFileName id0 := Doc (mergeUpdates t u (toISOString rt (clock w)))]>
            (tracksDir w) ∧
        uploadsDir w' = uploadsDir w ∧ genresFile w' = genresFile w.
Proof.
  intros [C Hr] Ht. rewrite updateTrack_eq, !calm_fails, Ht by done. cbn [parsed]. cbv zeta.
  eexists. split; [reflexivity|]. split; [split|split_and!].
  - change (calm (advance (tick (advance w))) = true).
    apply calm_advance. rewrite calm_tick. by apply calm_advance.
  - by eapply (readable_insert_doc w).
  - done.
  - simpl. by rewrite uploadsDir_tick.
  - simpl. by rewrite genresFile_tick.
Qed.

Lemma addTrack_consistent_aux (dto : CreateTrackDto) w :
  consistent w →
  ∃ reply w',
    addTrack rt dto w = (Return reply, w') ∧ consistent w' ∧
    ((statusCode reply = 400 ∧ (c_title dto = "" ∨ c_artist dto = "") ∧ same_storage w w') ∨
     (statusCode reply = 409 ∧ same_storage w w' ∧
      ∃ t, stored w t ∧ slug t = createSlug rt (c_title dto)) ∨
     (∃ t, reply = {| statusCode := 201; body := SendTrack (Some t) |} ∧
           title t = c_title dto ∧ slug t = createSlug rt (c_title dto) ∧
           stored w' t ∧ (∀ u, stored w u → slug u ≠ slug t) ∧
           tracksDir w' = <[trackFileName (id t) := Doc t]> (tracksDir w))).
Proof.
  intros (Hh & K & U). unfold addTrack, try_catch.
  destruct (negb (Str.truthy (Some (c_title dto))) || negb (Str.truthy (Some (c_artist dto))))
    eqn:Empty.
  { eexists _, w. split; [reflexivity|]. split; [done|]. left. split; [done|].
    split; [|done]. cbn [Str.truthy] in Empty. rewrite !negb_involutive in Empty.
    apply orb_prop in Empty as [?%String.eqb_eq | ?%String.eqb_eq]; auto. }
  destruct (getTrackBySlug_healthy (createSlug rt (c_title dto)) w Hh)
    as (r & w1 & E & Hsome & Hnone & Hh1 & Et & Eu & Eg & _).
  unfold bind at 1. rewrite E. destruct r as [t|].
  - eexists _, w1. split; [reflexivity|]. split.
    { split; [done|]. split; [by eapply keyed_same|by eapply unique_slugs_same]. }
    right; left. split; [done|]. split; [done|].
    exists t. by destruct (Hsome t eq_refl).
  - pose proof (proj1 Hnone eq_refl) as Free.
    set (d := {| d_title := c_title dto |}).
    destruct (createTrack_healthy rt d w1 Hh1) as (w2 & E2 & Hh2 & Et2 & Eu2).
    unfold bind, ret. rewrite E2. rewrite Et in Et2.
    eexists _, w2. split; [reflexivity|]. split.
    { split; [done|]. split; [by eapply keyed_insert|].
      eapply unique_slugs_insert; [done..|].
      intros g u _ Hg Hu. apply Free. by exists g. }
    right; right. exists (drafted rt d w1). split_and!; try done.
    eexists. split; [apply endsWith_trackFileName|]. by rewrite Et2, lookup_insert_eq.
Qed.

(** X21.  [POST /api/tracks] on a store that is in order leaves it in order:
    every record in the file of its id, no slug twice.  It answers 400
    for an empty title or artist and 409 when a record has the slug of
    the title, both without touching the storage, and 201 otherwise,
    with the record it has stored under that slug. *)
Theorem addTrack_keeps_consistent (dto : CreateTrackDto) w :
  consistent w →
  ∃ reply w',
    addTrack rt dto w = (Return reply, w') ∧ consistent w' ∧
    ((statusCode reply = 400 ∧ (c_title dto = "" ∨ c_artist dto = "") ∧ same_storage w w') ∨
     (statusCode reply = 409 ∧ same_storage w w' ∧
      ∃ t, stored w t ∧ slug t = createSlug rt (c_title dto)) ∨
     (∃ t, reply = {| statusCode := 201; body := SendTrack (Some t) |} ∧
           title t = c_title dto ∧ slug t = createSlug rt (c_title dto) ∧
           stored w' t ∧ (∀ u, stored w u → slug u ≠ slug t) ∧
           tracksDir w' = <[trackFileName (id t) := Doc t]> (tracksDir w))).
Proof. apply addTrack_consistent_aux. Qed.

Lemma healthy_advance w : healthy w → healthy (advance w).
Proof.
  intros [C Hr]. split; [by apply calm_advance|].
  unfold readable in *. by rewrite tracksDir_advance.
Qed.

Lemma consistent_same w w' :
  healthy w' → tracksDir w' = tracksDir w → consistent w → consistent w'.
Proof.
  intros Hh E (_ & K & U). split; [done|].
  split; [by eapply keyed_same|by eapply unique_slugs_same].
Qed.

Lemma updateTrack_consistent (id0 : string) (u : TrackUpdates) t w :
  consistent w → tracksDir w !! trackFileName id0 = Some (Doc t) → u_id u = None →
  (∀ g v, g ≠ trackFileName id0 → Str.endsWith g ".json" = true →
          tracksDir w !! g = Some (Doc v) → slug v ≠ default (slug t) (u_slug u)) →
  ∃ t' w', updateTrack rt id0 u w = (Return (Some t'), w') ∧ consistent w' ∧
           tracksDir w' = <[trackFileName id0 := Doc t']> (tracksDir w) ∧
           uploadsDir w' = uploadsDir w ∧ genresFile w' = genresFile w ∧
           id t' = id t ∧ slug t' = default (slug t) (u_slug u).
Proof.
  intros (Hh & K & U) Ht Hid Hfree.
  destruct (updateTrack_healthy id0 u t w Hh Ht) as (w' & E & Hh' & Et & Eu & Eg).
  eexists _, w'. split; [exact E|]. split; [split; [done|split]|split_and!; try done].
  - pose proof (K _ _ (endsWith_trackFileName id0) Ht) as Ek.
    eapply (keyed_insert w w' (mergeUpdates t u _)); [done|].
    cbn [mergeUpdates id]. rewrite Hid. cbn [default]. by rewrite <-Ek.
  - eapply (unique_slugs_insert w w'); [done|exact Et|].
    intros g v Ng Hg Hv. exact (Hfree g v Ng Hg Hv).
  - cbn [mergeUpdates id]. by rewrite Hid.
Qed.

(** X22.  [PUT /api/tracks/:id] with a plain id and a body that carries
    neither [id] nor [slug] leaves a store that is in order in order.  It answers 404 when
    no record has the id and 409 when another record has the slug of the
    new title, both without touching the storage; otherwise 200 with the
    stored record, which keeps its id and takes the slug of the title
    exactly when the body has a non-empty title that differs from the
    stored one. *)
Theorem updateTrackById_keeps_consistent (id0 : string) (requestBody : TrackUpdates) w :
  consistent w → plainName id0 = true →
  u_id requestBody = None → u_slug requestBody = None →
  ∃ reply w',
    updateTrackById rt id0 requestBody w = (Return reply, w') ∧ consistent w' ∧
    ((statusCode reply = 404 ∧ holds id0 (tracksDir w) = false ∧ same_storage w w') ∨
     (statusCode reply = 409 ∧ same_storage w w' ∧
      ∃ other, stored w other ∧ id other ≠ id0 ∧
               slug other = createSlug rt (Str.orEmpty (u_title requestBody))) ∨
     (∃ t t', tracksDir w !! trackFileName id0 = Some (Doc t) ∧
              reply = {| statusCode := 200; body := SendTrack (Some t') |} ∧
              tracksDir w' = <[trackFileName id0 := Doc t']> (tracksDir w) ∧
              id t' = id t ∧
              slug t' =
                if Str.truthy (u_title requestBody) &&
                   negb (String.eqb (Str.orEmpty (u_title requestBody)) (title t))
                then createSlug rt (Str.orEmpty (u_title requestBody))
                else slug t)).
Proof.
  intros Hc _ Hid Hslug. pose proof Hc as (Hh & K & U).
  unfold updateTrackById, try_catch. cbv zeta.
  unfold bind at 1. rewrite getTrackById_eq, calm_fails by apply Hh.
  pose proof (healthy_advance w Hh) as Hh0.
  assert (consistent (advance w)) as Hc0 by by eapply consistent_same.
  destruct (parsed (tracksDir w !! trackFileName id0)) as [t|] eqn:Ht; cycle 1.
  { eexists _, _. split; [reflexivity|]. split; [done|]. left.
    split; [done|]. split; [|done]. unfold holds. by rewrite Ht. }
  assert (tracksDir w !! trackFileName id0 = Some (Doc t)) as Hfile.
  { by destruct (tracksDir w !! trackFileName id0) as [[?|?]|]; simplify_eq/=. }
  clear Ht.
  destruct (Str.truthy (u_title requestBody) && _) eqn:Changed.
  - set (newSlug := createSlug rt (Str.orEmpty (u_title requestBody))).
    destruct (getTrackBySlug_healthy newSlug (advance w) Hh0)
      as (r & w1 & E & Hsome & Hnone & Hh1 & Et & Eu & Eg & _).
    rewrite tracksDir_advance in Et.
    assert (consistent w1) as Hc1 by by eapply consistent_same.
    unfold bind at 1. rewrite E.
    assert (∀ g v, g ≠ trackFileName id0 → Str.endsWith g ".json" = true →
              tracksDir w1 !! g = Some (Doc v) →
              (∀ other, r = Some other → id other = id0) →
              slug v ≠ default (slug t) (u_slug (withSlug requestBody newSlug))) as Hfree.
    { intros g v Ng Hg Hv Hsame Hs. cbn in Hs. rewrite Et in Hv.
      destruct r as [other|].
      - destruct (Hsome other eq_refl) as [Hso (f & Hf & Hfo)].
        rewrite tracksDir_advance in Hfo.
        pose proof (K _ _ Hf Hfo) as Ek. rewrite (Hsame other eq_refl) in Ek.
        apply Ng. rewrite <-Ek. apply (U g f v other); congruence.
      - apply (proj1 Hnone eq_refl v); [|done]. exists g. by rewrite tracksDir_advance. }
    assert ((∀ other, r = Some other → id other = id0) →
            ∃ t' w2, updateTrack rt id0 (withSlug requestBody newSlug) w1 =
                       (Return (Some t'), w2) ∧ consistent w2 ∧
                     tracksDir w2 = <[trackFileName id0 := Doc t']> (tracksDir w) ∧
                     id t' = id t ∧ slug t' = newSlug) as Finish.
    { intros Hsame.
      destruct (updateTrack_consistent id0 (withSlug requestBody newSlug) t w1)
        as (t' & w2 & E2 & Hc2 & Et2 & _ & _ & Hid2 & Hs2); try done.
      - by rewrite Et.
      - intros g v Ng Hg Hv. by eapply Hfree.
      - exists t', w2. rewrite Et in Et2. done. }
    destruct r as [other|].
    + destruct (negb (String.eqb (id other) id0)) eqn:Other.
      * eexists _, w1. split; [reflexivity|]. split; [done|]. right; left.
        split; [done|]. split; [by unfold same_storage; rewrite Et, Eu, Eg|].
        exists other. destruct (Hsome other eq_refl) as [Hso (f & Hf & Hfo)].
        rewrite tracksDir_advance in Hfo. split_and!; [by exists f| |done].
        apply negb_true_iff in Other. by apply String.eqb_neq.
      * apply negb_false_iff, String.eqb_eq in Other.
        destruct Finish as (t' & w2 & E2 & Hc2 & Et2 & Hid2 & Hs2); [by intros ? [= <-]|].
        unfold bind, ret. rewrite E2. eexists _, w2. split; [reflexivity|].
        split; [done|]. right; right. exists t, t'. by rewrite Changed.
    + destruct Finish as (t' & w2 & E2 & Hc2 & Et2 & Hid2 & Hs2); [done|].
      unfold bind, ret. rewrite E2. eexists _, w2. split; [reflexivity|].
      split; [done|]. right; right. exists t, t'. by rewrite Changed.
  - destruct (updateTrack_consistent id0 requestBody t (advance w))
      as (t' & w2 & E2 & Hc2 & Et2 & _ & _ & Hid2 & Hs2); try done.
    { rewrite Hslug. cbn [default]. intros g v Ng Hg Hv Hs. rewrite tracksDir_advance in Hv.
      apply Ng. apply (U g (trackFileName id0) v t); try done. apply endsWith_trackFileName. }
    unfold bind, ret. rewrite E2. eexists _, w2. split; [reflexivity|].
    split; [done|]. right; right. exists t, t'. rewrite tracksDir_advance in Et2.
    rewrite Hslug in Hs2. by rewrite Changed.
Qed.

(** X23.  A record created through [POST /api/tracks] is the one that
    [GET /api/tracks/:slug] returns for its slug. *)
Theorem addTrack_then_getTrack (dto : CreateTrackDto) w t w' :
  consistent w →
  addTrack rt dto w = (Return {| statusCode := 201; body := SendTrack (Some t) |}, w') →
  ∃ w'', getTrack (slug t) w' =
           (Return {| statusCode := 200; body := SendTrack (Some t) |}, w'').
Proof.
  intros Hc E.
  destruct (addTrack_consistent_aux dto w Hc) as (reply & w1 & E1 & Hc1 & Hcase).
  rewrite E in E1. injection E1 as <- <-.
  destruct Hcase as [[? _] | [[? _] | (t' & [= <-] & _ & _ & (f & Hf & Hft) & _)]];
    [done..|].
  destruct Hc1 as (Hh & K & U).
  destruct (getTrackBySlug_healthy (slug t) w' Hh) as (r & w2 & E2 & Hsome & Hnone & _).
  unfold getTrack, try_catch, bind. rewrite E2. destruct r as [u|].
  - destruct (Hsome u eq_refl) as [Hs (g & Hg & Hgu)].
    pose proof (U g f u t Hg Hf Hgu Hft Hs) as ->.
    rewrite Hft in Hgu. injection Hgu as ->. by eexists.
  - destruct (proj1 Hnone eq_refl t); [by exists f|done].
Qed.

Ltac answer :=
  eexists _, _; split; [reflexivity|];
  first [by (split_and!; auto) | left; by (split_and!; auto) | right; by (split_and!; auto)].


Lemma getTrackBySlug_total (slug0 : string) w :
  ∃ r w', getTrackBySlug slug0 w = (Return r, w') ∧ same_storage w w'.
Proof.
  unfold getTrackBySlug, try_catch, getTrackBySlug_try, bind.
  rewrite readdir_tracks_eq. destruct (fails 0 w); [by eexists _, _|].
  destruct (findBySlug slug0 _ (advance w)) as [[r|e] w1] eqn:E;
    eexists _, _; (split; [reflexivity|]); by apply findBySlug_read_only in E.
Qed.

Lemma deleteAudioFile_total (id0 : string) w :
  ∃ r w', deleteAudioFile rt id0 w = (Return r, w').
Proof.
  rewrite deleteAudioFile_eq. destruct (fails 0 w); [eauto|].
  destruct (parsed _); [|eauto]. destruct (Str.truthy _); [|eauto].
  destruct (fails 1 w); [eauto|]. destruct (uploadsDir w !! _); eauto.
Qed.

(** X24.  Only the two handlers that write new files answer [Internal Server
    Error].  Whatever the storage does, listing genres answers 200, a
    lookup by slug 200 or 404, an update 200, 404 or 409, a removal 204
    or 404, a batch removal 200 or 400, and the removal of an asset
    never the generic error. *)
Theorem storage_faults_are_not_500 w :
  (∃ names w', getAllGenres w =
                 (Return {| statusCode := 200; body := SendGenres names |}, w')) ∧
  (∀ slug0, ∃ reply w', getTrack slug0 w = (Return reply, w') ∧
                        (statusCode reply = 200 ∨ statusCode reply = 404)) ∧
  (∀ id0 requestBody, ∃ reply w',
      updateTrackById rt id0 requestBody w = (Return reply, w') ∧
      (statusCode reply = 200 ∨ statusCode reply = 404 ∨ statusCode reply = 409)) ∧
  (∀ id0, ∃ reply w', removeTrack id0 w = (Return reply, w') ∧
                      (statusCode reply = 204 ∨ statusCode reply = 404)) ∧
  (∀ ids, ∃ reply w', removeTracks ids w = (Return reply, w') ∧
                      (statusCode reply = 200 ∨ statusCode reply = 400)) ∧
  (∀ id0, ∃ reply w', deleteTrackFile rt id0 w = (Return reply, w') ∧
                      reply ≠ internalError).
Proof.
  split_and!.
  - unfold getAllGenres, try_catch, bind. rewrite getGenres_eq. by eexists _, _.
  - intros slug0. destruct (getTrackBySlug_total slug0 w) as (r & w' & E & _).
    unfold getTrack, try_catch, bind. rewrite E. destruct r; eexists _, _; eauto.
  - intros id0 requestBody. unfold updateTrackById, try_catch. cbv zeta.
    unfold bind at 1. rewrite getTrackById_eq.
    destruct (if fails 0 w then None else _) as [t|]; [|eexists _, _; eauto].
    assert (∀ u w0, ∃ reply w',
              (updatedTrack <- updateTrack rt id0 u ;;
               ret {| statusCode := 200; body := SendTrack updatedTrack |}) w0 =
                (Return reply, w') ∧ statusCode reply = 200) as Finish.
    { intros u w0. destruct (updateTrack_total rt id0 u w0) as (r & w' & E).
      unfold bind, ret. rewrite E. by eexists _, _. }
    destruct (Str.truthy _ && _).
    + destruct (getTrackBySlug_total (createSlug rt (Str.orEmpty (u_title requestBody)))
                  (advance w)) as (r & w1 & E & _).
      unfold bind at 1. rewrite E. destruct r as [other|].
      * destruct (negb _); [eexists _, _; eauto|].
        destruct (Finish (withSlug requestBody
                    (createSlug rt (Str.orEmpty (u_title requestBody)))) w1)
          as (reply & w' & -> & ?). eexists _, _; eauto.
      * destruct (Finish (withSlug requestBody
                    (createSlug rt (Str.orEmpty (u_title requestBody)))) w1)
          as (reply & w' & -> & ?). eexists _, _; eauto.
    + destruct (Finish requestBody (advance w)) as (reply & w' & -> & ?).
      eexists _, _; eauto.
  - intros id0. destruct (deleteTrack_total id0 w) as (r & w' & E).
    unfold removeTrack, try_catch, bind. rewrite E. destruct r; eexists _, _; eauto.
  - intros [|x ids]; [by eexists _, _; eauto|].
    destruct (deleteEach_partition (x :: ids) {| success := []; failed := [] |} w)
      as (r & w' & E & _).
    unfold removeTracks, try_catch, bind, deleteMultipleTracks. rewrite E.
    eexists _, _; eauto.
  - intros id0. unfold deleteTrackFile, try_catch. unfold bind at 1.
    rewrite getTrackById_eq.
    destruct (if fails 0 w then None else _) as [t|]; [|by eexists _, _].
    destruct (negb _); [by eexists _, _|].
    destruct (deleteAudioFile_total id0 (advance w)) as (ok & w1 & E).
    unfold bind at 1. rewrite E. destruct ok; [|by eexists _, _].
    unfold bind. rewrite getTrackById_eq. by eexists _, _.
Qed.

(** X25.  [DELETE /api/tracks/:id] with a plain id, for a record that
    names its asset by a plain name: the answer is 204 exactly when the
    file of the record has been removed; every other case is a 404
    that leaves the storage as it was, a failure of the storage
    included. *)
Theorem removeTrack_reply (id0 : string) w :
  plainName id0 = true →
  (∀ t f, tracksDir w !! trackFileName id0 = Some (Doc t) → audioFile t = Some f →
          plainName f = true) →
  ∃ reply w', removeTrack id0 w = (Return reply, w') ∧
    ((reply = {| statusCode := 204; body := SendNothing |} ∧
      holds id0 (tracksDir w) = true ∧
      tracksDir w' = delete (trackFileName id0) (tracksDir w)) ∨
     (statusCode reply = 404 ∧ same_storage w w' ∧
      (holds id0 (tracksDir w) = false ∨ fails 0 w = true ∨ fails 1 w = true))).
Proof.
  intros _ _. unfold removeTrack, try_catch, bind, holds. rewrite deleteTrack_eq.
  destruct (fails 0 w); [answer|].
  destruct (parsed _) as [t|]; [|answer].
  cbv zeta.
  destruct (fails 1 w); [answer|].
  destruct (Str.truthy _); [|answer].
  destruct (fails 2 w); [answer|].
  destruct (uploadsDir w !! _); answer.
Qed.

(** X26.  [PUT /api/tracks/:id] can answer 200 with no record: when the record
    is found but the storage fails during the update itself, the reply
    is 200 with an empty body and nothing has been stored. *)
Theorem updateTrackById_null_reply (id0 : string) (requestBody : TrackUpdates) w t :
  fails 0 w = false → tracksDir w !! trackFileName id0 = Some (Doc t) →
  u_title requestBody = None →
  fails 1 w = true ∨ fails 2 w = true →
  ∃ w', updateTrackById rt id0 requestBody w =
          (Return {| statusCode := 200; body := SendTrack None |}, w') ∧
        same_storage w w'.
Proof.
  intros F0 L Ht F. unfold updateTrackById, try_catch. cbv zeta.
  unfold bind at 1. rewrite getTrackById_eq, F0, L, Ht. cbn [parsed Str.truthy andb].
  unfold bind, ret. rewrite updateTrack_eq, !fails_advance.
  change (tracksDir (advance w)) with (tracksDir w). rewrite L. cbn [parsed]. cbv zeta.
  destruct (fails 1 w); [by eexists|].
  destruct F as [?|F2]; [done|]. rewrite F2. eexists. split; [reflexivity|].
  split_and!; simpl; by rewrite ?tracksDir_tick, ?uploadsDir_tick, ?genresFile_tick.
Qed.

Lemma uploadTrackFile_eq (id0 : string) (upload : UploadedFile) w :
  accepted upload = true →
  uploadTrackFile rt id0 (Some upload) w =
    match (if fails 0 w then None else parsed (tracksDir w !! trackFileName id0)) with
    | None => (Return {| statusCode := 404; body := SendError "Track not found" |},
               advance w)
    | Some t =>
        let name := assetName rt id0 upload in
        if fails 1 w then (Return internalError, advance (advance w))
        else
          let w1 := set_uploadsDir (<[name := content upload]> (uploadsDir w))
                      (advance (advance w)) in
          let t' := with_audio (Some name) (toISOString rt (clock w)) t in
          if fails 2 w then
            (Return {| statusCode := 200; body := SendTrack None |}, advance w1)
          else if fails 3 w then
            (Return {| statusCode := 200; body := SendTrack None |},
             advance (tick (advance w1)))
          else
            (Return {| statusCode := 200; body := SendTrack (Some t') |},
             set_tracksDir (<[trackFileName id0 := Doc t']> (tracksDir w))
               (advance (tick (advance w1))))
    end.
Proof.
  intros [Hm Hs]%andb_prop. unfold uploadTrackFile, try_catch. unfold bind at 1.
  rewrite getTrackById_eq.
  destruct (fails 0 w) eqn:F0; [done|].
  destruct (parsed _) as [t|] eqn:L; [|done].
  rewrite Hm. cbn [negb].
  assert ((maxSize <? Z.of_nat (length (content upload))) = false) as -> by lia.
  unfold saveAudioFile. unfold bind at 1. unfold bind at 1.
  rewrite writeFile_upload_eq, fails_advance. fold (assetName rt id0 upload).
  destruct (fails 1 w) eqn:F1; [done|]. cbv zeta.
  unfold ret at 1. unfold bind, ret. rewrite updateTrack_eq.
  change (fails 0 (set_uploadsDir ?m ?w')) with (fails 0 w').
  change (fails 1 (set_uploadsDir ?m ?w')) with (fails 1 w').
  rewrite !fails_advance.
  destruct (fails 2 w); [done|].
  change (tracksDir (set_uploadsDir ?m (advance (advance w)))) with (tracksDir w).
  rewrite L. cbv zeta. destruct (fails 3 w); done.
Qed.

(** X27.  An accepted upload to an existing record, with no storage failure:
    the reply is 200 with the record, which now names the asset; the
    asset is stored under the id and the extension of the uploaded
    name.  Nothing else changes: an asset the record named before, under
    another name, stays in the uploads directory. *)
Theorem uploadTrackFile_attaches (id0 : string) (upload : UploadedFile) w t :
  calm w = true → tracksDir w !! trackFileName id0 = Some (Doc t) →
  accepted upload = true →
  ∃ t' w',
    uploadTrackFile rt id0 (Some upload) w =
      (Return {| statusCode := 200; body := SendTrack (Some t') |}, w') ∧
    t' = with_audio (Some (assetName rt id0 upload)) (toISOString rt (clock w)) t ∧
    tracksDir w' = <[trackFileName id0 := Doc t']> (tracksDir w) ∧
    uploadsDir w' = <[assetName rt id0 upload := content upload]> (uploadsDir w) ∧
    (∀ old, audioFile t = Some old → old ≠ assetName rt id0 upload →
            uploadsDir w' !! old = uploadsDir w !! old).
Proof.
  intros C L A. rewrite uploadTrackFile_eq, !calm_fails, L by done. cbn [parsed]. cbv zeta.
  eexists _, _. split; [reflexivity|]. split; [done|]. split; [done|].
  assert (∀ m w0, uploadsDir (advance (tick (advance (set_uploadsDir m w0)))) = m) as E.
  { intros m w0. change (uploadsDir (tick (advance (set_uploadsDir m w0))) = m).
    by rewrite uploadsDir_tick. }
  split.
  - cbn [uploadsDir set_tracksDir]. by rewrite E.
  - intros old _ N. cbn [uploadsDir set_tracksDir]. rewrite E.
    by rewrite lookup_insert_ne.
Qed.

(** X28.  An upload whose file is written but whose record cannot be updated
    is answered 200 with an empty body, and leaves an asset that no
    record names. *)
Theorem uploadTrackFile_orphan (id0 : string) (upload : UploadedFile) w t :
  tracksDir w !! trackFileName id0 = Some (Doc t) → accepted upload = true →
  fails 0 w = false → fails 1 w = false → fails 2 w = true ∨ fails 3 w = true →
  ∃ w', uploadTrackFile rt id0 (Some upload) w =
          (Return {| statusCode := 200; body := SendTrack None |}, w') ∧
        tracksDir w' = tracksDir w ∧
        uploadsDir w' = <[assetName rt id0 upload := content upload]> (uploadsDir w).
Proof.
  intros L A F0 F1 F. rewrite uploadTrackFile_eq, F0, L, F1 by done. cbn [parsed]. cbv zeta.
  destruct (fails 2 w); [by eexists|].
  destruct F as [?|F3]; [done|]. rewrite F3. eexists. split; [reflexivity|].
  split.
  - change (tracksDir (tick (advance (set_uploadsDir
              (<[assetName rt id0 upload := content upload]> (uploadsDir w))
              (advance (advance w))))) = tracksDir w).
    by rewrite tracksDir_tick.
  - change (uploadsDir (tick (advance (set_uploadsDir
              (<[assetName rt id0 upload := content upload]> (uploadsDir w))
              (advance (advance w))))) =
            <[assetName rt id0 upload := content upload]> (uploadsDir w)).
    by rewrite uploadsDir_tick.
Qed.


(** X30.  [DELETE /api/tracks/:id/file] for a record that names an asset
    by a plain name, with no storage failure: when the asset exists it is removed and the
    reply is 200 with the record without the reference; when it is
    missing the reply is 500 [Failed to delete audio file] and the
    record keeps the reference. *)
Theorem deleteTrackFile_reply (id0 f : string) w t :
  calm w = true → tracksDir w !! trackFileName id0 = Some (Doc t) →
  audioFile t = Some f → f ≠ "" → plainName f = true →
  ∃ reply w', deleteTrackFile rt id0 w = (Return reply, w') ∧
    match uploadsDir w !! f with
    | Some _ =>
        reply = {| statusCode := 200;
                   body := SendTrack
                     (Some (with_audio None (toISOString rt (clock w)) t)) |} ∧
        uploadsDir w' = delete f (uploadsDir w) ∧
        tracksDir w' =
          <[trackFileName id0 := Doc (with_audio None (toISOString rt (clock w)) t)]>
            (tracksDir w)
    | None =>
        reply = {| statusCode := 500; body := SendError "Failed to delete audio file" |} ∧
        same_storage w w'
    end.
Proof.
  intros C L A Hf _. unfold deleteTrackFile, try_catch. unfold bind at 1.
  rewrite getTrackById_eq, calm_fails, L by done. cbn [parsed]. rewrite A.
  cbn [Str.truthy]. destruct (String.eqb_spec f ""); [contradiction|]. cbn [negb].
  unfold bind at 1. rewrite deleteAudioFile_eq, !fails_advance, !calm_fails by done.
  change (tracksDir (advance w)) with (tracksDir w). rewrite L. cbn [parsed]. rewrite A.
  cbn [Str.truthy Str.orEmpty]. destruct (String.eqb_spec f ""); [contradiction|].
  cbn [negb]. change (uploadsDir (advance w)) with (uploadsDir w).
  destruct (uploadsDir w !! f) as [bytes|] eqn:U.
  - rewrite updateTrack_eq.
    change (fails 0 (set_uploadsDir ?m ?w')) with (fails 0 w').
    change (fails 1 (set_uploadsDir ?m ?w')) with (fails 1 w').
    rewrite !fails_advance, !calm_fails by done.
    change (tracksDir (set_uploadsDir ?m ?w')) with (tracksDir w').
    change (clock (set_uploadsDir ?m ?w')) with (clock w').
    rewrite !tracksDir_advance, !clock_advance, L. cbn [parsed]. cbv zeta. cbn [snd].
    unfold bind, ret. rewrite getTrackById_eq.
    change (fails 0 (set_tracksDir ?m ?w')) with (fails 0 w').
    rewrite !fails_advance, fails_tick, !fails_advance.
    change (fails ?k (set_uploadsDir ?m ?w')) with (fails k w').
    rewrite !fails_advance, calm_fails by done.
    cbn [tracksDir set_tracksDir]. rewrite lookup_insert_eq. cbn [parsed].
    eexists _, _. split; [reflexivity|]. split; [done|]. split; [|done].
    change (uploadsDir (tick (advance (set_uploadsDir (delete f (uploadsDir w))
              (advance (advance (advance w)))))) = delete f (uploadsDir w)).
    by rewrite uploadsDir_tick.
  - eexists _, _. split; [reflexivity|]. done.
Qed.

End Handlers.

Lemma sample_consistent : consistent (Sample.world []).
Proof.
  split; [exact sample_healthy|]. split.
  - intros file t _ H. by destruct (sample_lookup _ _ H) as [[-> ->] | [[-> ->] | [-> ->]]].
  - intros f g t u _ _ Hf Hg.
    destruct (sample_lookup _ _ Hf) as [[-> ->] | [[-> ->] | [-> ->]]],
             (sample_lookup _ _ Hg) as [[-> ->] | [[-> ->] | [-> ->]]]; done.
Qed.

Lemma addTrack_keeps_consistent_witness :
  consistent (Sample.world []) ∧
  ∃ reply w', addTrack asciiRuntime SampleRequest.yellow (Sample.world []) =
                (Return reply, w') ∧ consistent w'.
Proof.
  split; [exact sample_consistent|].
  destruct (addTrack_keeps_consistent asciiRuntime SampleRequest.yellow (Sample.world [])
              sample_consistent) as (reply & w' & E & Hc & _).
  exists reply, w'. split; [exact E|exact Hc].
Defined.

Lemma updateTrackById_keeps_consistent_witness :
  consistent (Sample.world []) ∧
  ∃ reply w', updateTrackById asciiRuntime "2" (Sample.retitle "Let It Be")
                (Sample.world []) = (Return reply, w') ∧ consistent w'.
Proof.
  split; [exact sample_consistent|].
  destruct (updateTrackById_keeps_consistent asciiRuntime "2" (Sample.retitle "Let It Be")
              (Sample.world []) sample_consistent eq_refl eq_refl eq_refl)
    as (reply & w' & E & Hc & _).
  exists reply, w'. split; [exact E|exact Hc].
Defined.

Lemma addTrack_then_getTrack_witness :
  ∃ t w' w'',
    addTrack asciiRuntime SampleRequest.yellow (Sample.world []) =
      (Return {| statusCode := 201; body := SendTrack (Some t) |}, w') ∧
    slug t = "yellow-submarine" ∧
    getTrack (slug t) w' =
      (Return {| statusCode := 200; body := SendTrack (Some t) |}, w'').
Proof.
  destruct (addTrack asciiRuntime SampleRequest.yellow (Sample.world []))
    as [o w'] eqn:E.
  assert (∃ t, o = Return {| statusCode := 201; body := SendTrack (Some t) |} ∧
               slug t = "yellow-submarine") as (t & -> & Hs).
  { vm_compute in E. injection E as <- _. eexists. split; reflexivity. }
  destruct (addTrack_then_getTrack asciiRuntime SampleRequest.yellow (Sample.world [])
              t w' sample_consistent E) as (w'' & G).
  exists t, w', w''. split; [reflexivity|]. split; [exact Hs|exact G].
Defined.

Lemma updateTrackById_null_reply_witness :
  fails 2 (Sample.world [false; false; true]) = true ∧
  ∃ w', updateTrackById asciiRuntime "2" (Sample.rename "2")
          (Sample.world [false; false; true]) =
          (Return {| statusCode := 200; body := SendTrack None |}, w') ∧
        same_storage (Sample.world [false; false; true]) w'.
Proof.
  split; [reflexivity|].
  assert (tracksDir (Sample.world [false; false; true]) !! trackFileName "2" =
          Some (Doc Sample.t2)) as L by (vm_compute; reflexivity).
  exact (updateTrackById_null_reply asciiRuntime "2" (Sample.rename "2")
           (Sample.world [false; false; true]) Sample.t2 eq_refl L eq_refl
           (or_intror eq_refl)).
Defined.

Lemma uploadTrackFile_attaches_witness :
  calm (Sample.world []) = true ∧ accepted SampleRequest.wav = true ∧
  assetName asciiRuntime "1" SampleRequest.wav = "1.wav" ∧
  ∃ t' w',
    uploadTrackFile asciiRuntime "1" (Some SampleRequest.wav) (Sample.world []) =
      (Return {| statusCode := 200; body := SendTrack (Some t') |}, w') ∧
    audioFile t' = Some "1.wav" ∧
    uploadsDir w' !! "1.mp3" = uploadsDir (Sample.world []) !! "1.mp3".
Proof.
  assert (calm (Sample.world []) = true) as C by reflexivity.
  assert (accepted SampleRequest.wav = true) as A by (vm_compute; reflexivity).
  assert (assetName asciiRuntime "1" SampleRequest.wav = "1.wav") as N
    by (vm_compute; reflexivity).
  assert (tracksDir (Sample.world []) !! trackFileName "1" = Some (Doc Sample.t1)) as L
    by (vm_compute; reflexivity).
  split; [exact C|]. split; [exact A|]. split; [exact N|].
  destruct (uploadTrackFile_attaches asciiRuntime "1" SampleRequest.wav (Sample.world [])
              Sample.t1 C L A) as (t' & w' & E & -> & _ & _ & Hold).
  eexists _, w'. split; [exact E|]. split; [by rewrite N|].
  apply Hold; [reflexivity|]. rewrite N. discriminate.
Defined.

Lemma uploadTrackFile_orphan_witness :
  fails 3 (Sample.world [false; false; false; true]) = true ∧
  ∃ w', uploadTrackFile asciiRuntime "1" (Some SampleRequest.wav)
          (Sample.world [false; false; false; true]) =
          (Return {| statusCode := 200; body := SendTrack None |}, w') ∧
        tracksDir w' = Sample.records ∧
        uploadsDir w' =
          <[assetName asciiRuntime "1" SampleRequest.wav := content SampleRequest.wav]>
            Sample.assets.
Proof.
  split; [reflexivity|].
  assert (accepted SampleRequest.wav = true) as A by (vm_compute; reflexivity).
  assert (tracksDir (Sample.world [false; false; false; true]) !! trackFileName "1" =
          Some (Doc Sample.t1)) as L by (vm_compute; reflexivity).
  exact (uploadTrackFile_orphan asciiRuntime "1" SampleRequest.wav
           (Sample.world [false; false; false; true]) Sample.t1 L A eq_refl eq_refl
           (or_intror eq_refl)).
Defined.

Lemma deleteTrackFile_reply_witness :
  calm (Sample.world []) = true ∧
  ∃ reply w', deleteTrackFile asciiRuntime "1" (Sample.world []) = (Return reply, w') ∧
              statusCode reply = 200 ∧ uploadsDir w' = delete "1.mp3" Sample.assets.
Proof.
  split; [reflexivity|].
  assert (tracksDir (Sample.world []) !! trackFileName "1" = Some (Doc Sample.t1)) as L
    by (vm_compute; reflexivity).
  assert ("1.mp3" ≠ "") as Hf by discriminate.
  destruct (deleteTrackFile_reply asciiRuntime "1" "1.mp3" (Sample.world []) Sample.t1
              eq_refl L eq_refl Hf eq_refl) as (reply & w' & E & H).
  exists reply, w'. split; [exact E|].
  change (uploadsDir (Sample.world []) !! "1.mp3") with (Sample.assets !! "1.mp3") in H.
  assert (Sample.assets !! "1.mp3" = Some [Byte.x49; Byte.x44; Byte.x33]) as U
    by (vm_compute; reflexivity).
  rewrite U in H. destruct H as (-> & Hu & _). split; [reflexivity|exact Hu].
Defined.

Lemma removeTrack_reply_witness :
  plainName "1" = true ∧
  ∃ reply w', removeTrack "1" (Sample.world []) = (Return reply, w') ∧
              reply = {| statusCode := 204; body := SendNothing |} ∧
              tracksDir w' !! trackFileName "1" = None.
Proof.
  split; [reflexivity|].
  destruct (removeTrack_reply "1" (Sample.world []) eq_refl
              (λ t f H A, sample_plain_assets [] _ t f H A))
    as (reply & w' & E & H).
  exists reply, w'. split; [exact E|].
  assert (holds "1" (tracksDir (Sample.world [])) = true) as Hh
    by (vm_compute; reflexivity).
  destruct H as [(-> & _ & D) | (_ & _ & [F | [F | F]])].
  - split; [reflexivity|]. rewrite D. apply lookup_delete_eq.
  - rewrite Hh in F. discriminate F.
  - discriminate F.
  - discriminate F.
Defined.
